(** * Transcriptland: agent orchestration core

    A shallow embedding of the TypeScript sources of the agent modules
    (Planner, Writer, Critic, Gap-Analysis), of the agent task orchestrator
    and of the phase state machine, together with the properties the
    specification states about them.

    Conventions.
    - A JavaScript string is the list of its UTF-16 code units ([jsstring]).
    - A [Map<string, V>] read only by key is a [gmap jsstring V]; the
      orchestrator's map, whose insertion order is observable through the
      snapshots sent to listeners, is an association list.
    - [Date.now()] and the outcome of a network call are inputs of the
      operation that reads them.
    - [try]/[catch] is a sum: [Returned v] or [Thrown e]. *)

From Stdlib Require Import NArith ZArith Ascii String List Lia Bool Permutation.
From Stdlib Require Import DecimalString DecimalN DecimalNat.
From stdpp Require Import base option list gmap strings.

Set Warnings "-register-all".

Open Scope N_scope.
Open Scope nat_scope.
Open Scope list_scope.

(* ===================================================================== *)
(** ** JavaScript strings *)
(* ===================================================================== *)

Module JS.

Definition jsstring := list N.

(** An ASCII literal of the source as code units. *)
Definition u (s : string) : jsstring :=
  List.map N_of_ascii (list_ascii_of_string s).

(** Values a [throw] can carry: an [Error] object with its [message], or
    anything else. *)
Inductive jsthrown :=
| ErrorObj (message : jsstring)
| NonError (description : jsstring).

(** [error instanceof Error ? error.message : 'Unknown error'] *)
Definition errorMessage (e : jsthrown) : jsstring :=
  match e with
  | ErrorObj message => message
  | NonError _ => u "Unknown error"
  end.

Inductive completion (A : Type) :=
| Returned (v : A)
| Thrown (e : jsthrown).
Arguments Returned {A} v.
Arguments Thrown {A} e.

(** WhiteSpace and LineTerminator code units: what [trim] strips and what
    [\s] matches. *)
Definition isWhiteSpace (x : N) : bool :=
  (existsb (N.eqb x)
     [9; 10; 11; 12; 13; 32; 160; 5760; 8232; 8233; 8239; 8287; 12288; 65279]%N)
  || ((8192 <=? x)%N && (x <=? 8202)%N).

Definition isDigit (x : N) : bool := ((48 <=? x)%N && (x <=? 57)%N).

Fixpoint trimStart (s : jsstring) : jsstring :=
  match s with
  | x :: s' => if isWhiteSpace x then trimStart s' else s
  | [] => []
  end.

Definition trimEnd (s : jsstring) : jsstring := rev (trimStart (rev s)).

(** [String.prototype.trim] *)
Definition trim (s : jsstring) : jsstring := trimEnd (trimStart s).

(** Upper-casing of the code units [a]..[z]. [String.prototype.toUpperCase]
    agrees with it on every string of ASCII letters, the only strings the
    sources apply it to (a capture of [(PASS|FAIL)] under the [i] flag). *)
Definition upperUnit (x : N) : N :=
  if ((97 <=? x)%N && (x <=? 122)%N) then (x - 32)%N else x.

Definition toUpperCase (s : jsstring) : jsstring := List.map upperUnit s.

Fixpoint jsstring_eqb (a b : jsstring) : bool :=
  match a, b with
  | [], [] => true
  | x :: a', y :: b' => N.eqb x y && jsstring_eqb a' b'
  | _, _ => false
  end.

(** [String.prototype.split] with a one-unit separator. *)
Fixpoint split_go (sep : N) (cur : jsstring) (s : jsstring) : list jsstring :=
  match s with
  | [] => [rev cur]
  | x :: s' =>
      if N.eqb x sep then rev cur :: split_go sep [] s'
      else split_go sep (x :: cur) s'
  end.

Definition split (sep : N) (s : jsstring) : list jsstring := split_go sep [] s.

(** [s.startsWith(p)], also giving what follows the prefix. *)
Fixpoint stripPrefix (p s : jsstring) : option jsstring :=
  match p, s with
  | [], _ => Some s
  | a :: p', b :: s' => if N.eqb a b then stripPrefix p' s' else None
  | _ :: _, [] => None
  end.

(** [s.includes(p)] *)
Fixpoint includes (p s : jsstring) : bool :=
  match stripPrefix p s with
  | Some _ => true
  | None => match s with
            | [] => false
            | _ :: s' => includes p s'
            end
  end.

(** A number interpolated in a template literal: its decimal digits (the
    numbers interpolated by the sources are non-negative integers below
    2^53: array indices and [Date.now()]). *)
Definition decimal (n : N) : jsstring :=
  u (NilEmpty.string_of_uint (N.to_uint n)).

(** [parseInt(s, 10)] on a non-empty run of digits, as the integer it
    denotes. JavaScript rounds the result to a double, so the two agree
    up to 2^53. *)
Definition parseInt10 (s : jsstring) : N :=
  fold_left (fun acc x => (acc * 10 + (x - 48))%N) s 0%N.

End JS.
Export JS.

(* ===================================================================== *)
(** ** Regular expressions: the backtracking matcher of ECMAScript *)
(* ===================================================================== *)

Module RegExp.

Inductive ClassAtom :=
| ClsSpace            (* \s *)
| ClsNonSpace         (* \S *)
| ClsDigit            (* \d *)
| ClsUnit (c : N).    (* a literal member *)

Inductive regex :=
| Eps
| Chr (c : N)
| Cls (atoms : list ClassAtom)
| Seq (r1 r2 : regex)
| Alt (r1 r2 : regex)
| Star (greedy : bool) (r : regex)
| Group (i : nat) (r : regex)
| Ahead (r : regex)            (* (?=r) *)
| Bol                          (* ^ without the m flag *)
| Eol.                         (* $ without the m flag *)

Definition Plus (greedy : bool) (r : regex) : regex := Seq r (Star greedy r).
Definition Opt (r : regex) : regex := Alt r Eps.

(** A run of literal characters. *)
Definition LitUnits (l : jsstring) : regex :=
  fold_right (fun c acc => Seq (Chr c) acc) Eps l.

Definition Lit (s : string) : regex := LitUnits (u s).

Definition captures := list (nat * jsstring).

Fixpoint capture (i : nat) (caps : captures) : option jsstring :=
  match caps with
  | [] => None
  | (j, s) :: caps' => if Nat.eqb i j then Some s else capture i caps'
  end.

(** Canonicalize of the [i] flag. The sources use the flag with ASCII
    pattern characters only; a unit at or above 128 never canonicalizes
    to an ASCII unit, so comparing through [upperUnit] decides exactly
    the matches of those patterns. *)
Definition unitMatches (icase : bool) (c x : N) : bool :=
  if icase then N.eqb (upperUnit c) (upperUnit x) else N.eqb c x.

Definition atomMatches (icase : bool) (a : ClassAtom) (x : N) : bool :=
  match a with
  | ClsSpace => isWhiteSpace x
  | ClsNonSpace => negb (isWhiteSpace x)
  | ClsDigit => isDigit x
  | ClsUnit c => unitMatches icase c x
  end.

Definition classMatches (icase : bool) (atoms : list ClassAtom) (x : N) : bool :=
  existsb (fun a => atomMatches icase a x) atoms.

Definition orElse {R} (a : option R) (b : unit -> option R) : option R :=
  match a with
  | Some x => Some x
  | None => b tt
  end.

Definition Cont (R : Type) : Type := nat -> jsstring -> captures -> option R.

(** RepeatMatcher for [r*] and [r*?], given the matcher [body] of [r]:
    greedy tries one more iteration before the continuation, lazy the
    continuation first. An iteration that consumes nothing fails, so
    the length of the remaining input bounds the number of iterations
    and is the [fuel] the loop starts with. *)
Fixpoint repeat (R : Type) (body : nat -> jsstring -> captures -> Cont R -> option R)
    (greedy : bool) (k : Cont R) (fuel : nat) (pos : nat) (s : jsstring)
    (caps : captures) {struct fuel} : option R :=
  let again (_ : unit) :=
    match fuel with
    | O => None
    | S fuel' =>
        body pos s caps
          (fun pos' s' caps' =>
             if Nat.ltb (length s') (length s)
             then repeat R body greedy k fuel' pos' s' caps'
             else None)
    end in
  if greedy
  then orElse (again tt) (fun _ => k pos s caps)
  else orElse (k pos s caps) again.

(** [m r pos s caps k]: match [r] at offset [pos], where [s] is the
    input from [pos] on, then continue with [k]; alternatives are tried
    in the order ECMAScript tries them. *)
Fixpoint m (R : Type) (icase : bool) (r : regex) (pos : nat) (s : jsstring)
    (caps : captures) (k : Cont R) {struct r} : option R :=
  match r with
  | Eps => k pos s caps
  | Chr c =>
      match s with
      | x :: s' => if unitMatches icase c x then k (S pos) s' caps else None
      | [] => None
      end
  | Cls atoms =>
      match s with
      | x :: s' => if classMatches icase atoms x then k (S pos) s' caps else None
      | [] => None
      end
  | Seq r1 r2 =>
      m R icase r1 pos s caps (fun pos' s' caps' => m R icase r2 pos' s' caps' k)
  | Alt r1 r2 =>
      orElse (m R icase r1 pos s caps k) (fun _ => m R icase r2 pos s caps k)
  | Star greedy r1 =>
      repeat R (m R icase r1) greedy k (length s) pos s caps
  | Group i r1 =>
      m R icase r1 pos s caps
        (fun pos' s' caps' => k pos' s' ((i, firstn (pos' - pos) s) :: caps'))
  | Ahead r1 =>
      match m captures icase r1 pos s caps (fun _ _ caps' => Some caps') with
      | Some caps' => k pos s caps'
      | None => None
      end
  | Bol => if Nat.eqb pos 0 then k pos s caps else None
  | Eol => match s with [] => k pos s caps | _ :: _ => None end
  end.

Record MatchResult := {
  index : nat;
  matched : jsstring;       (* element 0 of the match array *)
  groups : captures
}.

(** [group i res] is element [i >= 1] of the match array; [None] is
    [undefined]. *)
Definition group (i : nat) (res : MatchResult) : option jsstring :=
  capture i (groups res).

(** RegExpBuiltinExec without the [g] and [y] flags: the leftmost offset
    at which the pattern matches. *)
Fixpoint exec_from (icase : bool) (r : regex) (pos : nat) (s : jsstring)
    : option MatchResult :=
  orElse
    (m MatchResult icase r pos s []
       (fun pos' _ caps' =>
          Some {| index := pos; matched := firstn (pos' - pos) s; groups := caps' |}))
    (fun _ => match s with
              | [] => None
              | _ :: s' => exec_from icase r (S pos) s'
              end).

(** [text.match(re)] for a [re] without the [g] flag. *)
Definition String_match (text : jsstring) (icase : bool) (r : regex)
    : option MatchResult :=
  exec_from icase r 0 text.

(** [text.replace(re, replacement)] for a [re] without the [g] flag and a
    replacement without [$] patterns. *)
Definition String_replace (text : jsstring) (icase : bool) (r : regex)
    (replacement : jsstring) : jsstring :=
  match String_match text icase r with
  | Some res =>
      firstn (index res) text ++ replacement
        ++ skipn (index res + length (matched res)) text
  | None => text
  end.

End RegExp.
Export RegExp.

(* ===================================================================== *)
(** ** The interaction logger and the effects of an agent operation *)
(* ===================================================================== *)

Module Logger.

Record TokenUsage := {
  prompt : N;
  completion_ : N;
  total : N
}.

(** Modelled from the spec: the interaction logger
    ([services/agent-logger.service.ts]), whose source is missing. The
    spec gives its contract: [logRequest] synchronously appends a
    [request] entry and returns its id, [logResponse] appends the
    terminal [response] entry correlated by that id, [logError] appends a
    standalone [error] entry, and the log is an append-only,
    insertion-ordered sequence. An entry is the call that wrote it. *)
Inductive AgentLogEntry :=
| RequestEntry (id : nat) (agentName roleId systemPrompt userPrompt model : jsstring)
| ResponseEntry (id : nat) (response : jsstring) (duration : Z)
    (tokens : option TokenUsage)
| ErrorEntry (agentName roleId message : jsstring).

Definition AgentLog := list AgentLogEntry.

(** The content of the terminal [response] entries of a log, oldest
    first. *)
Definition responses (log : AgentLog) : list jsstring :=
  omap (fun e => match e with
                 | ResponseEntry _ response _ _ => Some response
                 | _ => None
                 end) log.

Definition errors (log : AgentLog) : list jsstring :=
  omap (fun e => match e with
                 | ErrorEntry _ _ message => Some message
                 | _ => None
                 end) log.

End Logger.
Export Logger.

Module Effects.

(** An agent operation runs against the process-wide log and either
    returns or throws. *)
Definition Eff (A : Type) : Type := AgentLog -> completion A * AgentLog.

Definition ret {A} (v : A) : Eff A := fun log => (Returned v, log).

Definition throw {A} (e : jsthrown) : Eff A := fun log => (Thrown e, log).

Definition bind {A B} (c : Eff A) (k : A -> Eff B) : Eff B :=
  fun log =>
    match c log with
    | (Returned v, log') => k v log'
    | (Thrown e, log') => (Thrown e, log')
    end.

(** [try { body } catch (error) { handler }] *)
Definition tryCatch {A} (body : Eff A) (handler : jsthrown -> Eff A) : Eff A :=
  fun log =>
    match body log with
    | (Returned v, log') => (Returned v, log')
    | (Thrown e, log') => handler e log'
    end.

(** The outcome of an awaited call, decided by the network. *)
Definition await {A} (outcome : completion A) : Eff A :=
  fun log => (outcome, log).

(** Modelled from the spec: [agentLogger.logRequest], which appends the
    request entry and returns a fresh id (here the position of the
    entry in the log). *)
Definition logRequest (agentName roleId systemPrompt userPrompt model : jsstring)
    : Eff nat :=
  fun log =>
    let id := length log in
    (Returned id,
     log ++ [RequestEntry id agentName roleId systemPrompt userPrompt model]).

(** Modelled from the spec: [agentLogger.logResponse], which appends the
    terminal response entry for [logId]. *)
Definition logResponse (logId : nat) (content : jsstring) (duration : Z)
    (tokens : option TokenUsage) : Eff unit :=
  fun log => (Returned tt, log ++ [ResponseEntry logId content duration tokens]).

(** Modelled from the spec: [agentLogger.logError], which appends a
    standalone error entry. *)
Definition logError (agentName roleId message : jsstring) : Eff unit :=
  fun log => (Returned tt, log ++ [ErrorEntry agentName roleId message]).

End Effects.
Export Effects.

Notation "'let!' x ':=' c 'in' k" := (bind c (fun x => k))
  (at level 10, x name, c at level 100, k at level 200).
Notation "'do!' c 'in' k" := (bind c (fun _ => k))
  (at level 10, c at level 100, k at level 200).

(* ===================================================================== *)
(** ** What every agent call is given *)
(* ===================================================================== *)

Module Llm.

(** [CompletionResult] of [llm.service.ts]. *)
Record Usage := {
  prompt_tokens : N;
  completion_tokens : N;
  total_tokens : N
}.

Record CompletionResult := {
  content : jsstring;
  usage : option Usage
}.

(** [result.usage ? { prompt: ..., completion: ..., total: ... } : undefined] *)
Definition tokensOf (result : CompletionResult) : option TokenUsage :=
  match usage result with
  | Some us => Some {| prompt := prompt_tokens us;
                       completion_ := completion_tokens us;
                       total := total_tokens us |}
  | None => None
  end.

(** The prompts and the model an operation resolves before it logs its
    request, and the two readings of the clock it takes. *)
Record Call := {
  systemPrompt : jsstring;
  userPrompt : jsstring;
  model : jsstring;
  startTime : Z;             (* Date.now() before the request *)
  endTime : Z                (* Date.now() when the response is complete *)
}.

(** One streamed generation, [llmService.generateCompletionStream]: the
    chunks it delivers, in order, and whether it then ends or throws. *)
Record Upstream := {
  chunks : list jsstring;
  failure : option jsthrown
}.

End Llm.
Export Llm.

(* ===================================================================== *)
(** ** Critic agent *)
(* ===================================================================== *)

Module Critic.

(** Modelled from the spec: [CriticEvaluation] of [types/phases.ts],
    whose source is missing, with the fields [evaluateSegment] returns
    (the legacy [suggestions] included). *)
Record CriticEvaluation := {
  segmentId : jsstring;
  evaluation : jsstring;
  sourceAlignment : bool;
  sourceAlignmentIssues : option (list jsstring);
  objectiveFulfillmentScore : N;
  improvementGuidance : jsstring;
  suggestions : list jsstring;
  generatedAt : Z
}.

Definition space : regex := Cls [ClsSpace].
Definition anyUnit : regex := Cls [ClsSpace; ClsNonSpace].

(** [/## Source Alignment\s+(PASS|FAIL)/i] *)
Definition re_sourceAlignment : regex :=
  Seq (Lit "## Source Alignment")
    (Seq (Plus true space) (Group 1 (Alt (Lit "PASS") (Lit "FAIL")))).

(** [/## Source Alignment[\s\S]*?(?=## Objective Fulfillment|$)/i] *)
Definition re_issuesSection : regex :=
  Seq (Lit "## Source Alignment")
    (Seq (Star false anyUnit)
       (Ahead (Alt (Lit "## Objective Fulfillment") Eol))).

(** [/^[-•*]\s+/] *)
Definition re_bullet : regex :=
  Seq Bol
    (Seq (Cls [ClsUnit 45%N; ClsUnit 8226%N; ClsUnit 42%N]) (Plus true space)).

(** [/Score:\s*(\d+)%?/i] *)
Definition re_score : regex :=
  Seq (Lit "Score:")
    (Seq (Star true space)
       (Seq (Group 1 (Plus true (Cls [ClsDigit]))) (Opt (Chr 37%N)))).

(** [/## Improvement Guidance\s+([\s\S]*?)(?=##|$)/i] *)
Definition re_guidance : regex :=
  Seq (Lit "## Improvement Guidance")
    (Seq (Plus true space)
       (Seq (Group 1 (Star false anyUnit)) (Ahead (Alt (Lit "##") Eol)))).

(** The [for (const line of lines)] loop that collects the bullets. *)
Fixpoint collectIssues (lines : list jsstring) (issues : list jsstring)
    : list jsstring :=
  match lines with
  | [] => issues
  | line :: lines' =>
      match String_match (trim line) false re_bullet with
      | Some _ =>
          collectIssues lines'
            (issues ++ [String_replace (trim line) false re_bullet []])
      | None => collectIssues lines' issues
      end
  end.

(** The parsing of [evaluateSegment], from [result.content] to the value
    returned. *)
Definition parseEvaluation (segmentId : jsstring) (content : jsstring)
    (evaluatedAt : Z) : CriticEvaluation :=
  let sourceAlignmentMatch := String_match content true re_sourceAlignment in
  let sourceAlignment :=
    match sourceAlignmentMatch with
    | Some res =>
        match group 1 res with
        | Some g => jsstring_eqb (toUpperCase g) (u "PASS")
        | None => false
        end
    | None => false
    end in
  let sourceAlignmentIssues :=
    if sourceAlignment then []
    else match String_match content true re_issuesSection with
         | Some res =>
             match matched res with
             | [] => []
             | issuesSection => collectIssues (split 10%N issuesSection) []
             end
         | None => []
         end in
  let objectiveFulfillmentScore :=
    match String_match content true re_score with
    | Some res =>
        match group 1 res with
        | Some digits => parseInt10 digits
        | None => 0%N
        end
    | None => 0%N
    end in
  let improvementGuidance :=
    match String_match content true re_guidance with
    | Some res =>
        match group 1 res with
        | Some g => match trim g with
                    | [] => u "No specific guidance provided"
                    | t => t
                    end
        | None => u "No specific guidance provided"
        end
    | None => u "No specific guidance provided"
    end in
  {| segmentId := segmentId;
     evaluation := trim content;
     sourceAlignment := sourceAlignment;
     sourceAlignmentIssues :=
       match sourceAlignmentIssues with
       | [] => None
       | _ :: _ => Some sourceAlignmentIssues
       end;
     objectiveFulfillmentScore := objectiveFulfillmentScore;
     improvementGuidance := improvementGuidance;
     suggestions := [];
     generatedAt := evaluatedAt |}.

(** [CriticAgent.evaluateSegment], from the request log entry on. *)
Definition evaluateSegment (segmentId : jsstring) (call : Call)
    (response : completion CompletionResult) (evaluatedAt : Z)
    : Eff CriticEvaluation :=
  let! logId := logRequest (u "Critic Agent") (u "critic")
                  (systemPrompt call) (userPrompt call) (model call) in
  tryCatch
    (let! result := await response in
     do! logResponse logId (content result) (endTime call - startTime call)%Z
           (tokensOf result) in
     ret (parseEvaluation segmentId (content result) evaluatedAt))
    (fun err =>
       do! logError (u "Critic Agent") (u "critic") (errorMessage err) in
       throw err).

End Critic.

(* ===================================================================== *)
(** ** JSON values and the dynamic operations the parsers apply to them *)
(* ===================================================================== *)

Module Json.

(** A JSON number, exactly: [(-1)^negative * mantissa * 10^exp10]. *)
Record jsnumber := {
  negative : bool;
  mantissa : N;
  exp10 : Z
}.

Inductive json :=
| JNull
| JBool (b : bool)
| JNum (n : jsnumber)
| JStr (s : jsstring)
| JArr (items : list json)
| JObj (members : list (jsstring * json)).

(** What a property read yields: a value or [undefined]. The fields the
    TypeScript sources declare [string] are filled, unchecked, from such
    reads. *)
Definition jsvalue := option json.

(** The number becomes the double 0: it is 0, or it is at most 2^-1075
    in magnitude and rounds to 0. *)
Definition isZero (n : jsnumber) : bool :=
  N.eqb (mantissa n) 0
  || ((exp10 n <? 0)%Z
      && (mantissa n * 2 ^ 1075 <=? 10 ^ Z.to_N (- exp10 n))%N).

(** ToBoolean *)
Definition truthy (v : jsvalue) : bool :=
  match v with
  | None => false
  | Some JNull => false
  | Some (JBool b) => b
  | Some (JNum n) => negb (isZero n)
  | Some (JStr s) => match s with [] => false | _ :: _ => true end
  | Some (JArr _) => true
  | Some (JObj _) => true
  end.

(** [a || b] *)
Definition or_else (a b : jsvalue) : jsvalue := if truthy a then a else b.

(** The member of an object for a key; of duplicate keys JSON.parse
    keeps the last. *)
Fixpoint member (key : jsstring) (members : list (jsstring * json)) : jsvalue :=
  match members with
  | [] => None
  | (k, v) :: members' =>
      match member key members' with
      | Some v' => Some v'
      | None => if jsstring_eqb k key then Some v else None
      end
  end.

(** The message of a TypeError is the engine's; V8's wording is used. *)
Definition typeError_read (of_what key : string) : jsthrown :=
  ErrorObj (u "Cannot read properties of " ++ u of_what ++ u " (reading '"
            ++ u key ++ u "')").

Definition typeError_notFunction (what : string) : jsthrown :=
  ErrorObj (u what ++ u " is not a function").

(** [v.key], for the keys the sources read ([segments], [title], ...):
    none of them is a property of a prototype, so only an object
    parsed from JSON has one. *)
Definition getProp (v : jsvalue) (key : string) : completion jsvalue :=
  match v with
  | None => Thrown (typeError_read "undefined" key)
  | Some JNull => Thrown (typeError_read "null" key)
  | Some (JObj members) => Returned (member (u key) members)
  | Some _ => Returned None
  end.

Definition cbind {A B} (c : completion A) (k : A -> completion B) : completion B :=
  match c with
  | Returned v => k v
  | Thrown e => Thrown e
  end.

(** [try { body } catch (e) { handler }] around a computation that
    touches no log. *)
Definition catching {A} (body : completion A) (handler : jsthrown -> completion A)
    : completion A :=
  match body with
  | Returned v => Returned v
  | Thrown e => handler e
  end.

(** [items.map((x, index) => f x index)], where the callback may throw. *)
Fixpoint mapIndexed {A B} (f : A -> nat -> completion B) (index : nat)
    (items : list A) : completion (list B) :=
  match items with
  | [] => Returned []
  | x :: items' =>
      cbind (f x index) (fun y =>
      cbind (mapIndexed f (S index) items') (fun ys =>
      Returned (y :: ys)))
  end.

(** [v.map(callback)]: [v] has to be an array. *)
Definition Array_map {B} (v : jsvalue) (what : string)
    (f : json -> nat -> completion B) : completion (list B) :=
  match v with
  | Some (JArr items) => mapIndexed (fun x i => f x i) 0 items
  | None => Thrown (typeError_read "undefined" "map")
  | Some JNull => Thrown (typeError_read "null" "map")
  | Some _ => Thrown (typeError_notFunction what)
  end.

(** *** A reference JSON.parse

    The operations below take [JSON.parse] as a parameter and their
    properties hold for any; this recursive-descent reading of the JSON
    grammar is the one the examples are run with. *)

Definition isJsonSpace (x : N) : bool :=
  existsb (N.eqb x) [32; 9; 10; 13]%N.

Fixpoint skipSpace (s : jsstring) : jsstring :=
  match s with
  | x :: s' => if isJsonSpace x then skipSpace s' else s
  | [] => []
  end.

Fixpoint spanDigits (s : jsstring) (acc : jsstring) : jsstring * jsstring :=
  match s with
  | x :: s' => if isDigit x then spanDigits s' (acc ++ [x]) else (acc, s)
  | [] => (acc, [])
  end.

Definition hexValue (x : N) : option N :=
  if isDigit x then Some (x - 48)%N
  else if ((97 <=? x) && (x <=? 102))%N then Some (x - 87)%N
  else if ((65 <=? x) && (x <=? 70))%N then Some (x - 55)%N
  else None.

(** The characters of a string literal after its opening quote. *)
Fixpoint parseChars (s : jsstring) (acc : jsstring) : option (jsstring * jsstring) :=
  match s with
  | [] => None
  | x :: s' =>
      if N.eqb x 34 then Some (acc, s')
      else if N.eqb x 92 then
        match s' with
        | [] => None
        | e :: s'' =>
            if N.eqb e 117 then
              match s'' with
              | h1 :: h2 :: h3 :: h4 :: s''' =>
                  match hexValue h1, hexValue h2, hexValue h3, hexValue h4 with
                  | Some a, Some b, Some c, Some d =>
                      parseChars s''' (acc ++ [((a * 16 + b) * 16 + c) * 16 + d])%N
                  | _, _, _, _ => None
                  end
              | _ => None
              end
            else
              match
                (if N.eqb e 34 then Some 34
                 else if N.eqb e 92 then Some 92
                 else if N.eqb e 47 then Some 47
                 else if N.eqb e 98 then Some 8
                 else if N.eqb e 102 then Some 12
                 else if N.eqb e 110 then Some 10
                 else if N.eqb e 114 then Some 13
                 else if N.eqb e 116 then Some 9
                 else None)%N
              with
              | Some c => parseChars s'' (acc ++ [c])
              | None => None
              end
        end
      else if (x <? 32)%N then None
      else parseChars s' (acc ++ [x])
  end.

Definition parseNumber (s : jsstring) : option (json * jsstring) :=
  let (neg, s1) := match s with
                   | x :: s' => if N.eqb x 45 then (true, s') else (false, s)
                   | [] => (false, s)
                   end in
  let (int, s2) := match s1 with
                   | x :: s' => if N.eqb x 48 then ([48%N], s') else spanDigits s1 []
                   | [] => ([], [])
                   end in
  match int with
  | [] => None
  | _ :: _ =>
      let frac := match s2 with
                  | x :: s' => if N.eqb x 46
                               then match spanDigits s' [] with
                                    | ([], _) => None
                                    | (ds, s3) => Some (ds, s3)
                                    end
                               else Some ([], s2)
                  | [] => Some ([], s2)
                  end in
      match frac with
      | None => None
      | Some (fr, s3) =>
          let expo :=
            match s3 with
            | x :: s' =>
                if N.eqb x 101 || N.eqb x 69 then
                  let (eneg, s4) :=
                    match s' with
                    | y :: s'' => if N.eqb y 45 then (true, s'')
                                  else if N.eqb y 43 then (false, s'')
                                  else (false, s')
                    | [] => (false, s')
                    end in
                  match spanDigits s4 [] with
                  | ([], _) => None
                  | (ds, s5) =>
                      let e := Z.of_N (parseInt10 ds) in
                      Some (if eneg then (- e)%Z else e, s5)
                  end
                else Some (0%Z, s3)
            | [] => Some (0%Z, s3)
            end in
          match expo with
          | None => None
          | Some (e, s5) =>
              Some (JNum {| negative := neg;
                            mantissa := parseInt10 (int ++ fr);
                            exp10 := (e - Z.of_nat (length fr))%Z |}, s5)
          end
      end
  end.

Definition keyword (word : string) (v : json) (s : jsstring)
    : option (json * jsstring) :=
  match stripPrefix (u word) s with
  | Some rest => Some (v, rest)
  | None => None
  end.

Fixpoint parseValue (fuel : nat) (s : jsstring) : option (json * jsstring) :=
  match fuel with
  | O => None
  | S fuel' =>
      match skipSpace s with
      | [] => None
      | x :: s' =>
          if N.eqb x 110 then keyword "null" JNull (x :: s')
          else if N.eqb x 116 then keyword "true" (JBool true) (x :: s')
          else if N.eqb x 102 then keyword "false" (JBool false) (x :: s')
          else if N.eqb x 34 then
            match parseChars s' [] with
            | Some (str, rest) => Some (JStr str, rest)
            | None => None
            end
          else if N.eqb x 91 then
            match skipSpace s' with
            | y :: rest => if N.eqb y 93 then Some (JArr [], rest)
                           else parseElements fuel' s' []
            | [] => None
            end
          else if N.eqb x 123 then
            match skipSpace s' with
            | y :: rest => if N.eqb y 125 then Some (JObj [], rest)
                           else parseMembers fuel' s' []
            | [] => None
            end
          else parseNumber (x :: s')
      end
  end
with parseElements (fuel : nat) (s : jsstring) (acc : list json)
    : option (json * jsstring) :=
  match fuel with
  | O => None
  | S fuel' =>
      match parseValue fuel' s with
      | Some (v, rest) =>
          match skipSpace rest with
          | y :: rest' =>
              if N.eqb y 44 then parseElements fuel' rest' (acc ++ [v])
              else if N.eqb y 93 then Some (JArr (acc ++ [v]), rest')
              else None
          | [] => None
          end
      | None => None
      end
  end
with parseMembers (fuel : nat) (s : jsstring) (acc : list (jsstring * json))
    : option (json * jsstring) :=
  match fuel with
  | O => None
  | S fuel' =>
      match skipSpace s with
      | q :: s' =>
          if N.eqb q 34 then
            match parseChars s' [] with
            | Some (key, rest) =>
                match skipSpace rest with
                | c :: rest' =>
                    if N.eqb c 58 then
                      match parseValue fuel' rest' with
                      | Some (v, rest'') =>
                          match skipSpace rest'' with
                          | y :: rest''' =>
                              if N.eqb y 44
                              then parseMembers fuel' rest''' (acc ++ [(key, v)])
                              else if N.eqb y 125
                              then Some (JObj (acc ++ [(key, v)]), rest''')
                              else None
                          | [] => None
                          end
                      | None => None
                      end
                    else None
                | [] => None
                end
            | None => None
            end
          else None
      | [] => None
      end
  end.

Definition syntaxError : jsthrown := ErrorObj (u "Unexpected token in JSON").

Definition JSON_parse_ref (text : jsstring) : completion json :=
  match parseValue (2 * length text + 2) text with
  | Some (v, rest) =>
      match skipSpace rest with
      | [] => Returned v
      | _ :: _ => Thrown syntaxError
      end
  | None => Thrown syntaxError
  end.

(** An ASCII literal in which ['] stands for the double quote. *)
Definition uq (s : string) : jsstring :=
  List.map (fun x => if N.eqb x 39 then 34%N else x) (u s).

End Json.
Export Json.

(* ===================================================================== *)
(** ** The entities of the analysis ([types/phases]) *)
(* ===================================================================== *)

Module Types.

(** The type declarations of [types/phases.ts] are missing. The records
    below are the data model of the spec, with the fields the agents and
    the state machine read and write; a field they fill from a property
    read of parsed JSON is a [jsvalue]. *)

(** Modelled from the spec: the enum [Phase], "five values and a strict
    linear order". *)
Inductive Phase :=
| UPLOAD_ALIGN
| PROCESSING_VALIDATION
| INSIGHT_EXTRACTION
| GAP_ANALYSIS
| CONSOLIDATION.

(** Modelled from the spec: [PlannerOutput],
    [{ contextUnderstanding, metadataTags, analysisObjective }]. *)
Record PlannerOutput := {
  contextUnderstanding : jsstring;
  metadataTags : list jsstring;
  analysisObjective : jsstring
}.

(** Modelled from the spec: [FrameworkSegment],
    [{ id, title, objective, guidance, order }]. *)
Record FrameworkSegment := {
  seg_id : jsstring;
  seg_title : jsvalue;
  seg_objective : jsvalue;
  seg_guidance : jsvalue;
  seg_order : nat
}.

(** Modelled from the spec: the [metadata] of an [AnalysisFramework],
    [{ title, created, objective, tags }]. *)
Record FrameworkMetadata := {
  meta_title : jsstring;
  meta_created : N;
  meta_objective : jsstring;
  meta_tags : list jsstring
}.

(** Modelled from the spec: [AnalysisFramework], [{ metadata, segments }]. *)
Record AnalysisFramework := {
  metadata : FrameworkMetadata;
  segments : list FrameworkSegment
}.

(** Modelled from the spec: the [status] of a [SegmentAnalysis],
    [pending|complete|error]. *)
Inductive SegmentStatus := pending | complete | error.

(** Modelled from the spec: [SegmentAnalysis],
    [{ segmentId, content, status, generatedAt? }]. *)
Record SegmentAnalysis := {
  sa_segmentId : jsstring;
  sa_content : jsstring;
  sa_status : SegmentStatus;
  sa_generatedAt : option N
}.

(** Modelled from the spec: [GapSuggestion],
    [{ id, title, objective, guidance, rationale }]. *)
Record GapSuggestion := {
  gap_id : jsstring;
  gap_title : jsvalue;
  gap_objective : jsvalue;
  gap_guidance : jsvalue;
  gap_rationale : jsvalue
}.

(** Modelled from the spec: [GapAnalysis], the suggestions, the map of
    the gaps being worked ([analyzedGaps], which [addGapToMainAnalysis]
    reads as possibly [undefined]) and the legacy summary fields that
    [parseGapAnalysis] fills. *)
Record GapAnalysis := {
  uncoveredThemes : list jsstring;
  alternativePerspectives : list jsstring;
  recommendations : list jsstring;
  summary : jsstring;
  gap_suggestions : list GapSuggestion;
  analyzedGaps : option (gmap jsstring SegmentAnalysis);
  newSegments : list FrameworkSegment;
  gap_generatedAt : N
}.

End Types.
Export Types.

(* ===================================================================== *)
(** ** Streamed generations, as every agent re-yields them *)
(* ===================================================================== *)

Module Streaming.

(** How a run of an async generator ends for its consumer. *)
Inductive StreamEnd :=
| Done                       (* the generator returned *)
| Closed.                    (* the consumer stopped iterating *)

Record StreamRun := {
  delivered : list jsstring;           (* the chunks yielded, in order *)
  outcome : completion StreamEnd
}.

Inductive LoopExit :=
| Exhausted (fullResponse : jsstring) (delivered : list jsstring)
| Stopped (delivered : list jsstring).

(** [for await (const chunk of upstream) { fullResponse += chunk; yield chunk; }]
    [calls] is the number of [next()] calls the consumer still makes,
    the one being served included; [None] is a [for await] that runs to
    the end. *)
Fixpoint forAwait (upstream : list jsstring) (calls : option nat)
    (fullResponse : jsstring) (delivered : list jsstring) : LoopExit :=
  match upstream with
  | [] => Exhausted fullResponse delivered
  | chunk :: upstream' =>
      let fullResponse := fullResponse ++ chunk in
      let delivered := delivered ++ [chunk] in
      match calls with
      | None => forAwait upstream' None fullResponse delivered
      | Some (S (S n)) => forAwait upstream' (Some (S n)) fullResponse delivered
      | Some _ => Stopped delivered
      end
  end.

(** The body shared by the streaming operations. [logged] is what the
    operation applies to [fullResponse] before it logs it. The body of
    a generator starts with the first [next()]: a consumer that makes
    none leaves no trace. *)
Definition streamOperation (agentName roleId : string)
    (logged : jsstring -> jsstring) (call : Call) (up : Upstream)
    (calls : option nat) : AgentLog -> StreamRun * AgentLog :=
  fun log =>
    match calls with
    | Some O => ({| delivered := []; outcome := Returned Closed |}, log)
    | _ =>
        match logRequest (u agentName) (u roleId)
                (systemPrompt call) (userPrompt call) (model call) log with
        | (Thrown e, log1) => ({| delivered := []; outcome := Thrown e |}, log1)
        | (Returned logId, log1) =>
            match forAwait (chunks up) calls [] [] with
            | Stopped ds => ({| delivered := ds; outcome := Returned Closed |}, log1)
            | Exhausted fullResponse ds =>
                let after :=
                  tryCatch
                    (match failure up with
                     | Some e => throw e
                     | None =>
                         logResponse logId (logged fullResponse)
                           (endTime call - startTime call)%Z None
                     end)
                    (fun err =>
                       do! logError (u agentName) (u roleId) (errorMessage err) in
                       throw err) in
                match after log1 with
                | (Returned _, log2) =>
                    ({| delivered := ds; outcome := Returned Done |}, log2)
                | (Thrown e, log2) =>
                    ({| delivered := ds; outcome := Thrown e |}, log2)
                end
            end
        end
    end.

End Streaming.
Export Streaming.

(* ===================================================================== *)
(** ** Planner agent *)
(* ===================================================================== *)

Module Planner.

(** A computation that touches no log, inside an operation. *)
Definition pure {A} (c : completion A) : Eff A := fun log => (c, log).

(** [/\{[\s\S]*\}/] *)
Definition re_jsonObject : regex :=
  Seq (Chr 123%N) (Seq (Star true (Cls [ClsSpace; ClsNonSpace])) (Chr 125%N)).

Definition analyzeContextStream :=
  streamOperation "Planner Agent" "planner" trim.

Definition proposeObjectiveStream :=
  streamOperation "Planner Agent" "planner" trim.

Definition generateFrameworkStream :=
  streamOperation "Planner Agent" "planner" (fun fullResponse => fullResponse).

Section WithPlatform.

Variable JSON_parse : jsstring -> completion json.
(** [now index]: [Date.now()] as read while element [index] is mapped. *)
Variable now : nat -> N.
(** [new Date()] *)
Variable created : N.

(** The callback of [parsed.segments.map]. *)
Definition toSegment (seg : json) (index : nat) : completion FrameworkSegment :=
  cbind (getProp (Some seg) "title") (fun title =>
  cbind (getProp (Some seg) "objective") (fun objective =>
  cbind (getProp (Some seg) "guidance") (fun guidance =>
  Returned {| seg_id := u "segment-" ++ decimal (now index) ++ u "-"
                        ++ decimal (N.of_nat index);
              seg_title := title;
              seg_objective := objective;
              seg_guidance := guidance;
              seg_order := index |}))).

(** From [result.content] to the framework: what [generateFramework]
    does between logging the response and returning. *)
Definition parseFramework (contextUnderstanding analysisObjective : jsstring)
    (metadataTags : list jsstring) (content : jsstring)
    : completion AnalysisFramework :=
  match String_match content false re_jsonObject with
  | None => Thrown (ErrorObj (u "Failed to parse framework response"))
  | Some jsonMatch =>
      cbind (JSON_parse (matched jsonMatch)) (fun parsed =>
      cbind (getProp (Some parsed) "segments") (fun rawSegments =>
      cbind (Array_map rawSegments "parsed.segments.map" toSegment) (fun segments =>
      Returned {| metadata := {| meta_title := u "Analysis: " ++ contextUnderstanding;
                                 meta_created := created;
                                 meta_objective := analysisObjective;
                                 meta_tags := metadataTags |};
                  segments := segments |})))
  end.

(** [PlannerAgent.generateFramework], from the request log entry on. *)
Definition generateFramework (contextUnderstanding analysisObjective : jsstring)
    (metadataTags : list jsstring) (call : Call)
    (response : completion CompletionResult) : Eff AnalysisFramework :=
  let! logId := logRequest (u "Planner Agent") (u "planner")
                  (systemPrompt call) (userPrompt call) (model call) in
  tryCatch
    (let! result := await response in
     do! logResponse logId (content result) (endTime call - startTime call)%Z
           (tokensOf result) in
     pure (parseFramework contextUnderstanding analysisObjective metadataTags
             (content result)))
    (fun err =>
       do! logError (u "Planner Agent") (u "planner") (errorMessage err) in
       throw err).

(** The parse the Phase 2 page applies to the text streamed by
    [generateFrameworkStream] ([Phase2_ProcessingValidation.tsx],
    inside its own [try]); [None] when no [{...}] is found. *)
Definition page_toSegment (seg : json) (index : nat) : completion FrameworkSegment :=
  cbind (getProp (Some seg) "title") (fun title =>
  cbind (if truthy title then Returned title else getProp (Some seg) "Title")
    (fun title' =>
  cbind (getProp (Some seg) "objective") (fun objective =>
  cbind (if truthy objective then Returned objective
         else getProp (Some seg) "Objective") (fun objective' =>
  cbind (getProp (Some seg) "guidance") (fun guidance =>
  cbind (if truthy guidance then Returned guidance
         else getProp (Some seg) "Guidance") (fun guidance' =>
  Returned {| seg_id := u "segment-" ++ decimal (now index) ++ u "-"
                        ++ decimal (N.of_nat index);
              seg_title := or_else title' (Some (JStr (u "Untitled Segment")));
              seg_objective :=
                or_else objective' (Some (JStr (u "No objective provided")));
              seg_guidance :=
                or_else guidance' (Some (JStr (u "No guidance provided")));
              seg_order := index |})))))).

Definition page_parseFramework (contextUnderstanding analysisObjective : jsstring)
    (metadataTags : list jsstring) (fullText : jsstring)
    : completion (option AnalysisFramework) :=
  match String_match fullText false re_jsonObject with
  | None => Returned None
  | Some jsonMatch =>
      cbind (JSON_parse (matched jsonMatch)) (fun parsed =>
      cbind (getProp (Some parsed) "segments") (fun lower =>
      cbind (if truthy lower then Returned lower
             else getProp (Some parsed) "Segments") (fun upper =>
      let rawSegments := or_else upper (Some (JArr [])) in
      cbind (Array_map rawSegments "rawSegments.map" page_toSegment)
        (fun frameworkSegments =>
      Returned (Some
        {| metadata := {| meta_title := u "Analysis: " ++ contextUnderstanding;
                          meta_created := created;
                          meta_objective := analysisObjective;
                          meta_tags := metadataTags |};
           segments := frameworkSegments |})))))
  end.

End WithPlatform.

End Planner.

(* ===================================================================== *)
(** ** Writer agent *)
(* ===================================================================== *)

Module Writer.

(** [WriterAgent.analyzeSegment], from the request log entry on. *)
Definition analyzeSegment (segmentId : jsstring) (call : Call)
    (response : completion CompletionResult) (generatedAt : N)
    : Eff SegmentAnalysis :=
  let! logId := logRequest (u "Writer Agent") (u "writer")
                  (systemPrompt call) (userPrompt call) (model call) in
  tryCatch
    (let! result := await response in
     do! logResponse logId (content result) (endTime call - startTime call)%Z
           (tokensOf result) in
     ret {| sa_segmentId := segmentId;
            sa_content := trim (content result);
            sa_status := complete;
            sa_generatedAt := Some generatedAt |})
    (fun err =>
       do! logError (u "Writer Agent") (u "writer") (errorMessage err) in
       ret {| sa_segmentId := segmentId;
              sa_content := [];
              sa_status := error;
              sa_generatedAt := None |}).

(** [WriterAgent.rewriteSegment], from the request log entry on. *)
Definition rewriteSegment (call : Call) (response : completion CompletionResult)
    : Eff jsstring :=
  let! logId := logRequest (u "Writer Agent") (u "writer")
                  (systemPrompt call) (userPrompt call) (model call) in
  tryCatch
    (let! result := await response in
     do! logResponse logId (content result) (endTime call - startTime call)%Z
           (tokensOf result) in
     ret (trim (content result)))
    (fun err =>
       do! logError (u "Writer Agent") (u "writer") (errorMessage err) in
       throw err).

Definition analyzeSegmentStream :=
  streamOperation "Writer Agent" "writer" (fun fullResponse => fullResponse).

End Writer.

Module CriticStream.

Definition evaluateSegmentStream :=
  streamOperation "Critic Agent" "critic" (fun fullResponse => fullResponse).

End CriticStream.

(* ===================================================================== *)
(** ** Gap-analysis agent *)
(* ===================================================================== *)

Module GapAnalysisAgent.

Definition identifyGaps :=
  streamOperation "Gap Analysis Agent" "identify-gaps"
    (fun fullResponse => fullResponse).

Definition fenceOpen : jsstring := u "```json".
Definition fenceClose : jsstring := u "```".

(** [/```json\s*([\s\S]*?)\s*```/] *)
Definition re_jsonFence : regex :=
  Seq (Lit "```json")
    (Seq (Star true (Cls [ClsSpace]))
       (Seq (Group 1 (Star false (Cls [ClsSpace; ClsNonSpace])))
          (Seq (Star true (Cls [ClsSpace])) (Lit "```")))).

(** The text holds a fenced block opened by [```json]: the opening
    fence occurs, and a closing fence occurs after it. *)
Fixpoint hasJsonFence (text : jsstring) : bool :=
  match stripPrefix fenceOpen text with
  | Some rest => if includes fenceClose rest then true
                 else match text with
                      | [] => false
                      | _ :: text' => hasJsonFence text'
                      end
  | None => match text with
            | [] => false
            | _ :: text' => hasJsonFence text'
            end
  end.

Section WithPlatform.

Variable JSON_parse : jsstring -> completion json.
Variable now : nat -> N.

(** The callback of [suggestions.map]. *)
Definition toSuggestion (s : json) (i : nat) : completion GapSuggestion :=
  cbind (getProp (Some s) "title") (fun title =>
  cbind (getProp (Some s) "objective") (fun objective =>
  cbind (getProp (Some s) "guidance") (fun guidance =>
  cbind (getProp (Some s) "rationale") (fun rationale =>
  Returned {| gap_id := u "gap-" ++ decimal (now i) ++ u "-"
                        ++ decimal (N.of_nat i);
              gap_title := title;
              gap_objective := objective;
              gap_guidance := guidance;
              gap_rationale :=
                or_else rationale (Some (JStr (u "No rationale provided"))) |})))).

(** The [try] block of [parseGapSuggestions]. [jsonMatch[1]] is the
    capture, or [undefined], which [JSON.parse] reads as the text
    [undefined]. *)
Definition parseFenceBody (capture : option jsstring)
    : completion (list GapSuggestion) :=
  cbind (JSON_parse (default (u "undefined") capture)) (fun suggestions =>
  Array_map (Some suggestions) "suggestions.map" toSuggestion).

(** [GapAnalysisAgent.parseGapSuggestions] *)
Definition parseGapSuggestions (text : jsstring) : completion (list GapSuggestion) :=
  match String_match text false re_jsonFence with
  | None => Returned []
  | Some jsonMatch =>
      catching (parseFenceBody (group 1 jsonMatch)) (fun _ => Returned [])
  end.

End WithPlatform.

End GapAnalysisAgent.

(* ===================================================================== *)
(** ** Agent task orchestrator *)
(* ===================================================================== *)

Module Orchestrator.

(** Modelled from the spec: [AgentStatus] of [types/index.ts], whose
    source is missing: [idle|running|completed|failed]. *)
Inductive AgentStatus := IDLE | RUNNING | COMPLETED | FAILED.

(** Modelled from the spec: [Agent] of [types/index.ts],
    [{ id, name, status, progress, output?, error? }]. *)
Record Agent := {
  id : jsstring;
  name : jsstring;
  status : AgentStatus;
  progress : N;
  output : option jsstring;
  error_ : option jsstring
}.

(** [Partial<Agent>]: the properties an update carries. An optional
    property can be carried with the value [undefined]. *)
Record AgentUpdates := {
  set_id : option jsstring;
  set_name : option jsstring;
  set_status : option AgentStatus;
  set_progress : option N;
  set_output : option (option jsstring);
  set_error : option (option jsstring)
}.

(** [Object.assign(agent, updates)] *)
Definition assign (agent : Agent) (updates : AgentUpdates) : Agent :=
  {| id := default (id agent) (set_id updates);
     name := default (name agent) (set_name updates);
     status := default (status agent) (set_status updates);
     progress := default (progress agent) (set_progress updates);
     output := default (output agent) (set_output updates);
     error_ := default (error_ agent) (set_error updates) |}.

(** A [Map] in insertion order. *)
Fixpoint Map_get {V} (key : jsstring) (entries : list (jsstring * V)) : option V :=
  match entries with
  | [] => None
  | (k, v) :: entries' => if jsstring_eqb k key then Some v else Map_get key entries'
  end.

(** [map.set(key, v)]: an existing key keeps its place. *)
Fixpoint Map_set {V} (key : jsstring) (v : V) (entries : list (jsstring * V))
    : list (jsstring * V) :=
  match entries with
  | [] => [(key, v)]
  | (k, w) :: entries' =>
      if jsstring_eqb k key then (k, v) :: entries'
      else (k, w) :: Map_set key v entries'
  end.

(** The orchestrator: its two fields, and the calls its listeners have
    received so far (which listener, with which snapshot). A snapshot
    records the agents as they are when the listener is called; a
    listener is taken to return. *)
Record State := {
  agents : list (jsstring * Agent);
  listeners : list nat;
  notified : list (nat * list Agent)
}.

(** [getAgents] *)
Definition getAgents (st : State) : list Agent := List.map snd (agents st).

(** [notifyListeners] *)
Definition notifyListeners (st : State) : State :=
  {| agents := agents st;
     listeners := listeners st;
     notified := notified st
                 ++ List.map (fun listener => (listener, getAgents st)) (listeners st) |}.

(** [registerAgent] *)
Definition registerAgent (agent : Agent) (st : State) : State :=
  notifyListeners
    {| agents := Map_set (id agent) agent (agents st);
       listeners := listeners st;
       notified := notified st |}.

(** [updateAgent] *)
Definition updateAgent (key : jsstring) (updates : AgentUpdates) (st : State)
    : State :=
  match Map_get key (agents st) with
  | Some agent =>
      notifyListeners
        {| agents := Map_set key (assign agent updates) (agents st);
           listeners := listeners st;
           notified := notified st |}
  | None => st
  end.

(** [subscribe]: the [Set] of listeners gains the listener, once. *)
Definition subscribe (listener : nat) (st : State) : State :=
  {| agents := agents st;
     listeners := if existsb (Nat.eqb listener) (listeners st)
                  then listeners st else listeners st ++ [listener];
     notified := notified st |}.

(** [clear] *)
Definition clear (st : State) : State :=
  notifyListeners
    {| agents := []; listeners := listeners st; notified := notified st |}.

(** What calling a task's work function leads to. A work function that
    never settles keeps [runParallelAgents] from returning and is not
    among the cases. *)
Inductive Work :=
| Resolves (result : jsstring)       (* the promise is fulfilled *)
| Rejects (reason : jsthrown)        (* the promise is rejected *)
| ThrowsAtCall (reason : jsthrown).  (* [task()] itself throws *)

Record AgentTask := {
  task_id : jsstring;
  task_name : jsstring;
  task : Work
}.

Definition running : AgentUpdates :=
  {| set_id := None; set_name := None; set_status := Some RUNNING;
     set_progress := Some 0%N; set_output := None; set_error := None |}.

Definition completed (result : jsstring) : AgentUpdates :=
  {| set_id := None; set_name := None; set_status := Some COMPLETED;
     set_progress := Some 100%N; set_output := Some (Some result);
     set_error := None |}.

Definition failed (reason : jsthrown) : AgentUpdates :=
  {| set_id := None; set_name := None; set_status := Some FAILED;
     set_progress := None; set_output := None;
     set_error := Some (Some (errorMessage reason)) |}.

(** The first [forEach]: one [registerAgent] per task. *)
Definition register (t : AgentTask) (st : State) : State :=
  registerAgent {| id := task_id t; name := task_name t; status := IDLE;
                   progress := 0%N; output := None; error_ := None |} st.

(** The callback of [agentTasks.map] up to its [await]: it runs for
    every task, in array order, before any promise settles. *)
Definition start (t : AgentTask) (st : State) : State :=
  let st' := updateAgent (task_id t) running st in
  match task t with
  | ThrowsAtCall reason => updateAgent (task_id t) (failed reason) st'
  | _ => st'
  end.

(** The rest of the callback, run when the promise of task [i] settles. *)
Definition settle (tasks : list AgentTask) (i : nat) (st : State) : State :=
  match nth_error tasks i with
  | Some t =>
      match task t with
      | Resolves result => updateAgent (task_id t) (completed result) st
      | Rejects reason => updateAgent (task_id t) (failed reason) st
      | ThrowsAtCall _ => st
      end
  | None => st
  end.

(** The last [forEach]: the fulfilled results, in array order. *)
Definition collect (t : AgentTask) (outputMap : list (jsstring * jsstring))
    : list (jsstring * jsstring) :=
  match task t with
  | Resolves result => Map_set (task_id t) result outputMap
  | _ => outputMap
  end.

Definition through {A S} (f : A -> S -> S) (l : list A) (s : S) : S :=
  fold_left (fun s x => f x s) l s.

(** [runParallelAgents]. [order] lists the tasks, by index, in the
    order in which their promises settle. *)
Definition runParallelAgents (tasks : list AgentTask) (order : list nat)
    (st : State) : list (jsstring * jsstring) * State :=
  let st1 := through register tasks st in
  let st2 := through start tasks st1 in
  let st3 := through (settle tasks) order st2 in
  (through collect tasks [], st3).

(** A task whose work does not resolve. *)
Definition fails (t : AgentTask) : bool :=
  match task t with
  | Resolves _ => false
  | _ => true
  end.

Definition reasonOf (t : AgentTask) : option jsthrown :=
  match task t with
  | Resolves _ => None
  | Rejects reason => Some reason
  | ThrowsAtCall reason => Some reason
  end.

(** The agent a task ends as, were it alone. *)
Definition finalAgent (t : AgentTask) : Agent :=
  match task t with
  | Resolves result =>
      {| id := task_id t; name := task_name t; status := COMPLETED;
         progress := 100%N; output := Some result; error_ := None |}
  | Rejects reason | ThrowsAtCall reason =>
      {| id := task_id t; name := task_name t; status := FAILED;
         progress := 0%N; output := None;
         error_ := Some (errorMessage reason) |}
  end.

End Orchestrator.

(* ===================================================================== *)
(** ** Phase state machine ([AnalysisContext]) *)
(* ===================================================================== *)

Module AnalysisContext.

Record AnalysisState := {
  currentPhase : Phase;
  transcript : jsstring;
  plannerOutput : option PlannerOutput;
  framework : option AnalysisFramework;
  segmentAnalyses : gmap jsstring SegmentAnalysis;
  criticEvaluations : gmap jsstring Critic.CriticEvaluation;
  gapAnalysis : option GapAnalysis
}.

(** The initial state, and the state [resetAnalysis] sets. *)
Definition initialState : AnalysisState :=
  {| currentPhase := UPLOAD_ALIGN;
     transcript := [];
     plannerOutput := None;
     framework := None;
     segmentAnalyses := ∅;
     criticEvaluations := ∅;
     gapAnalysis := None |}.

(** [suggestion || prev.gapAnalysis?.suggestions.find(s => s.id === gapId)] *)
Definition targetSuggestion (gapId : jsstring) (suggestion : option GapSuggestion)
    (prev : AnalysisState) : option GapSuggestion :=
  match suggestion with
  | Some s => Some s
  | None =>
      match gapAnalysis prev with
      | Some ga => List.find (fun s => jsstring_eqb (gap_id s) gapId)
                     (gap_suggestions ga)
      | None => None
      end
  end.

(** The state update of [addGapToMainAnalysis]. *)
Definition addGapToMainAnalysis (gapId : jsstring) (analysis : SegmentAnalysis)
    (suggestion : option GapSuggestion) (prev : AnalysisState) : AnalysisState :=
  let newAnalyses := <[gapId := analysis]> (segmentAnalyses prev) in
  let newFramework :=
    match targetSuggestion gapId suggestion prev, framework prev with
    | Some target, Some fw =>
        let newSegment :=
          {| seg_id := gap_id target;
             seg_title := gap_title target;
             seg_objective := gap_objective target;
             seg_guidance := gap_guidance target;
             seg_order := length (segments fw) + 1 |} in
        Some {| metadata := metadata fw;
                segments := segments fw ++ [newSegment] |}
    | _, _ => framework prev
    end in
  let newGapAnalyses (ga : GapAnalysis) :=
    delete gapId (default ∅ (analyzedGaps ga)) in
  {| currentPhase := currentPhase prev;
     transcript := transcript prev;
     plannerOutput := plannerOutput prev;
     framework := newFramework;
     segmentAnalyses := newAnalyses;
     criticEvaluations := criticEvaluations prev;
     gapAnalysis :=
       match gapAnalysis prev with
       | Some ga =>
           Some {| uncoveredThemes := uncoveredThemes ga;
                   alternativePerspectives := alternativePerspectives ga;
                   recommendations := recommendations ga;
                   summary := summary ga;
                   gap_suggestions := gap_suggestions ga;
                   analyzedGaps := Some (newGapAnalyses ga);
                   newSegments := newSegments ga;
                   gap_generatedAt := gap_generatedAt ga |}
       | None => None
       end |}.

(** [canProceedToPhase] *)
Definition canProceedToPhase (state : AnalysisState) (phase : Phase) : bool :=
  match phase with
  | UPLOAD_ALIGN => true
  | PROCESSING_VALIDATION =>
      match plannerOutput state with
      | Some _ => negb (jsstring_eqb (transcript state) [])
      | None => false
      end
  | INSIGHT_EXTRACTION =>
      match framework state with
      | Some _ => true
      | None => false
      end
  | GAP_ANALYSIS => Nat.ltb 0 (size (segmentAnalyses state))
  | CONSOLIDATION => Nat.ltb 0 (size (segmentAnalyses state))
  end.

(** Some segment analysis of the state has status [complete]. *)
Definition hasCompletedAnalysis (state : AnalysisState) : Prop :=
  ∃ key a, segmentAnalyses state !! key = Some a ∧ sa_status a = complete.

End AnalysisContext.

(* ===================================================================== *)
(** ** The other updates of the phase state machine *)
(* ===================================================================== *)

Module ContextUpdates.

Import AnalysisContext.

(** [setPhase1Data] *)
Definition setPhase1Data (output : PlannerOutput) (text : jsstring)
    (prev : AnalysisState) : AnalysisState :=
  {| currentPhase := UPLOAD_ALIGN;
     transcript := text;
     plannerOutput := Some output;
     framework := framework prev;
     segmentAnalyses := segmentAnalyses prev;
     criticEvaluations := criticEvaluations prev;
     gapAnalysis := gapAnalysis prev |}.

(** [setPhase2Data] *)
Definition setPhase2Data (fw : AnalysisFramework) (prev : AnalysisState)
    : AnalysisState :=
  {| currentPhase := PROCESSING_VALIDATION;
     transcript := transcript prev;
     plannerOutput := plannerOutput prev;
     framework := Some fw;
     segmentAnalyses := segmentAnalyses prev;
     criticEvaluations := criticEvaluations prev;
     gapAnalysis := gapAnalysis prev |}.

(** The [forEach] of [setPhase3Data]: [analysesMap.set(analysis.segmentId, analysis)]. *)
Definition analysesMap (analyses : list SegmentAnalysis)
    : gmap jsstring SegmentAnalysis :=
  fold_left (fun acc analysis => <[sa_segmentId analysis := analysis]> acc)
    analyses ∅.

(** [setPhase3Data] *)
Definition setPhase3Data (analyses : list SegmentAnalysis) (prev : AnalysisState)
    : AnalysisState :=
  {| currentPhase := INSIGHT_EXTRACTION;
     transcript := transcript prev;
     plannerOutput := plannerOutput prev;
     framework := framework prev;
     segmentAnalyses := analysesMap analyses;
     criticEvaluations := criticEvaluations prev;
     gapAnalysis := gapAnalysis prev |}.

(** [setGapAnalysis]. An array is truthy, so [analysis.suggestions || []]
    is [analysis.suggestions]. *)
Definition setGapAnalysis (analysis : GapAnalysis) (prev : AnalysisState)
    : AnalysisState :=
  {| currentPhase := GAP_ANALYSIS;
     transcript := transcript prev;
     plannerOutput := plannerOutput prev;
     framework := framework prev;
     segmentAnalyses := segmentAnalyses prev;
     criticEvaluations := criticEvaluations prev;
     gapAnalysis :=
       Some {| uncoveredThemes := uncoveredThemes analysis;
               alternativePerspectives := alternativePerspectives analysis;
               recommendations := recommendations analysis;
               summary := summary analysis;
               gap_suggestions := gap_suggestions analysis;
               analyzedGaps := Some (default ∅ (analyzedGaps analysis));
               newSegments := newSegments analysis;
               gap_generatedAt := gap_generatedAt analysis |} |}.

(** [setCurrentPhase] *)
Definition setCurrentPhase (phase : Phase) (prev : AnalysisState) : AnalysisState :=
  {| currentPhase := phase;
     transcript := transcript prev;
     plannerOutput := plannerOutput prev;
     framework := framework prev;
     segmentAnalyses := segmentAnalyses prev;
     criticEvaluations := criticEvaluations prev;
     gapAnalysis := gapAnalysis prev |}.

(** [setPhase4Data] *)
Definition setPhase4Data (prev : AnalysisState) : AnalysisState :=
  setCurrentPhase CONSOLIDATION prev.

(** [resetAnalysis] *)
Definition resetAnalysis (prev : AnalysisState) : AnalysisState := initialState.

End ContextUpdates.

(* ===================================================================== *)
(** ** Phase navigation ([usePhaseNavigation]) *)
(* ===================================================================== *)

Module Navigation.

Import AnalysisContext.

(** [getNextPhase] *)
Definition getNextPhase (current : Phase) : option Phase :=
  match current with
  | UPLOAD_ALIGN => Some PROCESSING_VALIDATION
  | PROCESSING_VALIDATION => Some INSIGHT_EXTRACTION
  | INSIGHT_EXTRACTION => Some GAP_ANALYSIS
  | GAP_ANALYSIS => Some CONSOLIDATION
  | CONSOLIDATION => None
  end.

(** [getPreviousPhase] *)
Definition getPreviousPhase (current : Phase) : option Phase :=
  match current with
  | UPLOAD_ALIGN => None
  | PROCESSING_VALIDATION => Some UPLOAD_ALIGN
  | INSIGHT_EXTRACTION => Some PROCESSING_VALIDATION
  | GAP_ANALYSIS => Some INSIGHT_EXTRACTION
  | CONSOLIDATION => Some GAP_ANALYSIS
  end.

(** [PHASE_ROUTES] *)
Definition PHASE_ROUTES (phase : Phase) : jsstring :=
  match phase with
  | UPLOAD_ALIGN => u "/"
  | PROCESSING_VALIDATION => u "/framework"
  | INSIGHT_EXTRACTION => u "/extraction"
  | GAP_ANALYSIS => u "/gap-analysis"
  | CONSOLIDATION => u "/consolidation"
  end.

(** What a navigation call does: the state after it, the route it
    navigates to, the error it toasts. *)
Record Outcome := {
  after : AnalysisState;
  route : option jsstring;
  toast : option jsstring
}.

Definition refuse (state : AnalysisState) (message : string) : Outcome :=
  {| after := state; route := None; toast := Some (u message) |}.

Definition goTo (state : AnalysisState) (phase : Phase) : Outcome :=
  {| after := ContextUpdates.setCurrentPhase phase state;
     route := Some (PHASE_ROUTES phase);
     toast := None |}.

Section WithEnum.

(** The values of the enum [Phase] are declared in [types/phases.ts],
    whose source is missing: whether a value is truthy (a numeric enum
    starts at [0], which is not) is a parameter. *)
Variable truthyPhase : Phase -> bool.

(** [!phase] for a [Phase | null]. *)
Definition absent (phase : option Phase) : bool :=
  match phase with
  | None => true
  | Some p => negb (truthyPhase p)
  end.

(** [proceedToNextPhase] *)
Definition proceedToNextPhase (state : AnalysisState) : Outcome :=
  let nextPhase := getNextPhase (currentPhase state) in
  if absent nextPhase then refuse state "Already at the final phase"
  else match nextPhase with
       | Some next =>
           if negb (canProceedToPhase state next)
           then refuse state "Please complete the current phase before proceeding"
           else goTo state next
       | None => refuse state "Already at the final phase"
       end.

(** [goToPreviousPhase] *)
Definition goToPreviousPhase (state : AnalysisState) : Outcome :=
  let previousPhase := getPreviousPhase (currentPhase state) in
  if absent previousPhase then refuse state "Already at the first phase"
  else match previousPhase with
       | Some previous => goTo state previous
       | None => refuse state "Already at the first phase"
       end.

End WithEnum.

(** [navigateToPhase] *)
Definition navigateToPhase (state : AnalysisState) (phase : Phase) : Outcome :=
  if negb (canProceedToPhase state phase)
  then refuse state "Cannot navigate to this phase yet"
  else goTo state phase.

(** [skipToConsolidation] *)
Definition skipToConsolidation (state : AnalysisState) : Outcome :=
  goTo state CONSOLIDATION.

(** [canProceed] *)
Definition canProceed (state : AnalysisState) : bool :=
  match getNextPhase (currentPhase state) with
  | Some next => canProceedToPhase state next
  | None => false
  end.

(** [canGoBack] *)
Definition canGoBack (state : AnalysisState) : bool :=
  match getPreviousPhase (currentPhase state) with
  | Some _ => true
  | None => false
  end.

(** The position of a phase in the workflow. *)
Definition rank (phase : Phase) : nat :=
  match phase with
  | UPLOAD_ALIGN => 0
  | PROCESSING_VALIDATION => 1
  | INSIGHT_EXTRACTION => 2
  | GAP_ANALYSIS => 3
  | CONSOLIDATION => 4
  end.

End Navigation.

(* ===================================================================== *)
(** ** The segment editor of the Phase 2 page *)
(* ===================================================================== *)

Module Phase2Page.

Import AnalysisContext.

(** The component's [segments] state and the context it writes to. A
    handler runs in the render that shows this state. *)
Record PageState := {
  segmentList : list FrameworkSegment;
  context : AnalysisState
}.

(** [list.map((seg, i) => ({ ...seg, order: i }))], counting from [i]. *)
Fixpoint renumberFrom (i : nat) (l : list FrameworkSegment) : list FrameworkSegment :=
  match l with
  | [] => []
  | seg :: l' =>
      {| seg_id := seg_id seg;
         seg_title := seg_title seg;
         seg_objective := seg_objective seg;
         seg_guidance := seg_guidance seg;
         seg_order := i |} :: renumberFrom (S i) l'
  end.

(** [segments.filter((_, i) => i !== index)], counting from [i]. *)
Fixpoint withoutIndex (index i : nat) (l : list FrameworkSegment)
    : list FrameworkSegment :=
  match l with
  | [] => []
  | seg :: l' =>
      if Nat.eqb i index then withoutIndex index (S i) l'
      else seg :: withoutIndex index (S i) l'
  end.

(** [if (state.framework) setPhase2Data({ ...state.framework, segments })] *)
Definition publish (newSegments : list FrameworkSegment) (state : AnalysisState)
    : AnalysisState :=
  match framework state with
  | Some fw =>
      ContextUpdates.setPhase2Data
        {| metadata := metadata fw; segments := newSegments |} state
  | None => state
  end.

(** [deleteSegment] *)
Definition deleteSegment (index : nat) (st : PageState) : PageState :=
  let newSegments := withoutIndex index 0 (segmentList st) in
  let reordered := renumberFrom 0 newSegments in
  {| segmentList := reordered; context := publish reordered (context st) |}.

(** [handleReorder] *)
Definition handleReorder (newOrder : list FrameworkSegment) (st : PageState)
    : PageState :=
  let reordered := renumberFrom 0 newOrder in
  {| segmentList := reordered; context := publish reordered (context st) |}.

(** [addSegment], with [Date.now()] as [now]. *)
Definition addSegment (now : N) (st : PageState) : PageState :=
  let newSegment :=
    {| seg_id := u "segment-" ++ decimal now;
       seg_title := Some (JStr (u "New Segment"));
       seg_objective := Some (JStr (u "Define the objective for this segment"));
       seg_guidance :=
         Some (JStr (u "Provide guidance on how to analyze this aspect"));
       seg_order := length (segmentList st) |} in
  let newSegments := segmentList st ++ [newSegment] in
  {| segmentList := newSegments; context := publish newSegments (context st) |}.

(** The orders of the segments are [0 .. n-1], in list order. *)
Definition dense (l : list FrameworkSegment) : Prop :=
  List.map seg_order l = seq 0 (length l).

(** A segment but for its order. *)
Definition unordered (seg : FrameworkSegment) : jsstring * jsvalue * jsvalue * jsvalue :=
  (seg_id seg, seg_title seg, seg_objective seg, seg_guidance seg).

End Phase2Page.

(** The id the framework parsers give the segment at index [i]. *)
Definition segmentIdAt (now : nat -> N) (i : nat) : jsstring :=
  u "segment-" ++ decimal (now i) ++ u "-" ++ decimal (N.of_nat i).

(** Rounds of notification: in one round every listener is called, in
    the order of subscription, with one and the same snapshot. *)
Definition rounds (listeners : list nat) (snapshots : list (list Orchestrator.Agent))
    : list (nat * list Orchestrator.Agent) :=
  concat (List.map (fun snapshot => List.map (fun listener => (listener, snapshot))
                                      listeners) snapshots).

(** The updates a task makes when it is started, and when it settles. *)
Definition startRounds (t : Orchestrator.AgentTask) : nat :=
  match Orchestrator.task t with
  | Orchestrator.ThrowsAtCall _ => 2
  | _ => 1
  end.

Definition settleRounds (t : option Orchestrator.AgentTask) : nat :=
  match t with
  | Some t => match Orchestrator.task t with
              | Orchestrator.ThrowsAtCall _ => 0
              | _ => 1
              end
  | None => 0
  end.

(** [st'] comes from [st] by steps that have notified the listeners in
    the rounds [snapshots], the last of them with the agents as they are
    in [st']. *)
Definition notifiedIn (st st' : Orchestrator.State)
    (snapshots : list (list Orchestrator.Agent)) : Prop :=
  Orchestrator.listeners st' = Orchestrator.listeners st
  ∧ Orchestrator.notified st'
    = Orchestrator.notified st ++ rounds (Orchestrator.listeners st) snapshots
  ∧ match snapshots with
    | [] => Orchestrator.agents st' = Orchestrator.agents st
    | _ => last snapshots = Some (Orchestrator.getAgents st')
    end.

Definition registered (k : jsstring) (st : Orchestrator.State) : Prop :=
  Orchestrator.Map_get k (Orchestrator.agents st) <> None.

(* ===================================================================== *)
(** ** Optional chaining on parsed JSON *)
(* ===================================================================== *)

Module Optional.

(** [v?.key], for a key that is no property of a prototype: only an
    object parsed from JSON has one; [null] and [undefined] give
    [undefined] instead of throwing. *)
Definition optProp (v : jsvalue) (key : string) : jsvalue :=
  match v with
  | Some (JObj members) => member (u key) members
  | _ => None
  end.

(** [v?.[0]]: the first element of an array, the member ["0"] of an
    object, the first code unit of a string. *)
Definition optFirst (v : jsvalue) : jsvalue :=
  match v with
  | Some (JArr items) => head items
  | Some (JObj members) => member (u "0") members
  | Some (JStr (x :: _)) => Some (JStr [x])
  | _ => None
  end.

End Optional.

(* ===================================================================== *)
(** ** LiteLLM: the stream of server-sent events *)
(* ===================================================================== *)

Module LiteLLM.

Import Optional.

Section WithPlatform.

Variable JSON_parse : jsstring -> completion json.

(** The body of [for (const line of lines)]: what one line makes the
    generator yield. The [try] covers the parse and the reads; a value
    that is yielded is whatever [delta.content] holds. *)
Definition sseLine (line : jsstring) : list json :=
  let trimmed := trim line in
  if negb (truthy (Some (JStr trimmed))) || jsstring_eqb trimmed (u "data: [DONE]")
  then []
  else
    match stripPrefix (u "data: ") trimmed with
    | None => []
    | Some payload =>                          (* trimmed.slice(6) *)
        match
          catching
            (cbind (JSON_parse payload) (fun json =>
             cbind (getProp (Some json) "choices") (fun choices =>
             Returned (optProp (optProp (optFirst choices) "delta") "content"))))
            (fun _ => Returned None)
        with
        | Returned (Some content) => if truthy (Some content) then [content] else []
        | _ => []
        end
    end.

(** One turn of [while (true)] after a read that is not [done]:
    [buffer += piece; lines = buffer.split('\n'); buffer = lines.pop() || ''],
    where [piece] is what the decoder makes of the bytes read. *)
Definition takeLines (buffer piece : jsstring) : list jsstring * jsstring :=
  let lines := split 10%N (buffer ++ piece) in
  (removelast lines, List.last lines []).

(** [chatCompletionStream], from the first read on, for a body that is
    read to its end by a consumer that iterates to the end: the values
    yielded, in order. *)
Fixpoint readLoop (buffer : jsstring) (pieces : list jsstring) : list json :=
  match pieces with
  | [] => []                                   (* done: break *)
  | piece :: pieces' =>
      let (lines, buffer') := takeLines buffer piece in
      flat_map sseLine lines ++ readLoop buffer' pieces'
  end.

Definition chatCompletionStream (pieces : list jsstring) : list json :=
  readLoop [] pieces.

End WithPlatform.

End LiteLLM.

Module EventSamples.

(** A body of two events, each ended by a line feed. *)
Definition body : jsstring :=
  uq "data: {'choices':[{'delta':{'content':'Hi'}}]}" ++ [10%N]
  ++ u "data: [DONE]" ++ [10%N].

End EventSamples.

(* ===================================================================== *)
(** ** Settings: the model of each agent *)
(* ===================================================================== *)

Module Settings.

Import Optional.

(** [LLMProvider] and [LLM_PROVIDER_CONFIGS] of
    [constants/llm-providers.ts]: the ids of the models offered, and the
    default. *)
Inductive LLMProvider := litellm | google.

Definition models (provider : LLMProvider) : list jsstring :=
  match provider with
  | litellm => [u "google/gemini-2.0-flash-001"; u "google/gemini-2.5-flash";
                u "google/gemini-1.5-pro-002"; u "azure/gpt-4o-mini";
                u "azure/gpt-4o"; u "azure/o1-mini"]
  | google => [u "gemini-2.0-flash-001"; u "gemini-2.5-flash";
               u "gemini-2.5-flash-lite"]
  end.

Definition defaultModel (provider : LLMProvider) : jsstring :=
  match provider with
  | litellm => u "google/gemini-2.0-flash-001"
  | google => u "gemini-2.5-flash-lite"
  end.

Inductive AgentType := planner | writer | critic | gapAnalysis.

Definition agentKey (agent : AgentType) : string :=
  match agent with
  | planner => "planner"
  | writer => "writer"
  | critic => "critic"
  | gapAnalysis => "gapAnalysis"
  end.

(** [AgentSettings], as [mapAgent] fills it: the fields hold what was
    read from the stored settings, unchecked. *)
Record AgentSettings := {
  agent_model : jsvalue;
  agent_instructions : jsvalue
}.

(** [buildAgentDefaults(provider)[agent]] *)
Definition buildAgentDefaults (provider : LLMProvider) (agent : AgentType)
    : AgentSettings :=
  {| agent_model := Some (JStr (defaultModel provider));
     agent_instructions := Some (JObj []) |}.

(** [LEGACY_PROVIDER_MODELS[provider]], empty where there is none. *)
Definition LEGACY_PROVIDER_MODELS (provider : LLMProvider) : list jsstring :=
  match provider with
  | google => [u "gemini-2.0-flash-001"; u "google/gemini-2.0-flash-001"]
  | litellm => []
  end.

(** [set.has(v)] for a set of strings. *)
Definition Set_has (set : list jsstring) (v : jsvalue) : bool :=
  match v with
  | Some (JStr s) => existsb (jsstring_eqb s) set
  | _ => false
  end.

(** [mapAgent] of [normalizeAgentsForProvider]; [agents] is what the
    stored settings hold under [agents], if anything. *)
Definition mapAgent (agents : jsvalue) (provider : LLMProvider) (forceReset : bool)
    (agent : AgentType) : AgentSettings :=
  let existing := optProp agents (agentKey agent) in
  let modelFromExisting := optProp existing "model" in
  let isLegacyModel :=
    if truthy modelFromExisting
    then Set_has (LEGACY_PROVIDER_MODELS provider) modelFromExisting
    else false in
  let canReuseExisting :=
    negb forceReset && truthy modelFromExisting
    && Set_has (models provider) modelFromExisting && negb isLegacyModel in
  {| agent_model := if canReuseExisting then modelFromExisting
                    else agent_model (buildAgentDefaults provider agent);
     agent_instructions := or_else (optProp existing "instructions") (Some (JObj [])) |}.

(** [normalizeAgentsForProvider]: the settings of the four agents. *)
Definition normalizeAgentsForProvider (agents : jsvalue) (provider : LLMProvider)
    (forceReset : bool) : AgentType -> AgentSettings :=
  mapAgent agents provider forceReset.

(** The settings of one agent, and of the four, as the objects they
    are: what [setProvider] hands back to [normalizeAgentsForProvider]. *)
Definition fields (settings : AgentSettings) : list (jsstring * json) :=
  match agent_model settings with
  | Some v => [(u "model", v)]
  | None => []
  end
  ++ match agent_instructions settings with
     | Some v => [(u "instructions", v)]
     | None => []
     end.

Definition asObject (agents : AgentType -> AgentSettings) : jsvalue :=
  Some (JObj (List.map (fun agent => (u (agentKey agent), JObj (fields (agents agent))))
                [planner; writer; critic; gapAnalysis])).

End Settings.

(* ===================================================================== *)
(** ** Planner agent: the operations that are not streamed *)
(* ===================================================================== *)

Module PlannerCalls.

(** What an operation resolves before it logs its request: the
    instruction of the settings or the default one, the model of the
    agent, and the two readings of the clock it takes. *)
Record Resolved := {
  instruction : jsstring;
  agentModel : jsstring;
  started : Z;
  ended : Z
}.

Definition callWith (r : Resolved) (prompt : jsstring) : Call :=
  {| systemPrompt := instruction r;
     userPrompt := prompt;
     model := agentModel r;
     startTime := started r;
     endTime := ended r |}.

Definition lf : jsstring := [10%N].

(** [s.substring(0, n)] *)
Definition substring0 (n : nat) (s : jsstring) : jsstring := firstn n s.

(** The [try]/[catch] the three operations share: log the response and
    return what is made of it, or log the error and throw it again. *)
Definition completionOperation {A} (call : Call)
    (response : completion CompletionResult) (finish : CompletionResult -> A)
    : Eff A :=
  let! logId := logRequest (u "Planner Agent") (u "planner")
                  (systemPrompt call) (userPrompt call) (model call) in
  tryCatch
    (let! result := await response in
     do! logResponse logId (content result) (endTime call - startTime call)%Z
           (tokensOf result) in
     ret (finish result))
    (fun err =>
       do! logError (u "Planner Agent") (u "planner") (errorMessage err) in
       throw err).

Definition analyzeContext_prompt (firstChars : jsstring) : jsstring :=
  u "Here are the first characters of a transcript:" ++ lf ++ lf
  ++ firstChars ++ lf ++ lf
  ++ u "Write one sentence describing what this transcript is about.".

(** [PlannerAgent.analyzeContext] *)
Definition analyzeContext (firstChars : jsstring) (r : Resolved)
    (response : completion CompletionResult) : Eff jsstring :=
  completionOperation (callWith r (analyzeContext_prompt firstChars)) response
    (fun result => trim (content result)).

Definition generateMetadata_prompt (transcript : jsstring) : jsstring :=
  u "Generate metadata tags for this transcript:" ++ lf ++ lf
  ++ substring0 2000 transcript ++ lf ++ lf
  ++ u "Return only comma-separated tags.".

(** [content.split(',').map(tag => tag.trim()).filter(tag => tag.length > 0)] *)
Definition tagsOf (text : jsstring) : list jsstring :=
  List.filter (fun tag => Nat.ltb 0 (length tag)) (List.map trim (split 44%N text)).

(** [PlannerAgent.generateMetadata] *)
Definition generateMetadata (transcript : jsstring) (r : Resolved)
    (response : completion CompletionResult) : Eff (list jsstring) :=
  completionOperation (callWith r (generateMetadata_prompt transcript)) response
    (fun result => tagsOf (content result)).

Definition proposeObjective_prompt (context transcript : jsstring) : jsstring :=
  u "Context: " ++ context ++ lf ++ lf
  ++ u "Transcript preview:" ++ lf
  ++ substring0 1500 transcript ++ lf ++ lf
  ++ u "Propose an analysis objective for this transcript.".

(** [PlannerAgent.proposeObjective] *)
Definition proposeObjective (context transcript : jsstring) (r : Resolved)
    (response : completion CompletionResult) : Eff jsstring :=
  completionOperation (callWith r (proposeObjective_prompt context transcript))
    response (fun result => trim (content result)).

(** A call of one of the callbacks of [generatePlannerOutput]. *)
Inductive Update :=
| ContextUpdate (text : jsstring)
| TagsUpdate (tags : list jsstring)
| ObjectiveUpdate (text : jsstring).

(** [PlannerAgent.generatePlannerOutput], called with its three
    callbacks: beside the outcome and the log, the calls the callbacks
    have received, in order. A callback is taken to return. The three
    completions are what the network answers to the three requests. *)
Definition generatePlannerOutput (transcript : jsstring) (r1 r2 r3 : Resolved)
    (response1 response2 response3 : completion CompletionResult)
    : AgentLog -> completion PlannerOutput * AgentLog * list Update :=
  fun log =>
    let firstChars := substring0 1000 transcript in
    match analyzeContext firstChars r1 response1 log with
    | (Thrown e, log1) => (Thrown e, log1, [])
    | (Returned context, log1) =>
        match generateMetadata transcript r2 response2 log1 with
        | (Thrown e, log2) => (Thrown e, log2, [ContextUpdate context])
        | (Returned tags, log2) =>
            match proposeObjective context transcript r3 response3 log2 with
            | (Thrown e, log3) =>
                (Thrown e, log3, [ContextUpdate context; TagsUpdate tags])
            | (Returned objective, log3) =>
                (Returned {| contextUnderstanding := context;
                             metadataTags := tags;
                             analysisObjective := objective |},
                 log3,
                 [ContextUpdate context; TagsUpdate tags; ObjectiveUpdate objective])
            end
        end
    end.

(** [tags.join(', ')], as the framework prompts spell the tags. *)
Fixpoint join (sep : jsstring) (l : list jsstring) : jsstring :=
  match l with
  | [] => []
  | [x] => x
  | x :: l' => x ++ sep ++ join sep l'
  end.

End PlannerCalls.

(** The user prompts of the request entries of a log, oldest first. *)
Definition requests (log : AgentLog) : list jsstring :=
  omap (fun e => match e with
                 | RequestEntry _ _ _ _ userPrompt _ => Some userPrompt
                 | _ => None
                 end) log.

(** A tag as [generateMetadata] returns it: not empty, without comma,
    without white space around it. *)
Definition cleanTag (tag : jsstring) : Prop :=
  tag <> [] ∧ ¬ In 44%N tag ∧ trim tag = tag.

(* ===================================================================== *)
(** ** Writer agent: summary and keywords *)
(* ===================================================================== *)

Module WriterCalls.

(** [WriterAgent.generateSummary], from the request log entry on. *)
Definition generateSummary (call : Call) (response : completion CompletionResult)
    : Eff jsstring :=
  let! logId := logRequest (u "Writer Agent") (u "writer")
                  (systemPrompt call) (userPrompt call) (model call) in
  tryCatch
    (let! result := await response in
     do! logResponse logId (content result) (endTime call - startTime call)%Z
           (tokensOf result) in
     ret (trim (content result)))
    (fun err =>
       do! logError (u "Writer Agent") (u "writer") (errorMessage err) in
       ret (u "Summary generation failed.")).

Section WithPlatform.

Variable JSON_parse : jsstring -> completion json.

(** The inner [try] of [generateKeywords]:
    [Array.isArray(keywords) ? keywords : []], and [[]] when the parse
    throws. The elements are what the response holds. *)
Definition parseKeywords (text : jsstring) : completion (list json) :=
  catching
    (cbind (JSON_parse (trim text)) (fun keywords =>
     Returned match keywords with
              | JArr items => items
              | _ => []
              end))
    (fun _ => Returned []).

(** [WriterAgent.generateKeywords], from the request log entry on. *)
Definition generateKeywords (call : Call) (response : completion CompletionResult)
    : Eff (list json) :=
  let! logId := logRequest (u "Writer Agent") (u "writer")
                  (systemPrompt call) (userPrompt call) (model call) in
  tryCatch
    (let! result := await response in
     do! logResponse logId (content result) (endTime call - startTime call)%Z
           (tokensOf result) in
     Planner.pure (parseKeywords (content result)))
    (fun err =>
       do! logError (u "Writer Agent") (u "writer") (errorMessage err) in
       ret []).

End WithPlatform.

End WriterCalls.

(* ===================================================================== *)
(** ** Gap-analysis agent: the legacy parse *)
(* ===================================================================== *)

Module LegacyGapAnalysis.

(** [/```json\n([\s\S]*?)\n```/] *)
Definition re_legacyFence : regex :=
  Seq (Lit "```json")
    (Seq (Chr 10%N)
       (Seq (Group 1 (Star false (Cls [ClsSpace; ClsNonSpace])))
          (Seq (Chr 10%N) (Lit "```")))).

(** [text.replace(pattern, '')] for a pattern that is a string: the
    first occurrence is removed. *)
Fixpoint removeFirst (pattern text : jsstring) : jsstring :=
  match stripPrefix pattern text with
  | Some rest => rest
  | None => match text with
            | [] => []
            | x :: text' => x :: removeFirst pattern text'
            end
  end.

Section WithPlatform.

Variable JSON_parse : jsstring -> completion json.
Variable now : nat -> N.

(** The callback of [newSegments.map]. *)
Definition toSegment (s : json) (i : nat) : completion FrameworkSegment :=
  cbind (getProp (Some s) "title") (fun title =>
  cbind (getProp (Some s) "objective") (fun objective =>
  cbind (getProp (Some s) "guidance") (fun guidance =>
  Returned {| seg_id := u "gap-segment-" ++ decimal (now i) ++ u "-"
                        ++ decimal (N.of_nat i);
              seg_title := title;
              seg_objective := objective;
              seg_guidance := guidance;
              seg_order := 999 + i |}))).

(** What the [if (jsonMatch)] leaves in [newSegments] and [summary]. *)
Definition extract (text : jsstring) : json * jsstring :=
  match String_match text false re_legacyFence with
  | Some jsonMatch =>
      match JSON_parse (default (u "undefined") (group 1 jsonMatch)) with
      | Returned parsed => (parsed, trim (removeFirst (matched jsonMatch) text))
      | Thrown _ => (JArr [], text)
      end
  | None => (JArr [], text)
  end.

(** [GapAnalysisAgent.parseGapAnalysis]; [generatedAt] is [new Date()]. *)
Definition parseGapAnalysis (text : jsstring) (generatedAt : N)
    : completion GapAnalysis :=
  let (parsed, summaryText) := extract text in
  cbind (Array_map (Some parsed) "newSegments.map" toSegment) (fun segs =>
  Returned {| uncoveredThemes := [];
              alternativePerspectives := [];
              recommendations := [];
              summary := summaryText;
              gap_suggestions := [];
              analyzedGaps := Some ∅;
              newSegments := segs;
              gap_generatedAt := generatedAt |}).

End WithPlatform.

End LegacyGapAnalysis.

Definition gapSegmentIdAt (now : nat -> N) (i : nat) : jsstring :=
  u "gap-segment-" ++ decimal (now i) ++ u "-" ++ decimal (N.of_nat i).

Module LegacySamples.

(** A response whose fenced block holds an object, not an array. *)
Definition objectBlock : jsstring :=
  u "Summary." ++ [10%N] ++ u "```json" ++ [10%N] ++ uq "{'title':'Pricing'}"
  ++ [10%N] ++ u "```".

End LegacySamples.

(* ===================================================================== *)
(** ** The facade over the two providers *)
(* ===================================================================== *)

Module Facade.

(** [/^google\//] *)
Definition re_googlePrefix : regex := Seq Bol (Lit "google/").

Definition isGoogle (provider : Settings.LLMProvider) : bool :=
  match provider with
  | Settings.google => true
  | Settings.litellm => false
  end.

(** [LLMService.normalizeModel]; [None] is [undefined]. *)
Definition normalizeModel (provider : Settings.LLMProvider) (model : option jsstring)
    : option jsstring :=
  match model with
  | None => None
  | Some [] => None
  | Some model =>
      if isGoogle provider
         && match stripPrefix (u "google/") model with
            | Some _ => true
            | None => false
            end
      then Some (String_replace model false re_googlePrefix [])
      else Some model
  end.

End Facade.

(** What an evaluation of the critic always satisfies. *)
Definition tidy (text : jsstring) : Prop := text <> [] ∧ trim text = text.

(* ===================================================================== *)
(** ** Phase 3 page: the analysis team *)
(* ===================================================================== *)

Module Phase3Page.

Import AnalysisContext.

Inductive Toast :=
| ToastError (message : string)
| ToastSuccess (message : string).

(** The page: its map of analyses, in insertion order, and the context
    it shares with the other pages. *)
Record PageState := {
  analyses : list (jsstring * SegmentAnalysis);
  context : AnalysisState
}.

(** [await Promise.all(promises)]: the values in the order of the
    promises, or a rejection ([None]) when one of them is rejected; the
    [catch] of the page does not look at the reason. *)
Definition Promise_all {A} (promises : list (completion A)) : option (list A) :=
  fold_right (fun promise rest =>
                match promise, rest with
                | Returned v, Some vs => Some (v :: vs)
                | _, _ => None
                end) (Some []) promises.

(** One promise of [segments.map(async (segment) => ...)]: the stream
    of the writer is read to its end. The log, which the concurrent
    streams fill in the order the network interleaves them, is left
    out. *)
Definition analyzed (call : Call) (up : Upstream) (completedAt : N)
    (segment : FrameworkSegment) : completion SegmentAnalysis :=
  let run := fst (Writer.analyzeSegmentStream call up None []) in
  match outcome run with
  | Returned _ =>
      Returned {| sa_segmentId := seg_id segment;
                  sa_content := trim (concat (delivered run));
                  sa_status := complete;
                  sa_generatedAt := Some completedAt |}
  | Thrown e => Thrown e
  end.

(** [initialAnalyses]: a placeholder for every segment that has no
    analysis yet. *)
Definition withPlaceholders (pendingAt : nat -> N) (segs : list FrameworkSegment)
    (known : list (jsstring * SegmentAnalysis)) : list (jsstring * SegmentAnalysis) :=
  fold_left (fun acc entry =>
               match Orchestrator.Map_get (seg_id (snd entry)) acc with
               | Some _ => acc
               | None =>
                   Orchestrator.Map_set (seg_id (snd entry))
                     {| sa_segmentId := seg_id (snd entry);
                        sa_content := [];
                        sa_status := pending;
                        sa_generatedAt := Some (pendingAt (fst entry)) |} acc
               end)
    (imap (fun i segment => (i, segment)) segs) known.

(** The [forEach] that fills [newAnalyses]. *)
Definition collected (results : list SegmentAnalysis)
    : list (jsstring * SegmentAnalysis) :=
  fold_left (fun acc result => Orchestrator.Map_set (sa_segmentId result) result acc)
    results [].

(** [launchAnalysisTeam]. [calls i] and [ups i] are the request and the
    upstream of the stream of segment [i]; no other update of the
    context is taken to happen while the streams run. *)
Definition launchAnalysisTeam (calls : nat -> Call) (ups : nat -> Upstream)
    (pendingAt completedAt : nat -> N) (st : PageState) : PageState * Toast :=
  match framework (context st), transcript (context st) with
  | Some fw, _ :: _ =>
      let segs := segments fw in
      let promises :=
        imap (fun i segment => analyzed (calls i) (ups i) (completedAt i) segment)
          segs in
      match Promise_all promises with
      | Some results =>
          let newAnalyses := collected results in
          ({| analyses := newAnalyses;
              context := ContextUpdates.setPhase3Data (List.map snd newAnalyses)
                           (context st) |},
           ToastSuccess "All segments analyzed!")
      | None =>
          ({| analyses := withPlaceholders pendingAt segs (analyses st);
              context := context st |},
           ToastError "Some analyses failed. Check the log panel.")
      end
  | _, _ => (st, ToastError "Missing framework or transcript")
  end.

(** The analysis of segment [i] when its stream completes. *)
Definition completedAnalysis (ups : nat -> Upstream) (completedAt : nat -> N)
    (i : nat) (segment : FrameworkSegment) : SegmentAnalysis :=
  {| sa_segmentId := seg_id segment;
     sa_content := trim (concat (chunks (ups i)));
     sa_status := complete;
     sa_generatedAt := Some (completedAt i) |}.

End Phase3Page.

(* ===================================================================== *)
(** ** Phase 3.5 page: the gaps *)
(* ===================================================================== *)

Module Phase35Page.

Import AnalysisContext.

(** The page: the suggestions, the selected ids, the analyses and the
    evaluations of the gaps, and the context. *)
Record PageState := {
  suggestions : list GapSuggestion;
  selectedGaps : gset jsstring;
  gapAnalyses : gmap jsstring SegmentAnalysis;
  evaluations : gmap jsstring Critic.CriticEvaluation;
  context : AnalysisState
}.

(** [addToMain] *)
Definition addToMain (gapId : jsstring) (st : PageState) : PageState :=
  match gapAnalyses st !! gapId with
  | None => st
  | Some analysis =>
      let suggestion :=
        List.find (fun s => jsstring_eqb (gap_id s) gapId) (suggestions st) in
      {| suggestions := suggestions st;
         selectedGaps := selectedGaps st ∖ {[gapId]};
         gapAnalyses := delete gapId (gapAnalyses st);
         evaluations := delete gapId (evaluations st);
         context := addGapToMainAnalysis gapId analysis suggestion (context st) |}
  end.

(** The form of a custom gap: four strings. *)
Record CustomGap := {
  custom_title : jsstring;
  custom_objective : jsstring;
  custom_guidance : jsstring;
  custom_rationale : jsstring
}.

Definition orText (text : jsstring) (fallback : string) : jsstring :=
  match text with
  | [] => u fallback
  | _ => text
  end.

(** [handleAddCustomGap]; [None] when the form is refused. *)
Definition handleAddCustomGap (now : N) (customGap : CustomGap) (st : PageState)
    : option PageState :=
  match custom_title customGap, custom_objective customGap with
  | _ :: _, _ :: _ =>
      let newGap :=
        {| gap_id := u "custom-gap-" ++ decimal now;
           gap_title := Some (JStr (custom_title customGap));
           gap_objective := Some (JStr (custom_objective customGap));
           gap_guidance :=
             Some (JStr (orText (custom_guidance customGap)
                           "Analyze this specific gap."));
           gap_rationale :=
             Some (JStr (orText (custom_rationale customGap)
                           "User identified gap.")) |} in
      Some {| suggestions := suggestions st ++ [newGap];
              selectedGaps := selectedGaps st ∪ {[gap_id newGap]};
              gapAnalyses := gapAnalyses st;
              evaluations := evaluations st;
              context := context st |}
  | _, _ => None
  end.

End Phase35Page.

Module PageSamples.

(** The Phase 3 page over a framework of one segment, before any
    analysis. *)
Definition beforeAnalysis : Phase3Page.PageState :=
  {| Phase3Page.analyses := [];
     Phase3Page.context :=
       {| AnalysisContext.currentPhase := INSIGHT_EXTRACTION;
          AnalysisContext.transcript := u "hello";
          AnalysisContext.plannerOutput := None;
          AnalysisContext.framework :=
            Some {| metadata := {| meta_title := u "Analysis: a call";
                                   meta_created := 3%N;
                                   meta_objective := u "Summarise";
                                   meta_tags := [u "sales"] |};
                    segments := [ {| seg_id := u "segment-3-0";
                                     seg_title := Some (JStr (u "Overview"));
                                     seg_objective := Some (JStr (u "Summarise the call"));
                                     seg_guidance := Some (JStr (u "Be brief"));
                                     seg_order := 0 |} ] |};
          AnalysisContext.segmentAnalyses := ∅;
          AnalysisContext.criticEvaluations := ∅;
          AnalysisContext.gapAnalysis := None |} |}.

Definition steady : Upstream :=
  {| chunks := [u "A sales"; u " call. "]; failure := None |}.

Definition plainCall : Call :=
  {| systemPrompt := u "You are a writer.";
     userPrompt := u "Analyze the segment";
     model := u "gemini-2.5-flash";
     startTime := 1000%Z;
     endTime := 1850%Z |}.

End PageSamples.

(* ===================================================================== *)
(** ** Gemini: the stream the agents read under provider [google] *)
(* ===================================================================== *)

Module Gemini.

(** What [getModelInstance] throws when no API key was given. *)
Definition notInitialized : jsthrown :=
  ErrorObj (u "Gemini API not initialized. Please provide an API key.").

(** [GeminiService.generateCompletionStream], which the facade re-yields
    chunk by chunk under provider [google]. [sdk] is the stream of the
    SDK: the texts of its chunks, and whether it, or the call that opens
    it, then fails. *)
Definition generateCompletionStream (initialized : bool) (sdk : Upstream) : Upstream :=
  if initialized
  then {| chunks := List.filter (fun chunkText => match chunkText with
                                                  | [] => false
                                                  | _ :: _ => true
                                                  end) (chunks sdk);
          failure := failure sdk |}
  else {| chunks := []; failure := Some notInitialized |}.

End Gemini.

(* ===================================================================== *)
(** ** Vocabulary of the properties, and the inputs of the examples *)
(* ===================================================================== *)

(** The segment built from a suggestion when the framework has [n]
    segments. *)
Definition promoted (target : GapSuggestion) (n : nat) : FrameworkSegment :=
  {| seg_id := gap_id target;
     seg_title := gap_title target;
     seg_objective := gap_objective target;
     seg_guidance := gap_guidance target;
     seg_order := n + 1 |}.

(** The suggestion being promoted is known to the call: it is passed, or
    it is the one the state holds under the id. *)
Definition promotes (gapId : jsstring) (suggestion : option GapSuggestion)
    (prev : AnalysisContext.AnalysisState) (target : GapSuggestion) : Prop :=
  gap_id target = gapId
  ∧ (suggestion = Some target
     ∨ (suggestion = None
        ∧ ∃ ga, AnalysisContext.gapAnalysis prev = Some ga
                ∧ List.find (fun s => jsstring_eqb (gap_id s) gapId)
                    (gap_suggestions ga) = Some target)).

Module Examples.

Import AnalysisContext.

(** A state whose only segment analysis is still [pending]. *)
Definition pendingOnly : AnalysisState :=
  {| currentPhase := INSIGHT_EXTRACTION;
     transcript := u "hello";
     plannerOutput := None;
     framework := None;
     segmentAnalyses :=
       {[ u "segment-1-0" := {| sa_segmentId := u "segment-1-0";
                                 sa_content := [];
                                 sa_status := pending;
                                 sa_generatedAt := None |} ]};
     criticEvaluations := ∅;
     gapAnalysis := None |}.

Definition pricing : GapSuggestion :=
  {| gap_id := u "gap-17-0";
     gap_title := Some (JStr (u "Pricing"));
     gap_objective := Some (JStr (u "What was said about pricing"));
     gap_guidance := Some (JStr (u "Quote the speakers"));
     gap_rationale := Some (JStr (u "No segment covers pricing")) |}.

Definition pricingAnalysis : SegmentAnalysis :=
  {| sa_segmentId := u "gap-17-0";
     sa_content := u "Pricing came up twice.";
     sa_status := complete;
     sa_generatedAt := Some 18%N |}.

Definition oneSegment : AnalysisFramework :=
  {| metadata := {| meta_title := u "Analysis: a call";
                    meta_created := 3%N;
                    meta_objective := u "Summarise";
                    meta_tags := [u "sales"] |};
     segments := [ {| seg_id := u "segment-3-0";
                      seg_title := Some (JStr (u "Overview"));
                      seg_objective := Some (JStr (u "Summarise the call"));
                      seg_guidance := Some (JStr (u "Be brief"));
                      seg_order := 0 |} ] |}.

(** A state in Phase 3.5 that holds the suggestion [pricing] and its
    analysis in progress. *)
Definition inGapAnalysis : AnalysisState :=
  {| currentPhase := GAP_ANALYSIS;
     transcript := u "hello";
     plannerOutput := None;
     framework := Some oneSegment;
     segmentAnalyses := ∅;
     criticEvaluations := ∅;
     gapAnalysis :=
       Some {| uncoveredThemes := [];
               alternativePerspectives := [];
               recommendations := [];
               summary := [];
               gap_suggestions := [pricing];
               analyzedGaps := Some {[ u "gap-17-0" := pricingAnalysis ]};
               newSegments := [];
               gap_generatedAt := 17%N |} |}.

End Examples.

(** A streaming operation logs [logged] of what it delivered: whenever a
    run completes, the log has grown by one terminal response entry whose
    text is [logged] applied to the concatenation of the chunks yielded. *)
Definition logsOnCompletion
    (op : Call -> Upstream -> option nat -> AgentLog -> StreamRun * AgentLog)
    (logged : jsstring -> jsstring) : Prop :=
  ∀ call up calls log run log',
    op call up calls log = (run, log') ->
    outcome run = Returned Done ->
    responses log' = responses log ++ [logged (concat (delivered run))].

(** What the log holds after a failed call: the request entry and an
    error entry with the message of what was thrown. *)
Definition failureLog (agentName roleId : string) (call : Call) (e : jsthrown)
    (log : AgentLog) : AgentLog :=
  log ++ [RequestEntry (length log) (u agentName) (u roleId)
            (systemPrompt call) (userPrompt call) (model call);
          ErrorEntry (u agentName) (u roleId) (errorMessage e)].

Module Samples.

Definition aCall : Call :=
  {| systemPrompt := u "You are a planner.";
     userPrompt := u "Here are the first characters of a transcript";
     model := u "gemini-2.0-flash-001";
     startTime := 1000%Z;
     endTime := 1850%Z |}.

(** Two chunks, the second ending in a space, then the end of the
    stream. *)
Definition twoChunks : Upstream :=
  {| chunks := [u "A sales"; u " call. "]; failure := None |}.

Definition networkDown : jsthrown := ErrorObj (u "Failed to fetch").

Definition lf : string := String (ascii_of_nat 10) EmptyString.

(** The well-formed critic response of the specification. *)
Definition criticResponse : jsstring :=
  u "## Source Alignment" ++ u lf
  ++ u "FAIL" ++ u lf
  ++ u "- unsupported claim A" ++ u lf
  ++ u "## Objective Fulfillment" ++ u lf
  ++ u "Score: 62%" ++ u lf
  ++ u "## Improvement Guidance" ++ u lf
  ++ u "Add citations.".

(** A framework response whose keys are capitalized. *)
Definition capitalized : jsstring :=
  uq "{'Segments':[{'Title':'A','Objective':'B','Guidance':'C'}]}".

(** A framework response whose only segment has no field. *)
Definition bareSegment : jsstring := uq "{'segments':[{}]}".

Definition clock (index : nat) : N := 1700000000000%N.

(** Gap-identification responses: prose only; a fenced block whose
    body has a trailing comma; a fenced block with one suggestion that
    brings an [id] of its own. *)
Definition noFence : jsstring := u "I found no gaps in the analysis.".

Definition malformedFence : jsstring :=
  u "```json" ++ u lf ++ uq "[{'title':'Pricing',}]" ++ u lf ++ u "```".

Definition oneSuggestion : jsstring :=
  u "Gaps:" ++ u lf ++ u "```json" ++ u lf
  ++ uq "[{'id':'mine','title':'Pricing','objective':'O','guidance':'G'}]"
  ++ u lf ++ u "```".

End Samples.

(** The id [parseGapSuggestions] gives the suggestion at index [i]. *)
Definition gapIdAt (now : nat -> N) (i : nat) : jsstring :=
  u "gap-" ++ decimal (now i) ++ u "-" ++ decimal (N.of_nat i).

(** What a successful match tells: the continuation succeeded on a
    suffix of the input. *)
Definition reaches (R : Type) (s : jsstring) (k : Cont R) (res : R) : Prop :=
  ∃ c pos' s' caps', s = c ++ s' ∧ k pos' s' caps' = Some res.

(** Two continuations agree on every input of at most [n] units. *)
Definition agreeUpTo (R : Type) (n : nat) (k1 k2 : Cont R) : Prop :=
  ∀ pos s caps, length s <= n -> k1 pos s caps = k2 pos s caps.

(** The entry of the result map a task accounts for. *)
Definition resolved (t : Orchestrator.AgentTask) : option (jsstring * jsstring) :=
  match Orchestrator.task t with
  | Orchestrator.Resolves result => Some (Orchestrator.task_id t, result)
  | _ => None
  end.

Module Batches.

Import Orchestrator.

Definition fresh : State := {| agents := []; listeners := [0]; notified := [] |}.

(** Two segments analysed in parallel; the second one fails. *)
Definition twoSegments : list AgentTask :=
  [ {| task_id := u "segment-3-0"; task_name := u "Overview";
       task := Resolves (u "The call opened with introductions.") |};
    {| task_id := u "segment-3-1"; task_name := u "Pricing";
       task := Rejects (ErrorObj (u "Failed to fetch")) |} ].

(** Two tasks registered under one id, and a task rejected with
    [new Error()], whose message is empty. *)
Definition clashing : list AgentTask :=
  [ {| task_id := u "segment-3"; task_name := u "Overview";
       task := Resolves (u "first") |};
    {| task_id := u "segment-3"; task_name := u "Pricing";
       task := Resolves (u "second") |};
    {| task_id := u "segment-4"; task_name := u "Risks";
       task := Rejects (ErrorObj []) |} ].

End Batches.

(* ===================================================================== *)
(** * Properties *)
(* ===================================================================== *)

(** ** Strings *)

Lemma jsstring_eqb_eq (a b : jsstring) : jsstring_eqb a b = true <-> a = b.
Proof.
  revert b. induction a as [|x a IH]; intros [|y b]; simpl.
  - tauto.
  - split; discriminate.
  - split; discriminate.
  - rewrite andb_true_iff, N.eqb_eq, IH. split.
    + intros [-> ->]. reflexivity.
    + intros H. injection H as -> ->. tauto.
Qed.

Lemma jsstring_eqb_refl (a : jsstring) : jsstring_eqb a a = true.
Proof. now apply jsstring_eqb_eq. Qed.

Lemma jsstring_eqb_neq (a b : jsstring) : jsstring_eqb a b = false <-> a <> b.
Proof.
  split.
  - intros H Heq. apply jsstring_eqb_eq in Heq. congruence.
  - intros H. destruct (jsstring_eqb a b) eqn:E; [|reflexivity].
    apply jsstring_eqb_eq in E. contradiction.
Qed.

(* ===================================================================== *)
(** ** Phase state machine *)
(* ===================================================================== *)

Section PhaseGate.

Import AnalysisContext.

Variable state : AnalysisState.

Lemma gate_nonempty :
  Nat.ltb 0 (size (segmentAnalyses state)) = true
  <-> ∃ key a, segmentAnalyses state !! key = Some a.
Proof.
  rewrite Nat.ltb_lt. split.
  - intros Hsize.
    destruct (map_choose (segmentAnalyses state)) as (key & a & Hka).
    + intros Hempty. rewrite Hempty, map_size_empty in Hsize. lia.
    + eauto.
  - intros (key & a & Hka).
    destruct (decide (size (segmentAnalyses state) = 0)) as [Hz|Hnz]; [|lia].
    apply map_size_empty_inv in Hz. rewrite Hz, lookup_empty in Hka.
    discriminate.
Qed.

(** C5, as the code has it: the gates of GAP_ANALYSIS and CONSOLIDATION
    ask for a non-empty segment-analysis map, whatever the status of
    the analyses in it; the other three gates are as stated. *)
Theorem canProceedToPhase_gates :
  canProceedToPhase state UPLOAD_ALIGN = true
  ∧ (canProceedToPhase state PROCESSING_VALIDATION = true
     <-> transcript state <> [] ∧ is_Some (plannerOutput state))
  ∧ (canProceedToPhase state INSIGHT_EXTRACTION = true
     <-> is_Some (framework state))
  ∧ (canProceedToPhase state GAP_ANALYSIS = true
     <-> ∃ key a, segmentAnalyses state !! key = Some a)
  ∧ (canProceedToPhase state CONSOLIDATION = true
     <-> ∃ key a, segmentAnalyses state !! key = Some a).
Proof.
  split; [reflexivity|]. split; [|split; [|split]].
  - simpl. destruct (plannerOutput state) as [p|].
    + rewrite negb_true_iff, jsstring_eqb_neq. split.
      * intros Ht. split; [exact Ht | eauto].
      * intros [Ht _]. exact Ht.
    + split; [discriminate|]. intros [_ [p Hp]]. discriminate.
  - simpl. destruct (framework state) as [fw|].
    + split; eauto.
    + split; [discriminate|]. intros [fw Hfw]. discriminate.
  - apply gate_nonempty.
  - apply gate_nonempty.
Qed.

End PhaseGate.

(** C5, counterexample to the claim as stated: with one analysis that is
    [pending] and none that is [complete], both gates are open. *)
Lemma canProceedToPhase_ignores_status :
  AnalysisContext.canProceedToPhase Examples.pendingOnly GAP_ANALYSIS = true
  ∧ AnalysisContext.canProceedToPhase Examples.pendingOnly CONSOLIDATION = true
  ∧ ¬ AnalysisContext.hasCompletedAnalysis Examples.pendingOnly.
Proof.
  split; [reflexivity|]. split; [reflexivity|].
  intros (key & a & Hka & Hst). simpl in Hka.
  apply lookup_singleton_Some in Hka as [_ <-]. discriminate.
Qed.

Section GapPromotion.

Import AnalysisContext.

Variables (gapId : jsstring) (analysis : SegmentAnalysis).
Variable suggestion : option GapSuggestion.
Variable prev : AnalysisState.

Let next := addGapToMainAnalysis gapId analysis suggestion prev.

Lemma addGap_framework (target : GapSuggestion) (fw : AnalysisFramework) :
  targetSuggestion gapId suggestion prev = Some target ->
  framework prev = Some fw ->
  framework next
  = Some {| metadata := metadata fw;
            segments := segments fw ++ [promoted target (length (segments fw))] |}.
Proof.
  intros Ht Hfw. unfold next, addGapToMainAnalysis. simpl.
  now rewrite Ht, Hfw.
Qed.

Lemma addGap_analyses :
  segmentAnalyses next = <[gapId := analysis]> (segmentAnalyses prev).
Proof. reflexivity. Qed.

Lemma addGap_gapMap (ga : GapAnalysis) :
  gapAnalysis prev = Some ga ->
  ∃ ga', gapAnalysis next = Some ga'
         ∧ analyzedGaps ga' = Some (delete gapId (default ∅ (analyzedGaps ga)))
         ∧ gap_suggestions ga' = gap_suggestions ga
         ∧ uncoveredThemes ga' = uncoveredThemes ga
         ∧ alternativePerspectives ga' = alternativePerspectives ga
         ∧ recommendations ga' = recommendations ga
         ∧ summary ga' = summary ga
         ∧ newSegments ga' = newSegments ga
         ∧ gap_generatedAt ga' = gap_generatedAt ga.
Proof.
  intros Hga. unfold next, addGapToMainAnalysis. simpl. rewrite Hga.
  eexists. split; [reflexivity|]. simpl. repeat split.
Qed.

Lemma addGap_noGapAnalysis :
  gapAnalysis prev = None -> gapAnalysis next = None.
Proof. intros Hga. unfold next, addGapToMainAnalysis. simpl. now rewrite Hga. Qed.

End GapPromotion.

Lemma promotes_target gapId suggestion prev target :
  promotes gapId suggestion prev target ->
  AnalysisContext.targetSuggestion gapId suggestion prev = Some target.
Proof.
  intros [_ [-> | (-> & ga & Hga & Hfind)]]; unfold AnalysisContext.targetSuggestion.
  - reflexivity.
  - now rewrite Hga.
Qed.

(** C6: promoting the suggestion with id [gapId] in a state that has a
    framework appends exactly one segment carrying the suggestion's title,
    objective and guidance, puts [analysis] under [gapId] in the
    segment-analysis map and changes no other key of it, and leaves no
    entry for [gapId] in the in-progress gap map. *)
Theorem addGapToMainAnalysis_promotes
    (gapId : jsstring) (analysis : SegmentAnalysis)
    (suggestion : option GapSuggestion) (prev : AnalysisContext.AnalysisState)
    (fw : AnalysisFramework) (target : GapSuggestion) :
  AnalysisContext.framework prev = Some fw ->
  promotes gapId suggestion prev target ->
  let next := AnalysisContext.addGapToMainAnalysis gapId analysis suggestion prev in
  (∃ newSegment fw',
      AnalysisContext.framework next = Some fw'
      ∧ segments fw' = segments fw ++ [newSegment]
      ∧ seg_id newSegment = gapId
      ∧ seg_title newSegment = gap_title target
      ∧ seg_objective newSegment = gap_objective target
      ∧ seg_guidance newSegment = gap_guidance target)
  ∧ AnalysisContext.segmentAnalyses next !! gapId = Some analysis
  ∧ (∀ key, key <> gapId ->
       AnalysisContext.segmentAnalyses next !! key
       = AnalysisContext.segmentAnalyses prev !! key)
  ∧ (∀ ga', AnalysisContext.gapAnalysis next = Some ga' ->
       ∃ inProgress, analyzedGaps ga' = Some inProgress
                     ∧ inProgress !! gapId = None).
Proof.
  intros Hfw Hp next. pose proof (promotes_target _ _ _ _ Hp) as Ht.
  destruct Hp as [Hid _].
  split; [|split; [|split]].
  - exists (promoted target (length (segments fw))). eexists.
    split; [exact (addGap_framework gapId analysis suggestion prev target fw Ht Hfw)|].
    simpl. repeat split. exact Hid.
  - unfold next. rewrite addGap_analyses. apply lookup_insert_eq.
  - intros key Hne. unfold next. rewrite addGap_analyses.
    now apply lookup_insert_ne.
  - intros ga' Hga'.
    destruct (AnalysisContext.gapAnalysis prev) as [ga|] eqn:Hga.
    + destruct (addGap_gapMap gapId analysis suggestion prev ga Hga)
        as (ga'' & Hnext & Hmap & _).
      unfold next in Hga'. rewrite Hnext in Hga'. injection Hga' as <-.
      eexists. split; [exact Hmap|]. apply lookup_delete_eq.
    + unfold next in Hga'.
      rewrite (addGap_noGapAnalysis gapId analysis suggestion prev Hga) in Hga'.
      discriminate.
Qed.

Lemma addGapToMainAnalysis_promotes_witness :
  let next := AnalysisContext.addGapToMainAnalysis (u "gap-17-0")
                Examples.pricingAnalysis None Examples.inGapAnalysis in
  (∃ newSegment fw',
      AnalysisContext.framework next = Some fw'
      ∧ segments fw' = segments Examples.oneSegment ++ [newSegment]
      ∧ seg_id newSegment = u "gap-17-0"
      ∧ seg_title newSegment = gap_title Examples.pricing
      ∧ seg_objective newSegment = gap_objective Examples.pricing
      ∧ seg_guidance newSegment = gap_guidance Examples.pricing)
  ∧ AnalysisContext.segmentAnalyses next !! u "gap-17-0"
    = Some Examples.pricingAnalysis
  ∧ (∀ key, key <> u "gap-17-0" ->
       AnalysisContext.segmentAnalyses next !! key
       = AnalysisContext.segmentAnalyses Examples.inGapAnalysis !! key)
  ∧ (∀ ga', AnalysisContext.gapAnalysis next = Some ga' ->
       ∃ inProgress, analyzedGaps ga' = Some inProgress
                     ∧ inProgress !! u "gap-17-0" = None).
Proof.
  apply (addGapToMainAnalysis_promotes (u "gap-17-0") Examples.pricingAnalysis
           None Examples.inGapAnalysis Examples.oneSegment Examples.pricing).
  - reflexivity.
  - split; [reflexivity|]. right. split; [reflexivity|].
    eexists. split; reflexivity.
Defined.

(** C7: the segment [addGapToMainAnalysis] appends has order
    [prior segment count + 1]; every call leaves [criticEvaluations],
    [transcript], [plannerOutput] and [currentPhase] as they were, keeps
    the framework's metadata and its earlier segments, and changes
    nothing of the gap analysis but its in-progress map. *)
Theorem addGapToMainAnalysis_frame
    (gapId : jsstring) (analysis : SegmentAnalysis)
    (suggestion : option GapSuggestion) (prev : AnalysisContext.AnalysisState) :
  let next := AnalysisContext.addGapToMainAnalysis gapId analysis suggestion prev in
  AnalysisContext.criticEvaluations next = AnalysisContext.criticEvaluations prev
  ∧ AnalysisContext.transcript next = AnalysisContext.transcript prev
  ∧ AnalysisContext.plannerOutput next = AnalysisContext.plannerOutput prev
  ∧ AnalysisContext.currentPhase next = AnalysisContext.currentPhase prev
  ∧ match AnalysisContext.framework prev,
          AnalysisContext.targetSuggestion gapId suggestion prev with
    | Some fw, Some target =>
        ∃ newSegment,
          AnalysisContext.framework next
          = Some {| metadata := metadata fw;
                    segments := segments fw ++ [newSegment] |}
          ∧ seg_order newSegment = length (segments fw) + 1
    | _, _ => AnalysisContext.framework next = AnalysisContext.framework prev
    end
  ∧ match AnalysisContext.gapAnalysis prev with
    | Some ga =>
        ∃ ga', AnalysisContext.gapAnalysis next = Some ga'
               ∧ gap_suggestions ga' = gap_suggestions ga
               ∧ uncoveredThemes ga' = uncoveredThemes ga
               ∧ alternativePerspectives ga' = alternativePerspectives ga
               ∧ recommendations ga' = recommendations ga
               ∧ summary ga' = summary ga
               ∧ newSegments ga' = newSegments ga
               ∧ gap_generatedAt ga' = gap_generatedAt ga
    | None => AnalysisContext.gapAnalysis next = None
    end.
Proof.
  intros next. repeat (split; [reflexivity|]). split.
  - destruct (AnalysisContext.framework prev) as [fw|] eqn:Hfw.
    + destruct (AnalysisContext.targetSuggestion gapId suggestion prev)
        as [target|] eqn:Ht.
      * exists (promoted target (length (segments fw))). split; [|reflexivity].
        exact (addGap_framework gapId analysis suggestion prev target fw Ht Hfw).
      * unfold next, AnalysisContext.addGapToMainAnalysis. simpl.
        now rewrite Ht, Hfw.
    + unfold next, AnalysisContext.addGapToMainAnalysis. simpl. rewrite Hfw.
      now destruct (AnalysisContext.targetSuggestion gapId suggestion prev).
  - destruct (AnalysisContext.gapAnalysis prev) as [ga|] eqn:Hga.
    + destruct (addGap_gapMap gapId analysis suggestion prev ga Hga)
        as (ga' & Hnext & _ & H1 & H2 & H3 & H4 & H5 & H6 & H7).
      exists ga'. repeat split; assumption.
    + exact (addGap_noGapAnalysis gapId analysis suggestion prev Hga).
Qed.

(* ===================================================================== *)
(** ** Orchestrator: updates *)
(* ===================================================================== *)

(** C10: [updateAgent] with an id that is not registered changes nothing:
    the agent map is as it was and no listener is called. *)
Theorem updateAgent_unregistered
    (key : jsstring) (updates : Orchestrator.AgentUpdates) (st : Orchestrator.State) :
  Orchestrator.Map_get key (Orchestrator.agents st) = None ->
  Orchestrator.updateAgent key updates st = st.
Proof.
  intros Hnone. unfold Orchestrator.updateAgent. now rewrite Hnone.
Qed.

Lemma updateAgent_unregistered_witness :
  Orchestrator.updateAgent (u "ghost") (Orchestrator.completed (u "text"))
    {| Orchestrator.agents :=
         [(u "segment-3-0",
           {| Orchestrator.id := u "segment-3-0";
              Orchestrator.name := u "Overview";
              Orchestrator.status := Orchestrator.RUNNING;
              Orchestrator.progress := 0%N;
              Orchestrator.output := None;
              Orchestrator.error_ := None |})];
       Orchestrator.listeners := [0; 1];
       Orchestrator.notified := [] |}
  = {| Orchestrator.agents :=
         [(u "segment-3-0",
           {| Orchestrator.id := u "segment-3-0";
              Orchestrator.name := u "Overview";
              Orchestrator.status := Orchestrator.RUNNING;
              Orchestrator.progress := 0%N;
              Orchestrator.output := None;
              Orchestrator.error_ := None |})];
       Orchestrator.listeners := [0; 1];
       Orchestrator.notified := [] |}.
Proof.
  apply (updateAgent_unregistered (u "ghost")). reflexivity.
Defined.

(* ===================================================================== *)
(** ** Streamed generations *)
(* ===================================================================== *)

Lemma forAwait_exhausted (upstream : list jsstring) :
  ∀ calls fullResponse ds fullResponse' ds',
    forAwait upstream calls fullResponse ds = Exhausted fullResponse' ds' ->
    fullResponse' = fullResponse ++ concat upstream ∧ ds' = ds ++ upstream.
Proof.
  induction upstream as [|chunk upstream IH]; intros calls full ds full' ds' H;
    simpl in H.
  - injection H as <- <-. simpl. now rewrite !app_nil_r.
  - destruct calls as [[|[|n]]|]; try discriminate.
    + apply IH in H as [-> ->]. simpl. now rewrite <- !app_assoc.
    + apply IH in H as [-> ->]. simpl. now rewrite <- !app_assoc.
Qed.

Lemma forAwait_to_the_end (upstream : list jsstring) :
  ∀ fullResponse ds,
    forAwait upstream None fullResponse ds
    = Exhausted (fullResponse ++ concat upstream) (ds ++ upstream).
Proof.
  induction upstream as [|chunk upstream IH]; intros full ds; simpl.
  - now rewrite !app_nil_r.
  - rewrite IH. now rewrite <- !app_assoc.
Qed.

Lemma responses_app (log1 log2 : AgentLog) :
  responses (log1 ++ log2) = responses log1 ++ responses log2.
Proof. unfold responses. apply omap_app. Qed.

Section StreamOperation.

Variables (agentName roleId : string) (logged : jsstring -> jsstring).

Let op := streamOperation agentName roleId logged.

(** A run that completes has delivered every chunk of the upstream
    and has appended the request entry and one response entry. *)
Lemma streamOperation_done call up calls log run log' :
  op call up calls log = (run, log') ->
  outcome run = Returned Done ->
  delivered run = chunks up
  ∧ log' = log ++ [RequestEntry (length log) (u agentName) (u roleId)
                     (systemPrompt call) (userPrompt call) (model call);
                   ResponseEntry (length log) (logged (concat (delivered run)))
                     (endTime call - startTime call)%Z None].
Proof.
  unfold op, streamOperation. intros Hrun Hdone.
  assert (Hbody :
    match forAwait (chunks up) calls [] [] with
    | Stopped _ => True
    | Exhausted full ds => full = concat (chunks up) ∧ ds = chunks up
    end).
  { destruct (forAwait (chunks up) calls [] []) eqn:E; [|exact I].
    apply forAwait_exhausted in E. exact E. }
  destruct calls as [[|n]|]; simpl in Hrun.
  - injection Hrun as <- <-. discriminate.
  - destruct (forAwait (chunks up) (Some (S n)) [] []) as [full ds|ds].
    + destruct Hbody as [-> ->].
      unfold tryCatch, logResponse, throw, bind, logError in Hrun.
      destruct (failure up); simpl in Hrun; injection Hrun as <- <-;
        simpl in *; [discriminate|].
      split; [reflexivity|]. now rewrite <- app_assoc.
    + injection Hrun as <- <-. discriminate.
  - destruct (forAwait (chunks up) None [] []) as [full ds|ds].
    + destruct Hbody as [-> ->].
      unfold tryCatch, logResponse, throw, bind, logError in Hrun.
      destruct (failure up); simpl in Hrun; injection Hrun as <- <-;
        simpl in *; [discriminate|].
      split; [reflexivity|]. now rewrite <- app_assoc.
    + injection Hrun as <- <-. discriminate.
Qed.

Lemma streamOperation_logs : logsOnCompletion op logged.
Proof.
  intros call up calls log run log' Hrun Hdone.
  destruct (streamOperation_done _ _ _ _ _ _ Hrun Hdone) as [_ ->].
  rewrite responses_app. reflexivity.
Qed.

(** A [for await] over an upstream that does not fail completes. *)
Lemma streamOperation_completes call upstream log :
  ∃ log', op call {| chunks := upstream; failure := None |} None log
          = ({| delivered := upstream; outcome := Returned Done |}, log').
Proof.
  unfold op, streamOperation. simpl. rewrite forAwait_to_the_end. simpl.
  eexists. reflexivity.
Qed.

End StreamOperation.

(** C1, as the code has it: when a streaming operation completes, the
    text of the terminal response entry it logs is the concatenation, in
    delivery order, of the chunks it yielded, for
    [Planner.generateFrameworkStream], [Writer.analyzeSegmentStream],
    [Critic.evaluateSegmentStream] and [GapAnalysis.identifyGaps]; for
    [Planner.analyzeContextStream] and [Planner.proposeObjectiveStream] it
    is that concatenation trimmed. *)
Theorem streamed_text_is_logged :
  logsOnCompletion Planner.generateFrameworkStream (fun text => text)
  ∧ logsOnCompletion Writer.analyzeSegmentStream (fun text => text)
  ∧ logsOnCompletion CriticStream.evaluateSegmentStream (fun text => text)
  ∧ logsOnCompletion GapAnalysisAgent.identifyGaps (fun text => text)
  ∧ logsOnCompletion Planner.analyzeContextStream trim
  ∧ logsOnCompletion Planner.proposeObjectiveStream trim.
Proof.
  repeat split; apply streamOperation_logs.
Qed.

(** C1, counterexample to the claim as stated: [analyzeContextStream]
    yields two chunks whose concatenation ends in a space and logs the
    text without that space. *)
Lemma analyzeContextStream_logs_trimmed :
  let (run, log') :=
    Planner.analyzeContextStream Samples.aCall Samples.twoChunks None [] in
  outcome run = Returned Done
  ∧ concat (delivered run) = u "A sales call. "
  ∧ responses log' = [u "A sales call."]
  ∧ responses log' <> [concat (delivered run)].
Proof.
  vm_compute. repeat split. discriminate.
Qed.

(* ===================================================================== *)
(** ** Failure of the completion call *)
(* ===================================================================== *)

(** C2, as the code has it: when the completion call fails,
    [Writer.rewriteSegment], [Critic.evaluateSegment] and
    [Planner.generateFramework] log an error entry and throw what the call
    threw; [Writer.analyzeSegment] logs the error entry too, but returns
    a segment analysis with status [error] and empty content. *)
Theorem failed_completion_is_logged
    (e : jsthrown) (call : Call) (log : AgentLog) :
  Writer.rewriteSegment call (Thrown e) log
  = (Thrown e, failureLog "Writer Agent" "writer" call e log)
  ∧ (∀ segmentId evaluatedAt,
       Critic.evaluateSegment segmentId call (Thrown e) evaluatedAt log
       = (Thrown e, failureLog "Critic Agent" "critic" call e log))
  ∧ (∀ JSON_parse now created contextUnderstanding analysisObjective metadataTags,
       Planner.generateFramework JSON_parse now created contextUnderstanding
         analysisObjective metadataTags call (Thrown e) log
       = (Thrown e, failureLog "Planner Agent" "planner" call e log))
  ∧ (∀ segmentId generatedAt,
       Writer.analyzeSegment segmentId call (Thrown e) generatedAt log
       = (Returned {| sa_segmentId := segmentId;
                      sa_content := [];
                      sa_status := error;
                      sa_generatedAt := None |},
          failureLog "Writer Agent" "writer" call e log)).
Proof.
  unfold failureLog.
  repeat split; intros;
    unfold Writer.rewriteSegment, Critic.evaluateSegment,
      Planner.generateFramework, Writer.analyzeSegment,
      bind, tryCatch, logRequest, logError, await, throw, ret;
    simpl; now rewrite <- app_assoc.
Qed.

(** C2, counterexample to the claim as stated: the completion call of
    [Writer.analyzeSegment] fails and the operation returns a value. *)
Lemma analyzeSegment_returns_on_failure :
  fst (Writer.analyzeSegment (u "segment-3-0") Samples.aCall
         (Thrown Samples.networkDown) 1850%N [])
  = Returned {| sa_segmentId := u "segment-3-0";
                sa_content := [];
                sa_status := error;
                sa_generatedAt := None |}
  ∧ fst (Writer.analyzeSegment (u "segment-3-0") Samples.aCall
           (Thrown Samples.networkDown) 1850%N [])
    <> Thrown Samples.networkDown.
Proof.
  split; [reflexivity | discriminate].
Qed.

(* ===================================================================== *)
(** ** Critic parsing *)
(* ===================================================================== *)

(** C8: on the well-formed sample response, [Critic.evaluateSegment]
    returns an evaluation with [sourceAlignment = false],
    [sourceAlignmentIssues = ["unsupported claim A"]],
    [objectiveFulfillmentScore = 62] and
    [improvementGuidance = "Add citations."]. *)
Theorem evaluateSegment_sample
    (segmentId : jsstring) (call : Call) (tokens : option Usage)
    (evaluatedAt : Z) (log : AgentLog) :
  ∃ ev log',
    Critic.evaluateSegment segmentId call
      (Returned {| content := Samples.criticResponse; usage := tokens |})
      evaluatedAt log
    = (Returned ev, log')
    ∧ Critic.sourceAlignment ev = false
    ∧ Critic.sourceAlignmentIssues ev = Some [u "unsupported claim A"]
    ∧ Critic.objectiveFulfillmentScore ev = 62%N
    ∧ Critic.improvementGuidance ev = u "Add citations.".
Proof.
  eexists. eexists. split.
  - unfold Critic.evaluateSegment, bind, tryCatch, logRequest, logResponse,
      await, ret. simpl. reflexivity.
  - unfold Critic.parseEvaluation. simpl content.
    repeat split; vm_compute; reflexivity.
Qed.

(* ===================================================================== *)
(** ** Framework parsing *)
(* ===================================================================== *)

(** C3, the code at the inputs of the claim. With the array under
    [Segments], [Planner.generateFramework] logs the response, fails on
    [parsed.segments.map], logs the error and throws. With a segment that
    has no field, it returns the segment with [undefined] for title,
    objective and guidance, not the placeholders. The parse the Phase 2
    page applies to the streamed text does what the claim says on both
    inputs. *)
Theorem generateFramework_has_no_fallback (call : Call) :
  Planner.generateFramework JSON_parse_ref Samples.clock 7%N (u "a call")
    (u "Summarise") [] call
    (Returned {| content := Samples.capitalized; usage := None |}) []
  = (Thrown (typeError_read "undefined" "map"),
     [RequestEntry 0 (u "Planner Agent") (u "planner")
        (systemPrompt call) (userPrompt call) (model call);
      ResponseEntry 0 Samples.capitalized (endTime call - startTime call)%Z None;
      ErrorEntry (u "Planner Agent") (u "planner")
        (u "Cannot read properties of undefined (reading 'map')")])
  ∧ (∃ fw,
       Planner.parseFramework JSON_parse_ref Samples.clock 7%N (u "a call")
         (u "Summarise") [] Samples.bareSegment = Returned fw
       ∧ List.map (fun seg => (seg_title seg, seg_objective seg, seg_guidance seg))
           (segments fw) = [(None, None, None)])
  ∧ (∃ fw,
       Planner.page_parseFramework JSON_parse_ref Samples.clock 7%N (u "a call")
         (u "Summarise") [] Samples.capitalized = Returned (Some fw)
       ∧ List.map (fun seg => (seg_title seg, seg_objective seg, seg_guidance seg))
           (segments fw)
         = [(Some (JStr (u "A")), Some (JStr (u "B")), Some (JStr (u "C")))])
  ∧ (∃ fw,
       Planner.page_parseFramework JSON_parse_ref Samples.clock 7%N (u "a call")
         (u "Summarise") [] Samples.bareSegment = Returned (Some fw)
       ∧ List.map (fun seg => (seg_title seg, seg_objective seg, seg_guidance seg))
           (segments fw)
         = [(Some (JStr (u "Untitled Segment")),
             Some (JStr (u "No objective provided")),
             Some (JStr (u "No guidance provided")))]).
Proof.
  split; [|split; [|split]].
  - unfold Planner.generateFramework, bind, tryCatch, logRequest, logResponse,
      logError, await, throw, Planner.pure. simpl.
    replace (Planner.parseFramework JSON_parse_ref Samples.clock 7%N (u "a call")
               (u "Summarise") [] Samples.capitalized)
      with (@Thrown AnalysisFramework (typeError_read "undefined" "map"))
      by (vm_compute; reflexivity).
    reflexivity.
  - eexists. split; vm_compute; reflexivity.
  - eexists. split; vm_compute; reflexivity.
  - eexists. split; vm_compute; reflexivity.
Qed.

(* ===================================================================== *)
(** ** The matcher consumes a prefix of its input *)
(* ===================================================================== *)

(** The match went on without consuming anything. *)
Ltac consumes_nothing pos s caps H :=
  exists [], pos, s, caps; split; [reflexivity | exact H].

Section Matcher.

Variable icase : bool.

Lemma repeat_consumes (R : Type)
    (body : nat -> jsstring -> captures -> Cont R -> option R)
    (greedy : bool) (k : Cont R) :
  (∀ pos s caps k' res, body pos s caps k' = Some res -> reaches R s k' res) ->
  ∀ fuel pos s caps res,
    repeat R body greedy k fuel pos s caps = Some res -> reaches R s k res.
Proof.
  intros Hbody. induction fuel as [|fuel IH]; intros pos s caps res H.
  - simpl in H. destruct greedy; simpl in H.
    + consumes_nothing pos s caps H.
    + destruct (k pos s caps) eqn:Hk; simpl in H; [|discriminate].
      rewrite H in Hk. consumes_nothing pos s caps Hk.
  - simpl in H.
    assert (Hagain : ∀ res',
      body pos s caps
        (fun pos' s' caps' =>
           if Nat.ltb (length s') (length s)
           then repeat R body greedy k fuel pos' s' caps' else None)
      = Some res' -> reaches R s k res').
    { intros res' Hb. apply Hbody in Hb as (c1 & pos1 & s1 & caps1 & -> & Hk).
      destruct (Nat.ltb (length s1) (length (c1 ++ s1))); [|discriminate].
      apply IH in Hk as (c2 & pos2 & s2 & caps2 & -> & Hk).
      exists (c1 ++ c2), pos2, s2, caps2. split; [now rewrite app_assoc | exact Hk]. }
    destruct greedy; unfold orElse in H.
    + destruct (body pos s caps _) eqn:Hb.
      * injection H as <-. now apply Hagain.
      * consumes_nothing pos s caps H.
    + destruct (k pos s caps) eqn:Hk.
      * rewrite H in Hk. consumes_nothing pos s caps Hk.
      * now apply Hagain.
Qed.

Lemma m_consumes (r : regex) :
  ∀ (R : Type) pos s caps (k : Cont R) res,
    m R icase r pos s caps k = Some res -> reaches R s k res.
Proof.
  induction r as [|c|atoms|r1 IH1 r2 IH2|r1 IH1 r2 IH2|greedy r1 IH1
                  |i r1 IH1|r1 IH1| |];
    intros R pos s caps k res H; simpl in H.
  - consumes_nothing pos s caps H.
  - destruct s as [|x s']; [discriminate|].
    destruct (unitMatches icase c x); [|discriminate].
    exists [x], (S pos), s', caps. split; [reflexivity | exact H].
  - destruct s as [|x s']; [discriminate|].
    destruct (classMatches icase atoms x); [|discriminate].
    exists [x], (S pos), s', caps. split; [reflexivity | exact H].
  - apply IH1 in H as (c1 & pos1 & s1 & caps1 & -> & H).
    apply IH2 in H as (c2 & pos2 & s2 & caps2 & -> & H).
    exists (c1 ++ c2), pos2, s2, caps2. split; [now rewrite app_assoc | exact H].
  - unfold orElse in H. destruct (m R icase r1 pos s caps k) eqn:H1.
    + injection H as <-. now apply IH1 in H1.
    + now apply IH2 in H.
  - apply repeat_consumes in H; [exact H|]. intros. now apply (IH1 R pos0 s0 caps0).
  - apply IH1 in H as (c1 & pos1 & s1 & caps1 & -> & H).
    exists c1, pos1, s1, ((i, firstn (pos1 - pos) (c1 ++ s1)) :: caps1).
    split; [reflexivity | exact H].
  - destruct (m captures icase r1 pos s caps _) as [caps'|]; [|discriminate].
    consumes_nothing pos s caps' H.
  - destruct (Nat.eqb pos 0); [|discriminate].
    consumes_nothing pos s caps H.
  - destruct s; [|discriminate].
    consumes_nothing pos (@nil N) caps H.
Qed.


(** *** The fuel of a star never runs out

    A matcher only calls its continuation on what is left of its input,
    so it cannot tell continuations apart that agree on shorter
    inputs; and a star given more fuel than the length of its input
    matches as with that length. *)

Lemma repeat_local (R : Type)
    (body : nat -> jsstring -> captures -> Cont R -> option R) (greedy : bool) :
  (∀ pos s caps k1 k2, agreeUpTo R (length s) k1 k2 ->
     body pos s caps k1 = body pos s caps k2) ->
  ∀ fuel pos s caps k1 k2,
    agreeUpTo R (length s) k1 k2 ->
    repeat R body greedy k1 fuel pos s caps = repeat R body greedy k2 fuel pos s caps.
Proof.
  intros Hbody. induction fuel as [|fuel IH]; intros pos s caps k1 k2 Hk; simpl.
  - now rewrite (Hk pos s caps (Nat.le_refl _)).
  - rewrite (Hk pos s caps (Nat.le_refl _)).
    rewrite (Hbody pos s caps
               (fun pos' s' caps' =>
                  if Nat.ltb (length s') (length s)
                  then repeat R body greedy k1 fuel pos' s' caps' else None)
               (fun pos' s' caps' =>
                  if Nat.ltb (length s') (length s)
                  then repeat R body greedy k2 fuel pos' s' caps' else None)).
    + reflexivity.
    + intros pos' s' caps' Hle.
      destruct (Nat.ltb (length s') (length s)) eqn:Hlt; [|reflexivity].
      apply IH. intros p t c Ht. apply Hk. lia.
Qed.

Lemma m_local (r : regex) :
  ∀ (R : Type) pos s caps (k1 k2 : Cont R),
    agreeUpTo R (length s) k1 k2 ->
    m R icase r pos s caps k1 = m R icase r pos s caps k2.
Proof.
  induction r as [|c|atoms|r1 IH1 r2 IH2|r1 IH1 r2 IH2|greedy r1 IH1
                  |i r1 IH1|r1 IH1| |];
    intros R pos s caps k1 k2 Hk; simpl.
  - now apply Hk.
  - destruct s as [|x s']; [reflexivity|].
    destruct (unitMatches icase c x); [|reflexivity]. apply Hk. simpl. lia.
  - destruct s as [|x s']; [reflexivity|].
    destruct (classMatches icase atoms x); [|reflexivity]. apply Hk. simpl. lia.
  - apply IH1. intros pos' s' caps' Hle. apply IH2.
    intros p t c Ht. apply Hk. lia.
  - now rewrite (IH1 R pos s caps k1 k2 Hk), (IH2 R pos s caps k1 k2 Hk).
  - apply repeat_local; [|exact Hk]. intros. now apply IH1.
  - apply IH1. intros pos' s' caps' Hle. now apply Hk.
  - destruct (m captures icase r1 pos s caps _); [|reflexivity]. now apply Hk.
  - destruct (Nat.eqb pos 0); [|reflexivity]. now apply Hk.
  - destruct s; [|reflexivity]. now apply Hk.
Qed.

Lemma reaches_length (R : Type) (s : jsstring) (k : Cont R) (res : R) :
  reaches R s k res ->
  ∃ pos' s' caps', length s' <= length s ∧ k pos' s' caps' = Some res.
Proof.
  intros (c & pos' & s' & caps' & -> & Hk). exists pos', s', caps'.
  split; [rewrite length_app; lia | exact Hk].
Qed.

Lemma star_fuel_suffices (R : Type) (r : regex) (greedy : bool) (k : Cont R) :
  ∀ fuel pos s caps,
    length s <= fuel ->
    repeat R (m R icase r) greedy k (S fuel) pos s caps
    = repeat R (m R icase r) greedy k fuel pos s caps.
Proof.
  induction fuel as [|fuel IH]; intros pos s caps Hlen.
  - destruct s; [|simpl in Hlen; lia].
    cbn [repeat length].
    destruct (m R icase r pos [] caps _) as [res|] eqn:Hm; [|reflexivity].
    apply m_consumes, reaches_length in Hm as (pos' & s' & caps' & Hle & Hk).
    simpl in Hle. destruct s'; simpl in *; [discriminate | lia].
  - change (repeat R (m R icase r) greedy k (S (S fuel)) pos s caps)
      with (let again (_ : unit) :=
              m R icase r pos s caps
                (fun pos' s' caps' =>
                   if Nat.ltb (length s') (length s)
                   then repeat R (m R icase r) greedy k (S fuel) pos' s' caps'
                   else None) in
            if greedy then orElse (again tt) (fun _ => k pos s caps)
            else orElse (k pos s caps) again).
    change (repeat R (m R icase r) greedy k (S fuel) pos s caps)
      with (let again (_ : unit) :=
              m R icase r pos s caps
                (fun pos' s' caps' =>
                   if Nat.ltb (length s') (length s)
                   then repeat R (m R icase r) greedy k fuel pos' s' caps'
                   else None) in
            if greedy then orElse (again tt) (fun _ => k pos s caps)
            else orElse (k pos s caps) again).
    cbv zeta.
    rewrite (m_local r R pos s caps
               (fun pos' s' caps' =>
                  if Nat.ltb (length s') (length s)
                  then repeat R (m R icase r) greedy k (S fuel) pos' s' caps'
                  else None)
               (fun pos' s' caps' =>
                  if Nat.ltb (length s') (length s)
                  then repeat R (m R icase r) greedy k fuel pos' s' caps'
                  else None)); [reflexivity|].
    intros pos' s' caps' Hle.
    destruct (Nat.ltb (length s') (length s)) eqn:Hlt; [|reflexivity].
    apply Nat.ltb_lt in Hlt. apply IH. lia.
Qed.

End Matcher.

Lemma m_seq_consumes (icase : bool) (r1 r2 : regex) (R : Type) pos s caps
    (k : Cont R) res :
  m R icase (Seq r1 r2) pos s caps k = Some res ->
  ∃ c pos' s' caps', s = c ++ s' ∧ m R icase r2 pos' s' caps' k = Some res.
Proof.
  intros H. simpl in H. apply m_consumes in H. exact H.
Qed.

(** A literal matches exactly itself. *)
Lemma m_literal (l : jsstring) :
  ∀ (R : Type) pos s caps (k : Cont R) res,
    m R false (LitUnits l) pos s caps k = Some res ->
    ∃ s', s = l ++ s' ∧ k (pos + length l) s' caps = Some res.
Proof.
  induction l as [|c l IH]; intros R pos s caps k res H; simpl in H.
  - exists s. split; [reflexivity|]. now rewrite Nat.add_0_r.
  - destruct s as [|x s0]; [discriminate|].
    unfold unitMatches in H. destruct (N.eqb c x) eqn:Hcx; [|discriminate].
    apply N.eqb_eq in Hcx as ->.
    apply IH in H as (s' & -> & H). exists s'. split; [reflexivity|].
    simpl. now rewrite <- Nat.add_succ_comm.
Qed.

Lemma stripPrefix_app (p s : jsstring) : stripPrefix p (p ++ s) = Some s.
Proof.
  induction p as [|a p IH]; simpl; [reflexivity|]. now rewrite N.eqb_refl.
Qed.

Lemma includes_unfold (p s : jsstring) :
  includes p s
  = match stripPrefix p s with
    | Some _ => true
    | None => match s with [] => false | _ :: s' => includes p s' end
    end.
Proof. destruct s; reflexivity. Qed.

Lemma includes_app (p a b : jsstring) : includes p (a ++ p ++ b) = true.
Proof.
  induction a as [|x a IH].
  - simpl app. rewrite includes_unfold, stripPrefix_app. reflexivity.
  - rewrite includes_unfold. simpl app.
    destruct (stripPrefix p (x :: a ++ p ++ b)); [reflexivity | exact IH].
Qed.

(* ===================================================================== *)
(** ** Gap suggestions *)
(* ===================================================================== *)

Lemma hasJsonFence_unfold (text : jsstring) :
  GapAnalysisAgent.hasJsonFence text
  = match stripPrefix GapAnalysisAgent.fenceOpen text with
    | Some rest =>
        if includes GapAnalysisAgent.fenceClose rest then true
        else match text with
             | [] => false
             | _ :: text' => GapAnalysisAgent.hasJsonFence text'
             end
    | None => match text with
              | [] => false
              | _ :: text' => GapAnalysisAgent.hasJsonFence text'
              end
    end.
Proof. destruct text; reflexivity. Qed.

Lemma hasJsonFence_here (body tail : jsstring) :
  GapAnalysisAgent.hasJsonFence
    (GapAnalysisAgent.fenceOpen ++ body ++ GapAnalysisAgent.fenceClose ++ tail)
  = true.
Proof.
  rewrite hasJsonFence_unfold, stripPrefix_app, includes_app. reflexivity.
Qed.

Lemma stripPrefix_Some (p : jsstring) :
  ∀ s rest, stripPrefix p s = Some rest -> s = p ++ rest.
Proof.
  induction p as [|a p IH]; intros s rest H; simpl in H.
  - now injection H as ->.
  - destruct s as [|b s]; [discriminate|].
    destruct (N.eqb a b) eqn:E; [|discriminate].
    apply N.eqb_eq in E as ->. apply IH in H as ->. reflexivity.
Qed.

Lemma includes_true (p s : jsstring) :
  includes p s = true -> ∃ a b, s = a ++ p ++ b.
Proof.
  induction s as [|x s IH]; rewrite includes_unfold;
    destruct (stripPrefix p _) as [rest|] eqn:E; try discriminate.
  - intros _. apply stripPrefix_Some in E. exists [], rest. exact E.
  - intros _. apply stripPrefix_Some in E. exists [], rest. exact E.
  - intros H. apply IH in H as (a & b & ->). exists (x :: a), b. reflexivity.
Qed.

Lemma hasJsonFence_later (x : N) (text : jsstring) :
  GapAnalysisAgent.hasJsonFence text = true ->
  GapAnalysisAgent.hasJsonFence (x :: text) = true.
Proof.
  intros H. rewrite hasJsonFence_unfold.
  destruct (stripPrefix _ _); [destruct (includes _ _)|]; auto.
Qed.

(** [hasJsonFence] says what its comment says. *)
Lemma hasJsonFence_spec (text : jsstring) :
  GapAnalysisAgent.hasJsonFence text = true
  <-> ∃ before body after,
        text = before ++ GapAnalysisAgent.fenceOpen ++ body
               ++ GapAnalysisAgent.fenceClose ++ after.
Proof.
  split.
  - induction text as [|x text IH]; [intros H; discriminate H|].
    rewrite hasJsonFence_unfold.
    destruct (stripPrefix GapAnalysisAgent.fenceOpen _) as [rest|] eqn:E.
    + destruct (includes GapAnalysisAgent.fenceClose rest) eqn:Hin.
      * intros _. apply stripPrefix_Some in E.
        apply includes_true in Hin as (a & b & ->).
        exists [], a, b. exact E.
      * intros H. apply IH in H as (before & body & after & ->).
        exists (x :: before), body, after. reflexivity.
    + intros H. apply IH in H as (before & body & after & ->).
      exists (x :: before), body, after. reflexivity.
  - intros (before & body & after & ->).
    induction before as [|x before IH]; simpl app.
    + apply hasJsonFence_here.
    + now apply hasJsonFence_later.
Qed.

(** Where the fence pattern matches, the text holds a fenced block. *)
Lemma jsonFence_match_here (R : Type) pos s caps (k : Cont R) res :
  m R false GapAnalysisAgent.re_jsonFence pos s caps k = Some res ->
  GapAnalysisAgent.hasJsonFence s = true.
Proof.
  unfold GapAnalysisAgent.re_jsonFence, Lit. intros H.
  change (m R false (Seq ?a ?b) pos s caps k)
    with (m R false a pos s caps (fun pos' s' caps' => m R false b pos' s' caps' k))
    in H.
  apply m_literal in H as (s1 & -> & H).
  apply m_seq_consumes in H as (c1 & pos2 & s2 & caps2 & -> & H).
  apply m_seq_consumes in H as (c2 & pos3 & s3 & caps3 & -> & H).
  apply m_seq_consumes in H as (c3 & pos4 & s4 & caps4 & -> & H).
  apply m_literal in H as (s5 & -> & _).
  replace (u "```json" ++ c1 ++ c2 ++ c3 ++ u "```" ++ s5)
    with (GapAnalysisAgent.fenceOpen ++ (c1 ++ c2 ++ c3)
          ++ GapAnalysisAgent.fenceClose ++ s5)
    by (unfold GapAnalysisAgent.fenceOpen, GapAnalysisAgent.fenceClose;
        now rewrite <- !app_assoc).
  apply hasJsonFence_here.
Qed.

Lemma exec_from_unfold (icase : bool) (r : regex) (pos : nat) (s : jsstring) :
  exec_from icase r pos s
  = orElse
      (m MatchResult icase r pos s []
         (fun pos' _ caps' =>
            Some {| index := pos; matched := firstn (pos' - pos) s; groups := caps' |}))
      (fun _ => match s with
                | [] => None
                | _ :: s' => exec_from icase r (S pos) s'
                end).
Proof. destruct s; reflexivity. Qed.

Lemma jsonFence_match (text : jsstring) :
  ∀ pos res,
    exec_from false GapAnalysisAgent.re_jsonFence pos text = Some res ->
    GapAnalysisAgent.hasJsonFence text = true.
Proof.
  induction text as [|x text IH]; intros pos res H;
    rewrite exec_from_unfold in H; unfold orElse in H;
    destruct (m MatchResult false GapAnalysisAgent.re_jsonFence pos _ [] _) eqn:Hm;
    try (now apply jsonFence_match_here in Hm); try discriminate.
  apply hasJsonFence_later. now apply IH in H.
Qed.

(** *** Decimal numerals *)

Lemma u_inj (a b : string) : u a = u b -> a = b.
Proof.
  revert b. induction a as [|x a IH]; intros [|y b] H; simpl in H;
    try discriminate; [reflexivity|].
  unfold u in H. simpl in H. injection H as Hxy Hab.
  apply (f_equal ascii_of_N) in Hxy. rewrite !ascii_N_embedding in Hxy.
  f_equal; [exact Hxy | now apply IH].
Qed.

Lemma decimal_inj (a b : N) : decimal a = decimal b -> a = b.
Proof.
  unfold decimal. intros H. apply u_inj in H.
  apply (f_equal NilEmpty.uint_of_string) in H. rewrite !NilEmpty.usu in H.
  injection H as H. now apply DecimalN.Unsigned.to_uint_inj.
Qed.

Lemma numeral_digits (d : Decimal.uint) :
  Forall (fun x => isDigit x = true) (u (NilEmpty.string_of_uint d)).
Proof.
  induction d; simpl; constructor; try assumption; reflexivity.
Qed.

Lemma decimal_no_dash (n : N) : ¬ In 45%N (decimal n).
Proof.
  unfold decimal. intros Hin.
  pose proof (numeral_digits (N.to_uint n)) as Hd.
  rewrite Forall_forall in Hd.
  apply list_elem_of_In in Hin. apply Hd in Hin. discriminate.
Qed.

Lemma split_at_dash (a : jsstring) :
  ∀ b c d, ¬ In 45%N a -> ¬ In 45%N c ->
    a ++ 45%N :: b = c ++ 45%N :: d -> a = c ∧ b = d.
Proof.
  induction a as [|x a IH]; intros b [|y c] d Ha Hc H; simpl in *.
  - injection H as ->. tauto.
  - injection H as <- _. tauto.
  - injection H as -> _. tauto.
  - injection H as -> H. apply IH in H as [-> ->]; tauto.
Qed.

Lemma gapIdAt_inj (now : nat -> N) (i j : nat) :
  gapIdAt now i = gapIdAt now j -> i = j.
Proof.
  unfold gapIdAt. intros H. apply app_inv_head in H.
  change (u "-") with [45%N] in H. simpl in H.
  apply split_at_dash in H as [_ H]; try apply decimal_no_dash.
  apply decimal_inj in H. lia.
Qed.

(** *** The suggestions parsed *)

Lemma mapIndexed_lookup {A B} (f : A -> nat -> completion B) (items : list A) :
  ∀ index ys,
    mapIndexed f index items = Returned ys ->
    ∀ j y, ys !! j = Some y ->
      ∃ x, items !! j = Some x ∧ f x (index + j) = Returned y.
Proof.
  induction items as [|x items IH]; intros index ys H j y Hj; simpl in H.
  - injection H as <-. discriminate.
  - destruct (f x index) as [y0|] eqn:Hx; simpl in H; [|discriminate].
    destruct (mapIndexed f (S index) items) as [ys0|] eqn:Hrest; simpl in H;
      [|discriminate].
    injection H as <-. destruct j as [|j]; simpl in Hj.
    + injection Hj as <-. exists x. split; [reflexivity|].
      now rewrite Nat.add_0_r.
    + destruct (IH _ _ Hrest _ _ Hj) as (x' & Hx' & Hf).
      exists x'. split; [exact Hx'|]. now rewrite <- Nat.add_succ_comm.
Qed.

Section GapSuggestions.

Variable JSON_parse : jsstring -> completion json.
Variable now : nat -> N.

Let parse := GapAnalysisAgent.parseGapSuggestions JSON_parse now.

Lemma toSuggestion_id (s : json) (i : nat) (g : GapSuggestion) :
  GapAnalysisAgent.toSuggestion now s i = Returned g -> gap_id g = gapIdAt now i.
Proof.
  unfold GapAnalysisAgent.toSuggestion. intros H.
  destruct (getProp (Some s) "title"); cbn [cbind] in H; [|discriminate].
  destruct (getProp (Some s) "objective"); cbn [cbind] in H; [|discriminate].
  destruct (getProp (Some s) "guidance"); cbn [cbind] in H; [|discriminate].
  destruct (getProp (Some s) "rationale"); cbn [cbind] in H; [|discriminate].
  injection H as <-. reflexivity.
Qed.

Lemma parseFenceBody_ids (capture : option jsstring)
    (suggestions : list GapSuggestion) :
  GapAnalysisAgent.parseFenceBody JSON_parse now capture = Returned suggestions ->
  ∀ i g, suggestions !! i = Some g -> gap_id g = gapIdAt now i.
Proof.
  unfold GapAnalysisAgent.parseFenceBody, Array_map. intros H i g Hi.
  destruct (JSON_parse _) as [[| | | |items|]|]; simpl in H; try discriminate.
  destruct (mapIndexed_lookup _ _ _ _ H _ _ Hi) as (x & _ & Hx).
  now apply toSuggestion_id in Hx.
Qed.

Lemma parseGapSuggestions_returns (text : jsstring) :
  ∃ suggestions, parse text = Returned suggestions.
Proof.
  unfold parse, GapAnalysisAgent.parseGapSuggestions, catching.
  destruct (String_match text false GapAnalysisAgent.re_jsonFence) as [res|];
    [|eauto].
  destruct (GapAnalysisAgent.parseFenceBody JSON_parse now (group 1 res)); eauto.
Qed.

Lemma parseGapSuggestions_ids (text : jsstring) (suggestions : list GapSuggestion)
    (i : nat) (g : GapSuggestion) :
  parse text = Returned suggestions ->
  suggestions !! i = Some g -> gap_id g = gapIdAt now i.
Proof.
  unfold parse, GapAnalysisAgent.parseGapSuggestions, catching. intros H Hi.
  destruct (String_match text false GapAnalysisAgent.re_jsonFence) as [res|].
  - destruct (GapAnalysisAgent.parseFenceBody JSON_parse now (group 1 res))
      eqn:Hbody; injection H as <-.
    + exact (parseFenceBody_ids _ _ Hbody _ _ Hi).
    + discriminate.
  - injection H as <-. discriminate.
Qed.

(** C9: [parseGapSuggestions] never throws; it returns the empty list
    for a text without a fenced [json] block, and for a text whose
    fenced block body [JSON.parse] rejects; and the id of a parsed
    suggestion is built from the clock and the suggestion's index, never
    read from the model's output, so that no two suggestions of a result
    share one. *)
Theorem parseGapSuggestions_degrades :
  (∀ text, ∃ suggestions, parse text = Returned suggestions)
  ∧ (∀ text, GapAnalysisAgent.hasJsonFence text = false -> parse text = Returned [])
  ∧ (∀ text jsonMatch body e,
       String_match text false GapAnalysisAgent.re_jsonFence = Some jsonMatch ->
       group 1 jsonMatch = Some body ->
       JSON_parse body = Thrown e ->
       parse text = Returned [])
  ∧ (∀ text suggestions i g,
       parse text = Returned suggestions ->
       suggestions !! i = Some g -> gap_id g = gapIdAt now i)
  ∧ (∀ text suggestions i j g g',
       parse text = Returned suggestions ->
       suggestions !! i = Some g -> suggestions !! j = Some g' ->
       gap_id g = gap_id g' -> i = j).
Proof.
  split; [|split; [|split; [|split]]].
  - exact parseGapSuggestions_returns.
  - intros text Hno. unfold parse, GapAnalysisAgent.parseGapSuggestions.
    destruct (String_match text false GapAnalysisAgent.re_jsonFence) as [res|] eqn:Hm;
      [|reflexivity].
    apply jsonFence_match in Hm. congruence.
  - intros text jsonMatch body e Hm Hbody Hparse.
    unfold parse, GapAnalysisAgent.parseGapSuggestions,
      GapAnalysisAgent.parseFenceBody.
    rewrite Hm, Hbody. simpl. now rewrite Hparse.
  - exact parseGapSuggestions_ids.
  - intros text suggestions i j g g' Hparse Hi Hj Heq.
    apply (parseGapSuggestions_ids _ _ _ _ Hparse) in Hi, Hj.
    rewrite Hi, Hj in Heq. now apply gapIdAt_inj in Heq.
Qed.

End GapSuggestions.

(* ===================================================================== *)
(** ** Orchestrator: parallel batches *)
(* ===================================================================== *)

Section Batch.

Import Orchestrator.

Lemma Map_get_set_eq {V} (k : jsstring) (v : V) (entries : list (jsstring * V)) :
  Map_get k (Map_set k v entries) = Some v.
Proof.
  induction entries as [|[k' w] entries IH]; simpl.
  - now rewrite jsstring_eqb_refl.
  - destruct (jsstring_eqb k' k) eqn:E; simpl; rewrite E; [reflexivity | exact IH].
Qed.

Lemma Map_get_set_ne {V} (k k' : jsstring) (v : V) (entries : list (jsstring * V)) :
  k <> k' -> Map_get k' (Map_set k v entries) = Map_get k' entries.
Proof.
  intros Hne. induction entries as [|[k0 w] entries IH]; simpl.
  - apply jsstring_eqb_neq in Hne. now rewrite Hne.
  - destruct (jsstring_eqb k0 k) eqn:E; simpl.
    + apply jsstring_eqb_eq in E as ->.
      apply jsstring_eqb_neq in Hne. now rewrite Hne.
    + destruct (jsstring_eqb k0 k'); [reflexivity | exact IH].
Qed.

Lemma Map_set_fresh {V} (k : jsstring) (v : V) (entries : list (jsstring * V)) :
  ¬ In k (List.map fst entries) -> Map_set k v entries = entries ++ [(k, v)].
Proof.
  induction entries as [|[k0 w] entries IH]; simpl; intros Hnot; [reflexivity|].
  destruct (jsstring_eqb k0 k) eqn:E.
  - apply jsstring_eqb_eq in E. tauto.
  - rewrite IH; tauto.
Qed.

(** The agent the orchestrator holds under a key. *)
Let agentAt (k : jsstring) (st : State) : option Agent := Map_get k (agents st).

Lemma registerAgent_at (agent : Agent) (st : State) :
  agentAt (id agent) (registerAgent agent st) = Some agent.
Proof. unfold agentAt, registerAgent. simpl. apply Map_get_set_eq. Qed.

Lemma registerAgent_other (agent : Agent) (st : State) (k : jsstring) :
  id agent <> k -> agentAt k (registerAgent agent st) = agentAt k st.
Proof. intros Hne. unfold agentAt, registerAgent. simpl. now apply Map_get_set_ne. Qed.

Lemma updateAgent_at (key : jsstring) (updates : AgentUpdates) (st : State) :
  agentAt key (updateAgent key updates st)
  = option_map (fun agent => assign agent updates) (agentAt key st).
Proof.
  unfold agentAt, updateAgent. destruct (Map_get key (agents st)) eqn:E; simpl.
  - apply Map_get_set_eq.
  - exact E.
Qed.

Lemma updateAgent_other (key : jsstring) (updates : AgentUpdates) (st : State)
    (k : jsstring) :
  key <> k -> agentAt k (updateAgent key updates st) = agentAt k st.
Proof.
  intros Hne. unfold agentAt, updateAgent.
  destruct (Map_get key (agents st)); simpl; [|reflexivity].
  now apply Map_get_set_ne.
Qed.

Lemma register_other (t : AgentTask) (st : State) (k : jsstring) :
  task_id t <> k -> agentAt k (register t st) = agentAt k st.
Proof. intros Hne. unfold register. now apply registerAgent_other. Qed.

Lemma start_other (t : AgentTask) (st : State) (k : jsstring) :
  task_id t <> k -> agentAt k (start t st) = agentAt k st.
Proof.
  intros Hne. unfold start.
  destruct (task t); rewrite ?updateAgent_other by exact Hne; reflexivity.
Qed.

Lemma start_at (t : AgentTask) (st : State) (agent : Agent) :
  agentAt (task_id t) st = Some agent ->
  agentAt (task_id t) (start t st)
  = Some match task t with
         | ThrowsAtCall reason => assign (assign agent running) (failed reason)
         | _ => assign agent running
         end.
Proof.
  intros Hat. unfold start.
  destruct (task t); rewrite ?updateAgent_at, Hat; reflexivity.
Qed.

Lemma through_app {A S} (f : A -> S -> S) (l1 l2 : list A) (s : S) :
  through f (l1 ++ l2) s = through f l2 (through f l1 s).
Proof. unfold through. apply fold_left_app. Qed.

(** Steps taken for tasks with other ids leave the agent under [k]. *)
Lemma through_others (f : AgentTask -> State -> State) (k : jsstring) :
  (∀ t st, task_id t <> k -> agentAt k (f t st) = agentAt k st) ->
  ∀ l st, ¬ In k (List.map task_id l) -> agentAt k (through f l st) = agentAt k st.
Proof.
  intros Hf. induction l as [|t l IH]; intros st Hnot; [reflexivity|].
  simpl in Hnot. change (through f (t :: l) st) with (through f l (f t st)).
  rewrite IH by tauto. apply Hf. tauto.
Qed.

Lemma through_one (f : AgentTask -> State -> State) (t : AgentTask) :
  (∀ t' st, task_id t' <> task_id t ->
     agentAt (task_id t) (f t' st) = agentAt (task_id t) st) ->
  ∀ l1 l2 st,
    ¬ In (task_id t) (List.map task_id l1 ++ List.map task_id l2) ->
    agentAt (task_id t) (through f (l1 ++ t :: l2) st)
    = agentAt (task_id t) (f t (through f l1 st)).
Proof.
  intros Hf l1 l2 st Hnot. rewrite through_app.
  change (through f (t :: l2) ?s) with (through f l2 (f t s)).
  apply through_others; [exact Hf|]. rewrite in_app_iff in Hnot. tauto.
Qed.

Variable tasks : list AgentTask.
Hypothesis distinct : List.NoDup (List.map task_id tasks).

Lemma settle_other (j : nat) (st : State) (k : jsstring) :
  (∀ t', nth_error tasks j = Some t' -> task_id t' <> k) ->
  agentAt k (settle tasks j st) = agentAt k st.
Proof.
  intros Hj. unfold settle. destruct (nth_error tasks j) as [t'|]; [|reflexivity].
  specialize (Hj t' eq_refl).
  destruct (task t'); rewrite ?updateAgent_other by exact Hj; reflexivity.
Qed.

Lemma settle_at (t : AgentTask) (i : nat) (st : State) (agent : Agent) :
  nth_error tasks i = Some t ->
  agentAt (task_id t) st = Some agent ->
  agentAt (task_id t) (settle tasks i st)
  = Some match task t with
         | Resolves result => assign agent (completed result)
         | Rejects reason => assign agent (failed reason)
         | ThrowsAtCall _ => agent
         end.
Proof.
  intros Hnth Hat. unfold settle. rewrite Hnth.
  destruct (task t); rewrite ?updateAgent_at, Hat; reflexivity.
Qed.

Lemma through_settle_others (k : jsstring) (order : list nat) :
  ∀ st,
    (∀ j t', In j order -> nth_error tasks j = Some t' -> task_id t' <> k) ->
    agentAt k (through (settle tasks) order st) = agentAt k st.
Proof.
  induction order as [|j order IH]; intros st Hothers; [reflexivity|].
  change (through (settle tasks) (j :: order) st)
    with (through (settle tasks) order (settle tasks j st)).
  rewrite IH.
  - apply settle_other. intros t' Ht'. apply (Hothers j); [now left | exact Ht'].
  - intros j' t' Hin. apply Hothers. now right.
Qed.

(** A task's place in the batch: no other task has its id. *)
Lemma task_place (t : AgentTask) :
  In t tasks ->
  ∃ l1 l2, tasks = l1 ++ t :: l2
           ∧ ¬ In (task_id t) (List.map task_id l1 ++ List.map task_id l2)
           ∧ nth_error tasks (length l1) = Some t
           ∧ (∀ j t', j <> length l1 -> nth_error tasks j = Some t' ->
                task_id t' <> task_id t).
Proof.
  intros Hin. apply in_split in Hin as (l1 & l2 & Heq). exists l1, l2.
  assert (Hnot : ¬ In (task_id t) (List.map task_id l1 ++ List.map task_id l2)).
  { pose proof distinct as Hd. rewrite Heq, map_app in Hd. simpl in Hd.
    now apply NoDup_remove_2 in Hd. }
  split; [exact Heq|]. split; [exact Hnot|]. split.
  - rewrite Heq, nth_error_app2 by lia. now rewrite Nat.sub_diag.
  - intros j t' Hj Hnth Hid. apply Hnot. rewrite <- Hid, in_app_iff.
    rewrite Heq in Hnth. destruct (Nat.lt_ge_cases j (length l1)) as [Hlt|Hge].
    + rewrite nth_error_app1 in Hnth by exact Hlt.
      left. apply in_map. now apply nth_error_In in Hnth.
    + rewrite nth_error_app2 in Hnth by exact Hge.
      destruct (j - length l1) as [|n] eqn:E; [lia|]. simpl in Hnth.
      right. apply in_map. now apply nth_error_In in Hnth.
Qed.

Variable order : list nat.
Hypothesis settles_once : Permutation order (seq 0 (length tasks)).

Lemma order_place (i : nat) :
  i < length tasks ->
  ∃ o1 o2, order = o1 ++ i :: o2 ∧ ¬ In i (o1 ++ o2).
Proof.
  intros Hi.
  assert (Hin : In i order).
  { apply (Permutation_in i (Permutation_sym settles_once)).
    apply in_seq. lia. }
  apply in_split in Hin as (o1 & o2 & Heq). exists o1, o2.
  split; [exact Heq|].
  assert (Hnd : List.NoDup order).
  { apply (Permutation_NoDup (Permutation_sym settles_once)). apply seq_NoDup. }
  rewrite Heq in Hnd. now apply NoDup_remove_2 in Hnd.
Qed.

Variable st : State.

(** Isolation: whatever the other tasks do and in whatever order the
    promises settle, a task ends as it would alone. *)
Lemma task_ends_alone (t : AgentTask) :
  In t tasks ->
  agentAt (task_id t) (snd (runParallelAgents tasks order st)) = Some (finalAgent t).
Proof.
  intros Hin.
  destruct (task_place t Hin) as (l1 & l2 & Heq & Hnot & Hnth & Hothers).
  assert (Hi : length l1 < length tasks).
  { rewrite Heq, length_app. simpl. lia. }
  destruct (order_place _ Hi) as (o1 & o2 & Horder & Honce).
  unfold runParallelAgents. simpl.
  set (st1 := through register tasks st).
  set (st2 := through start tasks st1).
  assert (H1 : agentAt (task_id t) st1
               = Some {| id := task_id t; name := task_name t; status := IDLE;
                         progress := 0%N; output := None; error_ := None |}).
  { unfold st1. rewrite Heq.
    rewrite (through_one register t) by (auto using register_other).
    unfold register at 1.
    apply (registerAgent_at
             {| id := task_id t; name := task_name t; status := IDLE;
                progress := 0%N; output := None; error_ := None |}). }
  assert (Hmid : agentAt (task_id t) (through start l1 st1) = agentAt (task_id t) st1).
  { apply through_others; [intros; now apply start_other|].
    rewrite in_app_iff in Hnot. tauto. }
  assert (Hsettled : ∀ o s,
    (∀ j, In j o -> j <> length l1) ->
    agentAt (task_id t) (through (settle tasks) o s) = agentAt (task_id t) s).
  { intros o s Ho. apply through_settle_others.
    intros j t' Hj Hj'. apply (Hothers j t'); [now apply Ho | exact Hj']. }
  rewrite Horder, through_app.
  change (through (settle tasks) (length l1 :: o2) ?s)
    with (through (settle tasks) o2 (settle tasks (length l1) s)).
  rewrite Hsettled
    by (intros j Hj ->; apply Honce; rewrite in_app_iff; now right).
  assert (H2 : agentAt (task_id t) (through (settle tasks) o1 st2)
               = agentAt (task_id t) (start t (through start l1 st1))).
  { rewrite Hsettled
      by (intros j Hj ->; apply Honce; rewrite in_app_iff; now left).
    unfold st2. rewrite Heq at 1.
    apply through_one; [intros; now apply start_other | exact Hnot]. }
  rewrite H1 in Hmid. rewrite (start_at _ _ _ Hmid) in H2.
  rewrite (settle_at _ _ _ _ Hnth H2).
  unfold finalAgent. destruct (task t); reflexivity.
Qed.

Lemma collect_resolved :
  ∀ l acc,
    List.NoDup (List.map fst acc ++ List.map task_id l) ->
    through collect l acc = acc ++ omap resolved l.
Proof.
  induction l as [|t l IH]; intros acc Hnd; simpl.
  - now rewrite app_nil_r.
  - change (through collect (t :: l) acc) with (through collect l (collect t acc)).
    simpl in Hnd. unfold collect, resolved.
    destruct (task t) as [result|reason|reason].
    + rewrite Map_set_fresh.
      * rewrite IH; [now rewrite <- app_assoc|].
        rewrite map_app. simpl. rewrite <- app_assoc. simpl.
        exact Hnd.
      * apply NoDup_remove_2 in Hnd. rewrite in_app_iff in Hnd. tauto.
    + apply IH. now apply NoDup_remove_1 in Hnd.
    + apply IH. now apply NoDup_remove_1 in Hnd.
Qed.

Lemma resolved_count (l : list AgentTask) :
  length (omap resolved l) + length (List.filter fails l) = length l.
Proof.
  induction l as [|t l IH]; [reflexivity|].
  cbn [omap list_omap List.filter length].
  destruct (resolved t) eqn:Hr, (fails t) eqn:Hf; unfold resolved, fails in Hr, Hf;
    destruct (task t); try discriminate; cbn [length]; lia.
Qed.

End Batch.

Lemma resolved_lookup (l : list Orchestrator.AgentTask) (k v : jsstring) :
  List.NoDup (List.map Orchestrator.task_id l) ->
  Orchestrator.Map_get k (omap resolved l) = Some v
  <-> ∃ t, In t l ∧ Orchestrator.task_id t = k
           ∧ Orchestrator.task t = Orchestrator.Resolves v.
Proof.
  induction l as [|t0 l IH]; intros Hnd.
  - simpl. split; [discriminate | intros (t & [] & _)].
  - simpl in Hnd. apply List.NoDup_cons_iff in Hnd as [Hfresh Hnd].
    specialize (IH Hnd). cbn [omap list_omap].
    assert (Htail : ∀ t, In t l -> Orchestrator.task_id t <> Orchestrator.task_id t0).
    { intros t Hin Heq. apply Hfresh. rewrite <- Heq. now apply in_map. }
    destruct (resolved t0) as [[k0 v0]|] eqn:Hr.
    + unfold resolved in Hr.
      destruct (Orchestrator.task t0) as [result| |] eqn:Htask; try discriminate.
      injection Hr as <- <-. simpl.
      destruct (jsstring_eqb (Orchestrator.task_id t0) k) eqn:E.
      * apply jsstring_eqb_eq in E. split.
        -- intros [= <-]. exists t0. repeat split; auto.
        -- intros (t & [<- | Hin] & Hk & Hv); [congruence|].
           exfalso. apply (Htail t Hin). congruence.
      * apply jsstring_eqb_neq in E. rewrite IH. split.
        -- intros (t & Hin & Hk & Hv). exists t. auto.
        -- intros (t & [<- | Hin] & Hk & Hv); [contradiction|]. exists t. auto.
    + rewrite IH. split.
      * intros (t & Hin & Hk & Hv). exists t. simpl. auto.
      * intros (t & [<- | Hin] & Hk & Hv).
        -- unfold resolved in Hr. rewrite Hv in Hr. discriminate.
        -- exists t. auto.
Qed.

(** C4, as the code has it: for a batch whose task ids are pairwise
    distinct, in whatever order the promises settle, the result map holds
    exactly the tasks whose work resolved, each id with its value, so
    [N - K] entries when [K] tasks fail; every task ends as it would
    alone, whatever its siblings do; and a failing task ends [FAILED]
    with the message of what was thrown (['Unknown error'] for a
    non-Error), which is non-empty unless an [Error] with an empty
    message was thrown. *)
Theorem runParallelAgents_isolates
    (tasks : list Orchestrator.AgentTask) (order : list nat)
    (st : Orchestrator.State) :
  List.NoDup (List.map Orchestrator.task_id tasks) ->
  Permutation order (seq 0 (length tasks)) ->
  let outputMap := fst (Orchestrator.runParallelAgents tasks order st) in
  let st' := snd (Orchestrator.runParallelAgents tasks order st) in
  (∀ k v, Orchestrator.Map_get k outputMap = Some v
          <-> ∃ t, In t tasks ∧ Orchestrator.task_id t = k
                   ∧ Orchestrator.task t = Orchestrator.Resolves v)
  ∧ length outputMap
    = length tasks - length (List.filter Orchestrator.fails tasks)
  ∧ (∀ t, In t tasks ->
       Orchestrator.Map_get (Orchestrator.task_id t) (Orchestrator.agents st')
       = Some (Orchestrator.finalAgent t))
  ∧ (∀ t reason, In t tasks -> Orchestrator.reasonOf t = Some reason ->
       ∃ agent,
         Orchestrator.Map_get (Orchestrator.task_id t) (Orchestrator.agents st')
         = Some agent
         ∧ Orchestrator.status agent = Orchestrator.FAILED
         ∧ Orchestrator.error_ agent = Some (errorMessage reason)
         ∧ (reason <> ErrorObj [] -> errorMessage reason <> [])).
Proof.
  intros Hdistinct Horder outputMap st'.
  assert (Hout : outputMap = omap resolved tasks).
  { unfold outputMap, Orchestrator.runParallelAgents. simpl.
    now rewrite collect_resolved. }
  assert (Halone := task_ends_alone tasks Hdistinct order Horder st).
  split; [|split; [|split]].
  - intros k v. rewrite Hout. now apply resolved_lookup.
  - rewrite Hout. pose proof (resolved_count tasks). lia.
  - exact Halone.
  - intros t reason Hin Hreason. exists (Orchestrator.finalAgent t).
    split; [now apply Halone|].
    unfold Orchestrator.reasonOf in Hreason. unfold Orchestrator.finalAgent.
    destruct (Orchestrator.task t); try discriminate; injection Hreason as ->;
      simpl; (split; [reflexivity|]); (split; [reflexivity|]);
      intros Hne; destruct reason as [[|x message]|description];
      first [ now contradiction Hne | discriminate ].
Qed.

Lemma runParallelAgents_isolates_witness :
  let outputMap :=
    fst (Orchestrator.runParallelAgents Batches.twoSegments [1; 0] Batches.fresh) in
  let st' :=
    snd (Orchestrator.runParallelAgents Batches.twoSegments [1; 0] Batches.fresh) in
  (∀ k v, Orchestrator.Map_get k outputMap = Some v
          <-> ∃ t, In t Batches.twoSegments ∧ Orchestrator.task_id t = k
                   ∧ Orchestrator.task t = Orchestrator.Resolves v)
  ∧ length outputMap
    = length Batches.twoSegments
      - length (List.filter Orchestrator.fails Batches.twoSegments)
  ∧ (∀ t, In t Batches.twoSegments ->
       Orchestrator.Map_get (Orchestrator.task_id t) (Orchestrator.agents st')
       = Some (Orchestrator.finalAgent t))
  ∧ (∀ t reason, In t Batches.twoSegments ->
       Orchestrator.reasonOf t = Some reason ->
       ∃ agent,
         Orchestrator.Map_get (Orchestrator.task_id t) (Orchestrator.agents st')
         = Some agent
         ∧ Orchestrator.status agent = Orchestrator.FAILED
         ∧ Orchestrator.error_ agent = Some (errorMessage reason)
         ∧ (reason <> ErrorObj [] -> errorMessage reason <> [])).
Proof.
  apply (runParallelAgents_isolates Batches.twoSegments [1; 0] Batches.fresh).
  - repeat constructor; simpl; intuition discriminate.
  - apply perm_swap.
Defined.

(** C4, counterexample to the claim as stated: of three tasks one
    fails, and the result map has one entry, not two, because two tasks
    share an id; the failing task ends [FAILED] with an empty error
    message, because the error thrown had none. *)
Lemma runParallelAgents_clashing_ids :
  let outputMap :=
    fst (Orchestrator.runParallelAgents Batches.clashing [0; 1; 2] Batches.fresh) in
  let st' :=
    snd (Orchestrator.runParallelAgents Batches.clashing [0; 1; 2] Batches.fresh) in
  length Batches.clashing = 3
  ∧ length (List.filter Orchestrator.fails Batches.clashing) = 1
  ∧ outputMap = [(u "segment-3", u "second")]
  ∧ length outputMap <> 3 - 1
  ∧ option_map (fun agent => (Orchestrator.status agent, Orchestrator.error_ agent))
      (Orchestrator.Map_get (u "segment-4") (Orchestrator.agents st'))
    = Some (Orchestrator.FAILED, Some []).
Proof.
  vm_compute. repeat split. discriminate.
Qed.

Lemma streamed_text_is_logged_witness :
  responses (snd (Writer.analyzeSegmentStream Samples.aCall Samples.twoChunks None []))
  = [u "A sales call. "].
Proof.
  destruct streamed_text_is_logged as (_ & Hwriter & _).
  exact (Hwriter Samples.aCall Samples.twoChunks None []
           (fst (Writer.analyzeSegmentStream Samples.aCall Samples.twoChunks None []))
           (snd (Writer.analyzeSegmentStream Samples.aCall Samples.twoChunks None []))
           eq_refl eq_refl).
Defined.

Lemma parseGapSuggestions_degrades_witness :
  GapAnalysisAgent.parseGapSuggestions JSON_parse_ref Samples.clock Samples.noFence
  = Returned []
  ∧ GapAnalysisAgent.parseGapSuggestions JSON_parse_ref Samples.clock
      Samples.malformedFence = Returned []
  ∧ ∃ g, GapAnalysisAgent.parseGapSuggestions JSON_parse_ref Samples.clock
           Samples.oneSuggestion = Returned [g]
         ∧ gap_id g = gapIdAt Samples.clock 0.
Proof.
  destruct (parseGapSuggestions_degrades JSON_parse_ref Samples.clock)
    as (_ & Hnone & Hbad & Hid & _).
  split; [|split].
  - apply Hnone. reflexivity.
  - apply (Hbad Samples.malformedFence
             {| index := 0;
                matched := Samples.malformedFence;
                groups := [(1, uq "[{'title':'Pricing',}]")] |}
             (uq "[{'title':'Pricing',}]") syntaxError); reflexivity.
  - destruct (GapAnalysisAgent.parseGapSuggestions JSON_parse_ref Samples.clock
                Samples.oneSuggestion) as [[|g [|g' rest]]|e] eqn:Hparse;
      try discriminate Hparse.
    exists g. split; [reflexivity|].
    apply (Hid Samples.oneSuggestion [g] 0 g Hparse). reflexivity.
Defined.

(* ===================================================================== *)
(** * Further properties of the code *)
(* ===================================================================== *)

(** ** Phase navigation *)

(** X1: [getNextPhase] and [getPreviousPhase] walk one linear order in
    opposite directions: each undoes the other, the next phase is one
    rank up, and only the last phase has no next, only the first no
    previous. *)
Theorem phase_steps_are_inverse (p q : Phase) :
  (Navigation.getNextPhase p = Some q <-> Navigation.getPreviousPhase q = Some p)
  ∧ (Navigation.getNextPhase p = Some q -> Navigation.rank q = S (Navigation.rank p))
  ∧ (Navigation.getNextPhase p = None <-> p = CONSOLIDATION)
  ∧ (Navigation.getPreviousPhase p = None <-> p = UPLOAD_ALIGN).
Proof.
  repeat split; destruct p, q; simpl; intros H; try reflexivity;
    try discriminate H; congruence.
Qed.

(** X2: a gated navigation call ([proceedToNextPhase], [navigateToPhase])
    either toasts an error and changes nothing, or moves to a phase whose
    gate is open in the state it leaves, navigates to that phase's route
    and changes no field but [currentPhase]; [skipToConsolidation] moves
    to CONSOLIDATION whatever the gate says. *)
Theorem navigation_is_gated
    (truthyPhase : Phase -> bool) (state : AnalysisContext.AnalysisState)
    (phase : Phase) (out : Navigation.Outcome) :
  (out = Navigation.proceedToNextPhase truthyPhase state
   ∨ out = Navigation.navigateToPhase state phase ->
   (Navigation.toast out <> None
    ∧ Navigation.after out = state ∧ Navigation.route out = None)
   ∨ (Navigation.toast out = None
      ∧ AnalysisContext.canProceedToPhase state
          (AnalysisContext.currentPhase (Navigation.after out)) = true
      ∧ Navigation.route out
        = Some (Navigation.PHASE_ROUTES
                  (AnalysisContext.currentPhase (Navigation.after out)))
      ∧ Navigation.after out
        = ContextUpdates.setCurrentPhase
            (AnalysisContext.currentPhase (Navigation.after out)) state))
  ∧ AnalysisContext.currentPhase
      (Navigation.after (Navigation.skipToConsolidation state)) = CONSOLIDATION
  ∧ Navigation.toast (Navigation.skipToConsolidation state) = None.
Proof.
  split; [|split; reflexivity].
  intros [-> | ->].
  - unfold Navigation.proceedToNextPhase.
    destruct (Navigation.absent truthyPhase _); [left; repeat split; discriminate|].
    destruct (Navigation.getNextPhase _) as [next|];
      [|left; repeat split; discriminate].
    destruct (AnalysisContext.canProceedToPhase state next) eqn:Hgate; simpl.
    + right. repeat split. exact Hgate.
    + left. repeat split. discriminate.
  - unfold Navigation.navigateToPhase.
    destruct (AnalysisContext.canProceedToPhase state phase) eqn:Hgate; simpl.
    + right. repeat split. exact Hgate.
    + left. repeat split. discriminate.
Qed.

(** ** The setters and the gates *)

Lemma analysesMap_snoc (l : list SegmentAnalysis) (a : SegmentAnalysis) :
  ContextUpdates.analysesMap (l ++ [a])
  = <[sa_segmentId a := a]> (ContextUpdates.analysesMap l).
Proof. unfold ContextUpdates.analysesMap. now rewrite fold_left_app. Qed.

(** X3: the map [setPhase3Data] installs holds, under each segment id,
    the last analysis of the list with that id, and nothing else: the
    analyses stored before the call, promoted gaps included, are gone. *)
Theorem setPhase3Data_last_wins
    (analyses : list SegmentAnalysis) (prev : AnalysisContext.AnalysisState)
    (key : jsstring) :
  AnalysisContext.segmentAnalyses (ContextUpdates.setPhase3Data analyses prev) !! key
  = List.find (fun a => jsstring_eqb (sa_segmentId a) key) (rev analyses).
Proof.
  simpl. induction analyses as [|a analyses IH] using rev_ind.
  - apply lookup_empty.
  - rewrite analysesMap_snoc, rev_app_distr. simpl.
    destruct (jsstring_eqb (sa_segmentId a) key) eqn:E.
    + apply jsstring_eqb_eq in E as <-. apply lookup_insert_eq.
    + apply jsstring_eqb_neq in E. rewrite lookup_insert_ne by exact E. exact IH.
Qed.

Lemma analysesMap_nonempty (analyses : list SegmentAnalysis) :
  Nat.ltb 0 (size (ContextUpdates.analysesMap analyses)) = negb (bool_decide (analyses = [])).
Proof.
  destruct analyses as [|a analyses] using rev_ind; [reflexivity|].
  rewrite analysesMap_snoc.
  assert (Hne : <[sa_segmentId a := a]> (ContextUpdates.analysesMap analyses) <> ∅)
    by apply insert_non_empty.
  rewrite bool_decide_eq_false_2 by (intros H; now apply app_eq_nil in H as [_ ?]).
  simpl. apply Nat.ltb_lt. apply map_size_non_empty_iff in Hne. lia.
Qed.

(** X4: what each setter does to the gates. After [setPhase1Data] the
    gate of PROCESSING_VALIDATION is open exactly when the transcript
    given is non-empty; after [setPhase2Data] the gate of
    INSIGHT_EXTRACTION is open; after [setPhase3Data] the gates of
    GAP_ANALYSIS and CONSOLIDATION are open exactly when the list given
    is non-empty; after [resetAnalysis] only UPLOAD_ALIGN is reachable. *)
Theorem setters_open_gates (prev : AnalysisContext.AnalysisState) :
  (∀ output text,
     AnalysisContext.canProceedToPhase
       (ContextUpdates.setPhase1Data output text prev) PROCESSING_VALIDATION = true
     <-> text <> [])
  ∧ (∀ fw,
       AnalysisContext.canProceedToPhase
         (ContextUpdates.setPhase2Data fw prev) INSIGHT_EXTRACTION = true)
  ∧ (∀ analyses phase, phase = GAP_ANALYSIS ∨ phase = CONSOLIDATION ->
       (AnalysisContext.canProceedToPhase
          (ContextUpdates.setPhase3Data analyses prev) phase = true
        <-> analyses <> []))
  ∧ (∀ phase,
       AnalysisContext.canProceedToPhase (ContextUpdates.resetAnalysis prev) phase = true
       <-> phase = UPLOAD_ALIGN).
Proof.
  split; [|split; [|split]].
  - intros output text. simpl. rewrite negb_true_iff. apply jsstring_eqb_neq.
  - reflexivity.
  - intros analyses phase Hphase.
    assert (Hgate : AnalysisContext.canProceedToPhase
                      (ContextUpdates.setPhase3Data analyses prev) phase
                    = Nat.ltb 0 (size (ContextUpdates.analysesMap analyses)))
      by (destruct Hphase as [-> | ->]; reflexivity).
    rewrite Hgate, analysesMap_nonempty, negb_true_iff, bool_decide_eq_false.
    reflexivity.
  - intros phase. destruct phase; simpl; split; intros H;
      try reflexivity; try discriminate H.
Qed.

Lemma insert_size_positive (m : gmap jsstring SegmentAnalysis) k a :
  Nat.ltb 0 (size (<[k := a]> m)) = true.
Proof.
  apply Nat.ltb_lt.
  pose proof (insert_non_empty m k a) as Hne.
  apply map_size_non_empty_iff in Hne. lia.
Qed.

(** X5: [addGapToMainAnalysis] never closes a gate, and it opens the
    gates of GAP_ANALYSIS and CONSOLIDATION, framework or not. *)
Theorem addGapToMainAnalysis_opens_gates
    (gapId : jsstring) (analysis : SegmentAnalysis)
    (suggestion : option GapSuggestion) (prev : AnalysisContext.AnalysisState) :
  let next := AnalysisContext.addGapToMainAnalysis gapId analysis suggestion prev in
  (∀ phase, AnalysisContext.canProceedToPhase prev phase = true ->
            AnalysisContext.canProceedToPhase next phase = true)
  ∧ AnalysisContext.canProceedToPhase next GAP_ANALYSIS = true
  ∧ AnalysisContext.canProceedToPhase next CONSOLIDATION = true.
Proof.
  intros next.
  assert (Hopen : Nat.ltb 0 (size (AnalysisContext.segmentAnalyses next)) = true)
    by apply insert_size_positive.
  split; [|split; exact Hopen].
  intros [] Hprev; try exact Hopen; try exact Hprev.
  simpl in *. destruct (AnalysisContext.framework prev) as [fw|]; [|discriminate].
  now destruct (AnalysisContext.targetSuggestion gapId suggestion prev).
Qed.

(** X6: promoting the same gap twice is not detected: the framework
    gains two segments with the gap's id, with orders [n + 1] and
    [n + 2], while the analysis map is as after the first call. *)
Theorem addGapToMainAnalysis_twice
    (gapId : jsstring) (analysis : SegmentAnalysis)
    (suggestion : option GapSuggestion) (prev : AnalysisContext.AnalysisState)
    (fw : AnalysisFramework) (target : GapSuggestion) :
  AnalysisContext.framework prev = Some fw ->
  AnalysisContext.targetSuggestion gapId suggestion prev = Some target ->
  let once := AnalysisContext.addGapToMainAnalysis gapId analysis suggestion prev in
  let twice := AnalysisContext.addGapToMainAnalysis gapId analysis suggestion once in
  AnalysisContext.framework twice
  = Some {| metadata := metadata fw;
            segments := segments fw
                        ++ [promoted target (length (segments fw));
                            promoted target (length (segments fw) + 1)] |}
  ∧ AnalysisContext.segmentAnalyses twice = AnalysisContext.segmentAnalyses once.
Proof.
  intros Hfw Htarget once twice.
  assert (Honce := addGap_framework gapId analysis suggestion prev target fw
                     Htarget Hfw).
  fold once in Honce.
  assert (Htarget' : AnalysisContext.targetSuggestion gapId suggestion once
                     = Some target).
  { unfold AnalysisContext.targetSuggestion in *.
    destruct suggestion; [exact Htarget|].
    unfold once, AnalysisContext.addGapToMainAnalysis. simpl.
    destruct (AnalysisContext.gapAnalysis prev); [exact Htarget | discriminate]. }
  split.
  - unfold twice.
    rewrite (addGap_framework gapId analysis suggestion once target _ Htarget' Honce).
    simpl. rewrite length_app, <- app_assoc. reflexivity.
  - unfold twice, once, AnalysisContext.addGapToMainAnalysis. simpl.
    apply insert_insert_eq.
Qed.

Lemma addGapToMainAnalysis_twice_witness :
  let once := AnalysisContext.addGapToMainAnalysis (u "gap-17-0")
                Examples.pricingAnalysis None Examples.inGapAnalysis in
  let twice := AnalysisContext.addGapToMainAnalysis (u "gap-17-0")
                 Examples.pricingAnalysis None once in
  AnalysisContext.framework twice
  = Some {| metadata := metadata Examples.oneSegment;
            segments := segments Examples.oneSegment
                        ++ [promoted Examples.pricing 1; promoted Examples.pricing 2] |}
  ∧ AnalysisContext.segmentAnalyses twice = AnalysisContext.segmentAnalyses once.
Proof.
  apply (addGapToMainAnalysis_twice (u "gap-17-0") Examples.pricingAnalysis None
           Examples.inGapAnalysis Examples.oneSegment Examples.pricing);
    reflexivity.
Defined.

(* ===================================================================== *)
(** ** The order of the framework's segments *)
(* ===================================================================== *)

Lemma renumberFrom_orders (l : list FrameworkSegment) :
  ∀ i, List.map seg_order (Phase2Page.renumberFrom i l) = seq i (length l).
Proof.
  induction l as [|seg l IH]; intros i; simpl; [reflexivity|]. now rewrite IH.
Qed.

Lemma renumberFrom_keeps (l : list FrameworkSegment) :
  ∀ i, List.map Phase2Page.unordered (Phase2Page.renumberFrom i l)
       = List.map Phase2Page.unordered l.
Proof.
  induction l as [|seg l IH]; intros i; simpl; [reflexivity|]. now rewrite IH.
Qed.

Lemma renumberFrom_length (l : list FrameworkSegment) :
  ∀ i, length (Phase2Page.renumberFrom i l) = length l.
Proof.
  induction l as [|seg l IH]; intros i; simpl; [reflexivity|]. now rewrite IH.
Qed.

Lemma withoutIndex_spec (l : list FrameworkSegment) :
  ∀ index i,
    Phase2Page.withoutIndex index i l
    = if Nat.leb i index
      then firstn (index - i) l ++ skipn (S (index - i)) l
      else l.
Proof.
  induction l as [|seg l IH]; intros index i; simpl.
  - destruct (Nat.leb i index); [|reflexivity].
    now rewrite firstn_nil.
  - rewrite IH. destruct (Nat.eqb i index) eqn:E.
    + apply Nat.eqb_eq in E as ->. rewrite Nat.leb_refl, Nat.sub_diag.
      replace (Nat.leb (S index) index) with false
        by (symmetry; apply Nat.leb_gt; lia).
      reflexivity.
    + apply Nat.eqb_neq in E. destruct (Nat.leb i index) eqn:Hle.
      * apply Nat.leb_le in Hle.
        replace (Nat.leb (S i) index) with true
          by (symmetry; apply Nat.leb_le; lia).
        replace (index - i) with (S (index - S i)) by lia. reflexivity.
      * apply Nat.leb_gt in Hle.
        replace (Nat.leb (S i) index) with false
          by (symmetry; apply Nat.leb_gt; lia).
        reflexivity.
Qed.

(** X7: [deleteSegment] and [handleReorder] leave the page with orders
    [0 .. n-1] whatever the orders were. [deleteSegment] keeps the other
    segments, in their sequence and unchanged but for the order, and
    removes nothing when the index is out of range; what the page
    holds is what the framework of the context holds, when there is
    one. *)
Theorem segment_edits_renumber (st : Phase2Page.PageState) :
  (∀ index,
     let st' := Phase2Page.deleteSegment index st in
     Phase2Page.dense (Phase2Page.segmentList st')
     ∧ List.map Phase2Page.unordered (Phase2Page.segmentList st')
       = List.map Phase2Page.unordered
           (firstn index (Phase2Page.segmentList st)
            ++ skipn (S index) (Phase2Page.segmentList st))
     ∧ (length (Phase2Page.segmentList st) <= index ->
        length (Phase2Page.segmentList st')
        = length (Phase2Page.segmentList st))
     ∧ (∀ fw, AnalysisContext.framework (Phase2Page.context st) = Some fw ->
          ∃ fw', AnalysisContext.framework (Phase2Page.context st') = Some fw'
                 ∧ segments fw' = Phase2Page.segmentList st'
                 ∧ metadata fw' = metadata fw))
  ∧ (∀ newOrder,
       let st' := Phase2Page.handleReorder newOrder st in
       Phase2Page.dense (Phase2Page.segmentList st')
       ∧ List.map Phase2Page.unordered (Phase2Page.segmentList st')
         = List.map Phase2Page.unordered newOrder).
Proof.
  split.
  - intros index st'. unfold st', Phase2Page.deleteSegment, Phase2Page.dense. simpl.
    rewrite renumberFrom_orders, renumberFrom_length, renumberFrom_keeps.
    rewrite withoutIndex_spec. simpl. rewrite Nat.sub_0_r.
    split; [reflexivity|]. split; [reflexivity|]. split.
    + intros Hout. rewrite firstn_all2, skipn_all2 by lia.
      now rewrite app_nil_r.
    + intros fw Hfw. unfold Phase2Page.publish. rewrite Hfw. simpl.
      eexists. repeat split.
  - intros newOrder st'. unfold st', Phase2Page.handleReorder, Phase2Page.dense.
    simpl. rewrite renumberFrom_orders, renumberFrom_length, renumberFrom_keeps.
    split; reflexivity.
Qed.

(** X8: [addSegment] keeps dense orders dense; the segment
    [addGapToMainAnalysis] appends never fits (its order is one too
    high), and a [handleReorder] of the segments it leaves makes the
    orders dense again. *)
Theorem appended_orders
    (segs : list FrameworkSegment) (state : AnalysisContext.AnalysisState) :
  (∀ now, Phase2Page.dense segs ->
     Phase2Page.dense
       (Phase2Page.segmentList
          (Phase2Page.addSegment now
             {| Phase2Page.segmentList := segs; Phase2Page.context := state |})))
  ∧ (∀ gapId analysis suggestion fw target,
       AnalysisContext.framework state = Some fw ->
       AnalysisContext.targetSuggestion gapId suggestion state = Some target ->
       ∃ fw',
         AnalysisContext.framework
           (AnalysisContext.addGapToMainAnalysis gapId analysis suggestion state)
         = Some fw'
         ∧ ¬ Phase2Page.dense (segments fw')
         ∧ Phase2Page.dense
             (Phase2Page.segmentList
                (Phase2Page.handleReorder (segments fw')
                   {| Phase2Page.segmentList := segs;
                      Phase2Page.context := state |}))).
Proof.
  split.
  - intros now Hdense. unfold Phase2Page.dense in *. simpl.
    rewrite map_app, length_app, Hdense. simpl.
    now rewrite Nat.add_1_r, seq_S.
  - intros gapId analysis suggestion fw target Hfw Htarget.
    eexists. split;
      [exact (addGap_framework gapId analysis suggestion state target fw Htarget Hfw)|].
    split.
    + unfold Phase2Page.dense. simpl. rewrite map_app, length_app. simpl.
      rewrite Nat.add_1_r, seq_S. simpl. intros H.
      apply (f_equal (@rev nat)) in H. rewrite !rev_app_distr in H. simpl in H.
      injection H as H _. lia.
    + unfold Phase2Page.dense, Phase2Page.handleReorder. simpl.
      now rewrite renumberFrom_orders, renumberFrom_length.
Qed.

Lemma segmentIdAt_inj (now : nat -> N) (i j : nat) :
  segmentIdAt now i = segmentIdAt now j -> i = j.
Proof.
  unfold segmentIdAt. intros H. apply app_inv_head in H.
  change (u "-") with [45%N] in H. simpl in H.
  apply split_at_dash in H as [_ H]; try apply decimal_no_dash.
  apply decimal_inj in H. lia.
Qed.

Lemma mapIndexed_length {A B} (f : A -> nat -> completion B) (items : list A) :
  ∀ index ys, mapIndexed f index items = Returned ys -> length ys = length items.
Proof.
  induction items as [|x items IH]; intros index ys H; simpl in H.
  - now injection H as <-.
  - destruct (f x index); simpl in H; [|discriminate].
    destruct (mapIndexed f (S index) items) eqn:Hrest; simpl in H; [|discriminate].
    injection H as <-. simpl. f_equal. eapply IH. exact Hrest.
Qed.

Lemma dense_of_lookup (l : list FrameworkSegment) :
  ∀ i, (∀ j seg, l !! j = Some seg -> seg_order seg = i + j) ->
       List.map seg_order l = seq i (length l).
Proof.
  induction l as [|seg l IH]; intros i H; simpl; [reflexivity|]. f_equal.
  - rewrite (H 0 seg eq_refl). lia.
  - apply IH. intros j seg' Hj. rewrite (H (S j) seg' Hj). lia.
Qed.

Section FrameworkParsers.

Variable JSON_parse : jsstring -> completion json.
Variable now : nat -> N.
Variable created : N.

Lemma toSegment_stamp (seg : json) (i : nat) (s : FrameworkSegment) :
  Planner.toSegment now seg i = Returned s ->
  seg_id s = segmentIdAt now i ∧ seg_order s = i.
Proof.
  unfold Planner.toSegment. intros H.
  destruct (getProp (Some seg) "title"); cbn [cbind] in H; [|discriminate].
  destruct (getProp (Some seg) "objective"); cbn [cbind] in H; [|discriminate].
  destruct (getProp (Some seg) "guidance"); cbn [cbind] in H; [|discriminate].
  injection H as <-. split; reflexivity.
Qed.

Lemma page_toSegment_stamp (seg : json) (i : nat) (s : FrameworkSegment) :
  Planner.page_toSegment now seg i = Returned s ->
  seg_id s = segmentIdAt now i ∧ seg_order s = i
  ∧ truthy (seg_title s) = true ∧ truthy (seg_objective s) = true
  ∧ truthy (seg_guidance s) = true.
Proof.
  unfold Planner.page_toSegment. intros H.
  repeat match type of H with
         | cbind ?c _ = _ => destruct c; cbn [cbind] in H; [|discriminate]
         end.
  injection H as <-. simpl. repeat split;
    unfold or_else; match goal with |- truthy (if truthy ?x then _ else _) = _ =>
                      destruct (truthy x) eqn:E; [exact E | reflexivity] end.
Qed.

(** Both parsers stamp the segment at index [i] with the id of [i] and
    the order [i]. *)
Lemma parsed_segments_stamped (f : json -> nat -> completion FrameworkSegment)
    (raw : jsvalue) (what : string) (segs : list FrameworkSegment) :
  (∀ seg i s, f seg i = Returned s -> seg_id s = segmentIdAt now i ∧ seg_order s = i) ->
  Array_map raw what f = Returned segs ->
  ∀ i s, segs !! i = Some s -> seg_id s = segmentIdAt now i ∧ seg_order s = i.
Proof.
  intros Hf Hmap i s Hi. unfold Array_map in Hmap.
  destruct raw as [[| | | |items|]|]; try discriminate.
  destruct (mapIndexed_lookup _ _ _ _ Hmap _ _ Hi) as (x & _ & Hx).
  now apply Hf in Hx.
Qed.

Lemma stamped_dense (segs : list FrameworkSegment) :
  (∀ i s, segs !! i = Some s -> seg_id s = segmentIdAt now i ∧ seg_order s = i) ->
  Phase2Page.dense segs
  ∧ (∀ i j s s', segs !! i = Some s -> segs !! j = Some s' ->
       seg_id s = seg_id s' -> i = j).
Proof.
  intros H. split.
  - apply dense_of_lookup. intros j seg Hj. now apply H in Hj as [_ ->].
  - intros i j s s' Hi Hj Heq. apply H in Hi as [Hi _], Hj as [Hj _].
    rewrite Hi, Hj in Heq. now apply segmentIdAt_inj in Heq.
Qed.

(** X9: a framework parsed from a response, by [generateFramework] or
    by the Phase 2 page, has segments with orders [0 .. n-1] and pairwise
    distinct ids, stamped from the clock and the index whatever ids the
    response carries. *)
Theorem parsed_framework_is_dense
    (contextUnderstanding analysisObjective : jsstring)
    (metadataTags : list jsstring) (text : jsstring) (fw : AnalysisFramework) :
  Planner.parseFramework JSON_parse now created contextUnderstanding
    analysisObjective metadataTags text = Returned fw
  ∨ Planner.page_parseFramework JSON_parse now created contextUnderstanding
      analysisObjective metadataTags text = Returned (Some fw) ->
  Phase2Page.dense (segments fw)
  ∧ (∀ i j s s', segments fw !! i = Some s -> segments fw !! j = Some s' ->
       seg_id s = seg_id s' -> i = j)
  ∧ (∀ i s, segments fw !! i = Some s -> seg_id s = segmentIdAt now i).
Proof.
  intros H.
  assert (Hstamped : ∀ i s, segments fw !! i = Some s ->
                            seg_id s = segmentIdAt now i ∧ seg_order s = i).
  { destruct H as [H | H].
    - unfold Planner.parseFramework in H.
      destruct (String_match text false Planner.re_jsonObject); [|discriminate].
      destruct (JSON_parse _); cbn [cbind] in H; [|discriminate].
      destruct (getProp _ "segments") as [raw|]; cbn [cbind] in H; [|discriminate].
      destruct (Array_map raw _ _) as [segs|] eqn:Hmap; cbn [cbind] in H;
        [|discriminate].
      injection H as <-. simpl.
      exact (parsed_segments_stamped _ _ _ _ toSegment_stamp Hmap).
    - unfold Planner.page_parseFramework in H.
      destruct (String_match text false Planner.re_jsonObject); [|discriminate].
      destruct (JSON_parse _); cbn [cbind] in H; [|discriminate].
      destruct (getProp _ "segments") as [lower|]; cbn [cbind] in H; [|discriminate].
      destruct (if truthy lower then _ else _) as [upper|]; cbn [cbind] in H;
        [|discriminate].
      destruct (Array_map _ _ _) as [segs|] eqn:Hmap; cbn [cbind] in H;
        [|discriminate].
      injection H as <-. simpl.
      refine (parsed_segments_stamped _ _ _ _ _ Hmap).
      intros seg i s Hs. apply page_toSegment_stamp in Hs. tauto. }
  destruct (stamped_dense _ Hstamped) as [Hdense Hdistinct].
  split; [exact Hdense|]. split; [exact Hdistinct|].
  intros i s Hi. now apply Hstamped in Hi.
Qed.

(** X10: the framework the Phase 2 page parses never has a segment
    with a missing or empty title, objective or guidance: a field the
    response leaves out, under either spelling of its key, or gives as
    an empty or falsy value, is replaced by its placeholder. *)
Theorem page_framework_has_no_blank
    (contextUnderstanding analysisObjective : jsstring)
    (metadataTags : list jsstring) (text : jsstring) (fw : AnalysisFramework) :
  Planner.page_parseFramework JSON_parse now created contextUnderstanding
    analysisObjective metadataTags text = Returned (Some fw) ->
  ∀ i s, segments fw !! i = Some s ->
    truthy (seg_title s) = true ∧ truthy (seg_objective s) = true
    ∧ truthy (seg_guidance s) = true.
Proof.
  unfold Planner.page_parseFramework. intros H i s Hi.
  destruct (String_match text false Planner.re_jsonObject); [|discriminate].
  destruct (JSON_parse _); cbn [cbind] in H; [|discriminate].
  destruct (getProp _ "segments") as [lower|]; cbn [cbind] in H; [|discriminate].
  destruct (if truthy lower then _ else _) as [upper|]; cbn [cbind] in H;
    [|discriminate].
  destruct (Array_map _ _ _) as [segs|] eqn:Hmap; cbn [cbind] in H; [|discriminate].
  injection H as <-. simpl in Hi. unfold Array_map in Hmap.
  destruct (or_else upper _) as [[| | | |items|]|]; try discriminate.
  destruct (mapIndexed_lookup _ _ _ _ Hmap _ _ Hi) as (x & _ & Hx).
  apply page_toSegment_stamp in Hx. tauto.
Qed.

End FrameworkParsers.

Lemma parsed_framework_is_dense_witness :
  ∃ fw,
    Planner.parseFramework JSON_parse_ref Samples.clock 7%N (u "a call")
      (u "Summarise") [] Samples.bareSegment = Returned fw
    ∧ Phase2Page.dense (segments fw)
    ∧ (∀ i s, segments fw !! i = Some s -> seg_id s = segmentIdAt Samples.clock i).
Proof.
  destruct (Planner.parseFramework JSON_parse_ref Samples.clock 7%N (u "a call")
              (u "Summarise") [] Samples.bareSegment) as [fw|e] eqn:Hparse;
    [|discriminate Hparse].
  exists fw. split; [reflexivity|].
  destruct (parsed_framework_is_dense JSON_parse_ref Samples.clock 7%N (u "a call")
              (u "Summarise") [] Samples.bareSegment fw (or_introl Hparse))
    as (Hdense & _ & Hids).
  split; assumption.
Defined.

Lemma page_framework_has_no_blank_witness :
  ∃ fw,
    Planner.page_parseFramework JSON_parse_ref Samples.clock 7%N (u "a call")
      (u "Summarise") [] Samples.bareSegment = Returned (Some fw)
    ∧ ∀ i s, segments fw !! i = Some s ->
        truthy (seg_title s) = true ∧ truthy (seg_objective s) = true
        ∧ truthy (seg_guidance s) = true.
Proof.
  destruct (Planner.page_parseFramework JSON_parse_ref Samples.clock 7%N (u "a call")
              (u "Summarise") [] Samples.bareSegment) as [[fw|]|e] eqn:Hparse;
    try discriminate Hparse.
  exists fw. split; [reflexivity|].
  exact (page_framework_has_no_blank JSON_parse_ref Samples.clock 7%N (u "a call")
           (u "Summarise") [] Samples.bareSegment fw Hparse).
Defined.

(* ===================================================================== *)
(** ** Streams that fail, and streams the consumer abandons *)
(* ===================================================================== *)

Lemma errors_app (log1 log2 : AgentLog) :
  errors (log1 ++ log2) = errors log1 ++ errors log2.
Proof. unfold errors. apply omap_app. Qed.

(** A consumer that makes [S n] calls of [next()] is served [S n]
    chunks and stops the loop, unless the upstream has no more than [n]
    chunks: then the loop sees the end of the upstream. *)
Lemma forAwait_calls (upstream : list jsstring) :
  ∀ n fullResponse ds,
    forAwait upstream (Some (S n)) fullResponse ds
    = if Nat.ltb n (length upstream)
      then Stopped (ds ++ firstn (S n) upstream)
      else Exhausted (fullResponse ++ concat upstream) (ds ++ upstream).
Proof.
  induction upstream as [|chunk upstream IH]; intros n full ds.
  - simpl. now rewrite !app_nil_r.
  - destruct n as [|n].
    + simpl. reflexivity.
    + cbn [forAwait]. rewrite IH. cbn [length].
      change (Nat.ltb (S n) (S (length upstream))) with (Nat.ltb n (length upstream)).
      destruct (Nat.ltb n (length upstream)).
      * rewrite <- app_assoc. reflexivity.
      * cbn [concat]. now rewrite <- !app_assoc.
Qed.

(** X11: what a streaming operation leaves behind when it does not
    complete. If the upstream fails, every chunk that came before the
    failure has been yielded, the error is logged once, with its message,
    after the request entry, no response entry is written, and the
    consumer gets the very error. If the consumer stops after [n] chunks
    of an upstream that has at least [n], it has got the first [n]
    chunks, and the log has gained the request entry (none when [n] is
    0) and neither a response nor an error entry: the request stays
    open, whether or not the upstream would have failed. A consumer that
    asks for more than there is runs as one that iterates to the end. *)
Theorem stream_failure_and_abandon
    (agentName roleId : string) (logged : jsstring -> jsstring)
    (call : Call) (up : Upstream) (log : AgentLog) :
  (∀ e, failure up = Some e ->
     streamOperation agentName roleId logged call up None log
     = ({| delivered := chunks up; outcome := Thrown e |},
        failureLog agentName roleId call e log))
  ∧ (∀ n, n <= length (chunks up) ->
       let (run, log') := streamOperation agentName roleId logged call up (Some n) log in
       outcome run = Returned Closed
       ∧ delivered run = firstn n (chunks up)
       ∧ log' = log ++ match n with
                       | 0 => []
                       | S _ => [RequestEntry (length log) (u agentName) (u roleId)
                                   (systemPrompt call) (userPrompt call) (model call)]
                       end
       ∧ responses log' = responses log
       ∧ errors log' = errors log)
  ∧ (∀ n, length (chunks up) < n ->
       streamOperation agentName roleId logged call up (Some n) log
       = streamOperation agentName roleId logged call up None log).
Proof.
  split; [|split].
  - intros e He. unfold streamOperation, failureLog. simpl.
    rewrite forAwait_to_the_end, He. simpl.
    unfold tryCatch, throw, bind, logError. simpl.
    now rewrite <- app_assoc.
  - intros [|n] Hn.
    + simpl. rewrite app_nil_r. repeat split.
    + unfold streamOperation. simpl. rewrite forAwait_calls.
      apply Nat.ltb_lt in Hn. rewrite Hn. simpl.
      rewrite responses_app, errors_app. simpl. rewrite !app_nil_r.
      repeat split.
  - intros [|n] Hn; [lia|].
    unfold streamOperation. simpl. rewrite forAwait_calls, forAwait_to_the_end.
    assert (Hge : Nat.ltb n (length (chunks up)) = false)
      by (apply Nat.ltb_ge; lia).
    now rewrite Hge.
Qed.

Lemma stream_failure_and_abandon_witness :
  Writer.analyzeSegmentStream Samples.aCall
    {| chunks := chunks Samples.twoChunks; failure := Some Samples.networkDown |}
    None []
  = ({| delivered := chunks Samples.twoChunks;
        outcome := Thrown Samples.networkDown |},
     failureLog "Writer Agent" "writer" Samples.aCall Samples.networkDown [])
  ∧ delivered (fst (Writer.analyzeSegmentStream Samples.aCall Samples.twoChunks
                      (Some 1) []))
    = firstn 1 (chunks Samples.twoChunks)
  ∧ responses (snd (Writer.analyzeSegmentStream Samples.aCall Samples.twoChunks
                      (Some 1) [])) = [].
Proof.
  split.
  - apply (stream_failure_and_abandon "Writer Agent" "writer" (fun text => text)
             Samples.aCall
             {| chunks := chunks Samples.twoChunks;
                failure := Some Samples.networkDown |} []).
    reflexivity.
  - pose proof (proj1 (proj2 (stream_failure_and_abandon "Writer Agent" "writer"
                                (fun text => text) Samples.aCall Samples.twoChunks []))
                  1 ltac:(simpl; lia)) as H.
    unfold Writer.analyzeSegmentStream.
    destruct (streamOperation "Writer Agent" "writer" (fun text => text)
                Samples.aCall Samples.twoChunks (Some 1) []) as [run log'].
    destruct H as (_ & Hdelivered & _ & Hresponses & _).
    split; [exact Hdelivered | exact Hresponses].
Defined.

(* ===================================================================== *)
(** ** Orchestrator: what the listeners are told *)
(* ===================================================================== *)

Section Notifications.

Import Orchestrator.

Lemma rounds_app (ls : list nat) (s1 s2 : list (list Agent)) :
  rounds ls (s1 ++ s2) = rounds ls s1 ++ rounds ls s2.
Proof. unfold rounds. now rewrite map_app, concat_app. Qed.

Lemma rounds_length (ls : list nat) (snapshots : list (list Agent)) :
  length (rounds ls snapshots) = length snapshots * length ls.
Proof.
  unfold rounds. induction snapshots as [|s snapshots IH]; [reflexivity|].
  cbn [List.map concat length]. rewrite length_app, length_map, IH. lia.
Qed.

Lemma notifiedIn_refl (st : State) : notifiedIn st st [].
Proof. unfold notifiedIn. simpl. now rewrite app_nil_r. Qed.

Lemma notifiedIn_trans (st1 st2 st3 : State) (s1 s2 : list (list Agent)) :
  notifiedIn st1 st2 s1 -> notifiedIn st2 st3 s2 -> notifiedIn st1 st3 (s1 ++ s2).
Proof.
  intros (Hl1 & Hn1 & Hs1) (Hl2 & Hn2 & Hs2). split; [congruence|]. split.
  - rewrite Hn2, Hn1, Hl1, rounds_app. now rewrite <- app_assoc.
  - destruct s2 as [|x s2].
    + rewrite app_nil_r. destruct s1; [congruence|].
      unfold getAgents in *. now rewrite Hs2.
    + destruct (s1 ++ x :: s2) eqn:E; [now destruct s1|]. rewrite <- E.
      change (last (x :: s2) = Some (getAgents st3)) in Hs2.
      now rewrite last_app, Hs2.
Qed.

Lemma registerAgent_notifies (agent : Agent) (st : State) :
  notifiedIn st (registerAgent agent st) [getAgents (registerAgent agent st)].
Proof.
  unfold notifiedIn, registerAgent, notifyListeners, rounds. simpl.
  now rewrite app_nil_r.
Qed.

Lemma updateAgent_notifies (key : jsstring) (updates : AgentUpdates) (st : State) :
  registered key st ->
  notifiedIn st (updateAgent key updates st) [getAgents (updateAgent key updates st)].
Proof.
  unfold registered, notifiedIn, updateAgent, notifyListeners, rounds.
  destruct (Map_get key (agents st)); [|congruence]. simpl.
  now rewrite app_nil_r.
Qed.

Lemma registerAgent_registers (agent : Agent) (st : State) (k : jsstring) :
  k = id agent ∨ registered k st -> registered k (registerAgent agent st).
Proof.
  unfold registered. destruct (decide (id agent = k)) as [<-|Hne].
  - intros _. now rewrite registerAgent_at.
  - intros [->|H]; [congruence|]. now rewrite registerAgent_other.
Qed.

Lemma updateAgent_registered (key : jsstring) (updates : AgentUpdates) (st : State)
    (k : jsstring) :
  registered k st -> registered k (updateAgent key updates st).
Proof.
  unfold registered. destruct (decide (key = k)) as [<-|Hne].
  - rewrite updateAgent_at. now destruct (Map_get key (agents st)).
  - now rewrite updateAgent_other.
Qed.

Lemma start_registered (t : AgentTask) (st : State) (k : jsstring) :
  registered k st -> registered k (start t st).
Proof.
  intros H. unfold start. destruct (task t); auto using updateAgent_registered.
Qed.

Lemma settle_registered (tasks : list AgentTask) (i : nat) (st : State)
    (k : jsstring) :
  registered k st -> registered k (settle tasks i st).
Proof.
  intros H. unfold settle. destruct (nth_error tasks i) as [t|]; [|exact H].
  destruct (task t); auto using updateAgent_registered.
Qed.

Lemma through_register (l : list AgentTask) :
  ∀ st,
    (∀ k, registered k st ∨ In k (List.map task_id l) ->
          registered k (through register l st))
    ∧ ∃ snapshots, notifiedIn st (through register l st) snapshots
                   ∧ length snapshots = length l.
Proof.
  induction l as [|t l IH]; intros st.
  - split; [intros k [H|[]]; exact H|]. exists []. split; [apply notifiedIn_refl|reflexivity].
  - change (through register (t :: l) st) with (through register l (register t st)).
    destruct (IH (register t st)) as (Hreg & snapshots & Hsteps & Hlen). split.
    + intros k Hk. apply Hreg. simpl in Hk.
      destruct Hk as [Hk|[Hk|Hk]]; [| |now right]; left;
        apply registerAgent_registers; simpl; auto.
    + eexists. split.
      * eapply notifiedIn_trans; [apply registerAgent_notifies | exact Hsteps].
      * simpl. now rewrite Hlen.
Qed.

Lemma start_notifies (t : AgentTask) (st : State) :
  registered (task_id t) st ->
  ∃ snapshots, notifiedIn st (start t st) snapshots
               ∧ length snapshots = startRounds t.
Proof.
  intros Hreg. unfold start, startRounds.
  pose proof (updateAgent_notifies (task_id t) running st Hreg) as H1.
  destruct (task t) as [result|reason|reason]; try (eexists; split; [exact H1|reflexivity]).
  eexists. split.
  - eapply notifiedIn_trans; [exact H1|].
    apply updateAgent_notifies. now apply updateAgent_registered.
  - reflexivity.
Qed.

Lemma through_start (l : list AgentTask) :
  ∀ st,
    (∀ t, In t l -> registered (task_id t) st) ->
    ∃ snapshots, notifiedIn st (through start l st) snapshots
                 ∧ length snapshots = list_sum (List.map startRounds l).
Proof.
  induction l as [|t l IH]; intros st Hreg.
  - exists []. split; [apply notifiedIn_refl|reflexivity].
  - change (through start (t :: l) st) with (through start l (start t st)).
    destruct (start_notifies t st) as (s1 & Hs1 & Hl1); [apply Hreg; now left|].
    destruct (IH (start t st)) as (s2 & Hs2 & Hl2).
    { intros t' Hin. apply start_registered. apply Hreg. now right. }
    exists (s1 ++ s2). split; [eapply notifiedIn_trans; eassumption|].
    rewrite length_app, Hl1, Hl2. reflexivity.
Qed.

Lemma settle_notifies (tasks : list AgentTask) (i : nat) (st : State) :
  (∀ t, In t tasks -> registered (task_id t) st) ->
  ∃ snapshots, notifiedIn st (settle tasks i st) snapshots
               ∧ length snapshots = settleRounds (nth_error tasks i).
Proof.
  intros Hreg. unfold settle, settleRounds.
  destruct (nth_error tasks i) as [t|] eqn:Hnth;
    [|exists []; split; [apply notifiedIn_refl|reflexivity]].
  apply nth_error_In, Hreg in Hnth.
  destruct (task t) as [result|reason|reason].
  - eexists. split; [apply updateAgent_notifies; exact Hnth|reflexivity].
  - eexists. split; [apply updateAgent_notifies; exact Hnth|reflexivity].
  - exists []. split; [apply notifiedIn_refl|reflexivity].
Qed.

Lemma through_settle (tasks : list AgentTask) (order : list nat) :
  ∀ st,
    (∀ t, In t tasks -> registered (task_id t) st) ->
    ∃ snapshots,
      notifiedIn st (through (settle tasks) order st) snapshots
      ∧ length snapshots
        = list_sum (List.map (fun i => settleRounds (nth_error tasks i)) order).
Proof.
  induction order as [|i order IH]; intros st Hreg.
  - exists []. split; [apply notifiedIn_refl|reflexivity].
  - change (through (settle tasks) (i :: order) st)
      with (through (settle tasks) order (settle tasks i st)).
    destruct (settle_notifies tasks i st Hreg) as (s1 & Hs1 & Hl1).
    destruct (IH (settle tasks i st)) as (s2 & Hs2 & Hl2).
    { intros t' Hin. apply settle_registered. now apply Hreg. }
    exists (s1 ++ s2). split; [eapply notifiedIn_trans; eassumption|].
    rewrite length_app, Hl1, Hl2. reflexivity.
Qed.

Lemma through_preserves {A S} (P : S -> Prop) (f : A -> S -> S) (l : list A) :
  (∀ x s, P s -> P (f x s)) -> ∀ s, P s -> P (through f l s).
Proof.
  intros Hf. induction l as [|x l IH]; intros s Hs; [exact Hs|].
  apply (IH (f x s)). now apply Hf.
Qed.

Lemma list_sum_Permutation (l l' : list nat) :
  Permutation l l' -> list_sum l = list_sum l'.
Proof. induction 1; simpl; lia. Qed.

Lemma settleRounds_in_order (pre l : list AgentTask) :
  List.map (fun i => settleRounds (nth_error (pre ++ l) i)) (seq (length pre) (length l))
  = List.map (fun t => settleRounds (Some t)) l.
Proof.
  revert pre. induction l as [|t l IH]; intros pre; [reflexivity|].
  cbn [length seq List.map]. f_equal.
  - rewrite nth_error_app2 by lia. now rewrite Nat.sub_diag.
  - specialize (IH (pre ++ [t])). rewrite <- app_assoc, length_app in IH.
    simpl in IH. rewrite Nat.add_1_r in IH. exact IH.
Qed.

Lemma two_updates_each (l : list AgentTask) :
  list_sum (List.map startRounds l)
  + list_sum (List.map (fun t => settleRounds (Some t)) l) = 2 * length l.
Proof.
  induction l as [|t l IH]; [reflexivity|].
  cbn [List.map list_sum fold_right length]. fold (list_sum (List.map startRounds l)).
  fold (list_sum (List.map (fun t => settleRounds (Some t)) l)).
  unfold startRounds at 1, settleRounds at 1. destruct (task t); lia.
Qed.

End Notifications.

(** X12: [runParallelAgents] notifies the listeners in rounds, each
    round calling every listener, in the order of subscription, with the
    same snapshot. For [n] tasks it makes exactly [3 n] rounds, whatever
    the tasks do, whether or not ids repeat and in whatever order the
    promises settle; it changes no subscription; and the last round
    carries the agents as the orchestrator holds them when the batch is
    over. *)
Theorem runParallelAgents_notifies
    (tasks : list Orchestrator.AgentTask) (order : list nat)
    (st : Orchestrator.State) :
  Permutation order (seq 0 (length tasks)) ->
  let st' := snd (Orchestrator.runParallelAgents tasks order st) in
  Orchestrator.listeners st' = Orchestrator.listeners st
  ∧ ∃ snapshots,
      Orchestrator.notified st'
      = Orchestrator.notified st ++ rounds (Orchestrator.listeners st) snapshots
      ∧ length snapshots = 3 * length tasks
      ∧ length (Orchestrator.notified st')
        = length (Orchestrator.notified st)
          + 3 * length tasks * length (Orchestrator.listeners st)
      ∧ (tasks <> [] -> last snapshots = Some (Orchestrator.getAgents st')).
Proof.
  intros Horder st'. unfold st', Orchestrator.runParallelAgents. simpl.
  destruct (through_register tasks st) as (Hreg & s1 & Hs1 & Hl1).
  set (st1 := Orchestrator.through Orchestrator.register tasks st) in *.
  assert (Hreg1 : ∀ t, In t tasks -> registered (Orchestrator.task_id t) st1)
    by (intros t Hin; apply Hreg; right; now apply in_map).
  destruct (through_start tasks st1 Hreg1) as (s2 & Hs2 & Hl2).
  set (st2 := Orchestrator.through Orchestrator.start tasks st1) in *.
  assert (Hreg2 : ∀ t, In t tasks -> registered (Orchestrator.task_id t) st2).
  { intros t Hin. unfold st2.
    apply (through_preserves (registered (Orchestrator.task_id t)));
      [|now apply Hreg1].
    intros t' s Hs. now apply start_registered. }
  destruct (through_settle tasks order st2 Hreg2) as (s3 & Hs3 & Hl3).
  pose proof (notifiedIn_trans _ _ _ _ _ (notifiedIn_trans _ _ _ _ _ Hs1 Hs2) Hs3)
    as (Hlisteners & Hnotified & Hlast).
  assert (Hlen : length ((s1 ++ s2) ++ s3) = 3 * length tasks).
  { rewrite !length_app, Hl1, Hl2, Hl3.
    rewrite (list_sum_Permutation _ _
               (Permutation_map (fun i => settleRounds (nth_error tasks i)) Horder)).
    pose proof (settleRounds_in_order [] tasks) as Hseq. cbn [app length] in Hseq.
    rewrite Hseq.
    pose proof (two_updates_each tasks). lia. }
  split; [exact Hlisteners|]. exists ((s1 ++ s2) ++ s3).
  split; [exact Hnotified|]. split; [exact Hlen|]. split.
  - rewrite Hnotified, length_app, rounds_length, Hlen. reflexivity.
  - intros Hne. destruct ((s1 ++ s2) ++ s3) eqn:E; [|exact Hlast].
    destruct tasks; [congruence|]. simpl in Hlen. lia.
Qed.

Lemma runParallelAgents_notifies_witness :
  let st' :=
    snd (Orchestrator.runParallelAgents Batches.clashing [2; 0; 1] Batches.fresh) in
  Orchestrator.listeners st' = [0]
  ∧ length (Orchestrator.notified st') = 9.
Proof.
  destruct (runParallelAgents_notifies Batches.clashing [2; 0; 1] Batches.fresh)
    as (Hlisteners & snapshots & _ & _ & Hcount & _).
  - apply Permutation_sym. simpl.
    apply (perm_trans (perm_skip 0 (perm_swap 2 1 []))). apply perm_swap.
  - split; [exact Hlisteners | exact Hcount].
Defined.

(* ===================================================================== *)
(** ** LiteLLM: decoding the event stream *)
(* ===================================================================== *)

Lemma split_go_nonempty (sep : N) (s : jsstring) :
  ∀ cur, split_go sep cur s <> [].
Proof.
  induction s as [|x s IH]; intros cur; simpl; [discriminate|].
  destruct (N.eqb x sep); [discriminate | apply IH].
Qed.

(** Splitting a text that is still growing: the lines before the last
    are final, and the last is carried on. *)
Lemma split_go_app (sep : N) (a b : jsstring) :
  ∀ cur,
    split_go sep cur (a ++ b)
    = removelast (split_go sep cur a)
      ++ split_go sep (rev (List.last (split_go sep cur a) [])) b.
Proof.
  induction a as [|x a IH]; intros cur.
  - simpl. now rewrite rev_involutive.
  - cbn [app split_go]. destruct (N.eqb x sep).
    + rewrite IH.
      pose proof (split_go_nonempty sep a []) as Hne.
      destruct (split_go sep [] a) as [|l ls] eqn:E; [congruence|].
      reflexivity.
    + apply IH.
Qed.

Lemma split_go_no_sep (sep : N) (s : jsstring) :
  ∀ cur, ¬ In sep s -> split_go sep cur s = [rev (rev s ++ cur)].
Proof.
  induction s as [|x s IH]; intros cur Hno; simpl.
  - reflexivity.
  - destruct (N.eqb x sep) eqn:E.
    + apply N.eqb_eq in E. simpl in Hno. tauto.
    + rewrite IH by (simpl in Hno; tauto). now rewrite <- app_assoc.
Qed.

(** No line of a split holds the separator. *)
Lemma split_go_lines (sep : N) (s : jsstring) :
  ∀ cur line, ¬ In sep cur -> In line (split_go sep cur s) -> ¬ In sep line.
Proof.
  induction s as [|x s IH]; intros cur line Hcur Hin; simpl in Hin.
  - destruct Hin as [<-|[]]. now rewrite <- in_rev.
  - destruct (N.eqb x sep) eqn:E.
    + destruct Hin as [<-|Hin]; [now rewrite <- in_rev|].
      apply (IH [] line); [intros []|exact Hin].
    + apply (IH (x :: cur) line); [|exact Hin].
      apply N.eqb_neq in E. simpl. intros [H|H]; [congruence|tauto].
Qed.

Lemma last_In {A} (l : list A) (d : A) : l <> [] -> In (List.last l d) l.
Proof.
  induction l as [|x [|y l] IH]; intros Hne; [congruence|now left|].
  right. apply IH. discriminate.
Qed.

(** The line carried on, put before what comes next, is split as if
    the text had come in one piece. *)
Lemma split_app (sep : N) (a b : jsstring) :
  split sep (a ++ b)
  = removelast (split sep a) ++ split sep (List.last (split sep a) [] ++ b).
Proof.
  unfold split. rewrite split_go_app. f_equal.
  assert (Hno : ¬ In sep (List.last (split_go sep [] a) [])).
  { apply (split_go_lines sep a []); [intros []|].
    apply last_In, split_go_nonempty. }
  set (carried := List.last (split_go sep [] a) []) in *.
  rewrite (split_go_app sep carried b []).
  rewrite (split_go_no_sep sep carried [] Hno). simpl.
  now rewrite app_nil_r, rev_involutive.
Qed.

Section EventStream.

Variable JSON_parse : jsstring -> completion json.

Lemma readLoop_lines (pieces : list jsstring) :
  ∀ buffer,
    ¬ In 10%N buffer ->
    LiteLLM.readLoop JSON_parse buffer pieces
    = flat_map (LiteLLM.sseLine JSON_parse)
        (removelast (split 10%N (buffer ++ concat pieces))).
Proof.
  induction pieces as [|piece pieces IH]; intros buffer Hbuffer.
  - simpl. rewrite app_nil_r. unfold split.
    now rewrite (split_go_no_sep 10%N buffer [] Hbuffer).
  - cbn [LiteLLM.readLoop concat]. unfold LiteLLM.takeLines.
    rewrite IH.
    + rewrite app_assoc, (split_app 10%N (buffer ++ piece)).
      rewrite removelast_app by apply split_go_nonempty.
      now rewrite flat_map_app.
    + apply (split_go_lines 10%N (buffer ++ piece) []); [intros []|].
      apply last_In, split_go_nonempty.
Qed.

Lemma sseLine_truthy (line : jsstring) (v : json) :
  In v (LiteLLM.sseLine JSON_parse line) -> truthy (Some v) = true.
Proof.
  unfold LiteLLM.sseLine.
  destruct (negb _ || _); [intros []|].
  destruct (stripPrefix _ _) as [payload|]; [|intros []].
  destruct (catching _ _) as [[content|]|e]; try (intros []).
  destruct (truthy (Some content)) eqn:E; [|intros []].
  now intros [<-|[]].
Qed.

(** X13: what [chatCompletionStream] yields depends on the text of the
    body only, not on how the network cuts it into pieces: it is what
    the lines of the whole text yield, one after the other, the text
    after the last line feed left out. So a last event that no line feed
    ends is never delivered, and no value yielded is falsy (an empty
    [content] is skipped). *)
Theorem chatCompletionStream_by_lines (pieces : list jsstring) :
  LiteLLM.chatCompletionStream JSON_parse pieces
  = flat_map (LiteLLM.sseLine JSON_parse) (removelast (split 10%N (concat pieces)))
  ∧ (∀ pieces', concat pieces' = concat pieces ->
       LiteLLM.chatCompletionStream JSON_parse pieces'
       = LiteLLM.chatCompletionStream JSON_parse pieces)
  ∧ (∀ tail, ¬ In 10%N tail ->
       LiteLLM.chatCompletionStream JSON_parse (pieces ++ [tail])
       = LiteLLM.chatCompletionStream JSON_parse pieces)
  ∧ (∀ v, In v (LiteLLM.chatCompletionStream JSON_parse pieces) ->
          truthy (Some v) = true).
Proof.
  assert (Hlines : ∀ ps, LiteLLM.chatCompletionStream JSON_parse ps
                         = flat_map (LiteLLM.sseLine JSON_parse)
                             (removelast (split 10%N (concat ps)))).
  { intros ps. unfold LiteLLM.chatCompletionStream.
    now rewrite readLoop_lines by (intros []). }
  split; [apply Hlines|]. split; [|split].
  - intros pieces' Hsame. now rewrite !Hlines, Hsame.
  - intros tail Htail. rewrite !Hlines, concat_app. simpl. rewrite app_nil_r.
    rewrite split_app.
    assert (Hcarried : ¬ In 10%N (List.last (split 10%N (concat pieces)) [])).
    { apply (split_go_lines 10%N (concat pieces) []); [intros []|].
      apply last_In, split_go_nonempty. }
    set (carried := List.last (split 10%N (concat pieces)) []) in *.
    assert (Hone : ∃ line, split 10%N (carried ++ tail) = [line]).
    { unfold split. rewrite split_go_no_sep; [eexists; reflexivity|].
      rewrite in_app_iff. tauto. }
    destruct Hone as [line ->].
    rewrite removelast_app by discriminate. simpl. now rewrite app_nil_r.
  - intros v Hin. rewrite Hlines in Hin. apply in_flat_map in Hin as (line & _ & Hin).
    now apply sseLine_truthy in Hin.
Qed.

End EventStream.

Lemma chatCompletionStream_by_lines_witness :
  LiteLLM.chatCompletionStream JSON_parse_ref
    [firstn 20 EventSamples.body; skipn 20 EventSamples.body]
  = LiteLLM.chatCompletionStream JSON_parse_ref [EventSamples.body]
  ∧ LiteLLM.chatCompletionStream JSON_parse_ref [EventSamples.body]
    = [JStr (u "Hi")].
Proof.
  split; [|vm_compute; reflexivity].
  apply (proj1 (proj2 (chatCompletionStream_by_lines JSON_parse_ref
                         [EventSamples.body]))).
  vm_compute. reflexivity.
Defined.

(* ===================================================================== *)
(** ** Settings: which model an agent ends up with *)
(* ===================================================================== *)

Lemma Set_has_spec (set : list jsstring) (v : jsvalue) :
  Settings.Set_has set v = true <-> ∃ s, v = Some (JStr s) ∧ In s set.
Proof.
  unfold Settings.Set_has. split.
  - destruct v as [[| | |s| |]|]; try discriminate. intros H.
    apply existsb_exists in H as (s' & Hin & Heq).
    apply jsstring_eqb_eq in Heq as <-. eauto.
  - intros (s & -> & Hin). apply existsb_exists. exists s.
    split; [exact Hin | apply jsstring_eqb_refl].
Qed.

(** X14: whatever the stored settings hold, the model
    [normalizeAgentsForProvider] gives an agent is a model the provider
    offers and is not a legacy model; it is the provider's default when
    the reset is forced, and the stored model when that is offered and
    not legacy and no reset is forced. Under [google] the offered model
    [gemini-2.0-flash-001] is legacy, so a stored choice of it is
    never kept. *)
Theorem normalizeAgentsForProvider_models
    (agents : jsvalue) (provider : Settings.LLMProvider) (forceReset : bool)
    (agent : Settings.AgentType) :
  let existing := Optional.optProp (Optional.optProp agents (Settings.agentKey agent))
                    "model" in
  ∃ model,
    Settings.agent_model
      (Settings.normalizeAgentsForProvider agents provider forceReset agent)
    = Some (JStr model)
    ∧ In model (Settings.models provider)
    ∧ ¬ In model (Settings.LEGACY_PROVIDER_MODELS provider)
    ∧ (forceReset = true -> model = Settings.defaultModel provider)
    ∧ (forceReset = false ->
       (∀ s, existing = Some (JStr s) -> In s (Settings.models provider) ->
             ¬ In s (Settings.LEGACY_PROVIDER_MODELS provider) -> model = s)
       ∧ ((¬ ∃ s, existing = Some (JStr s)
                  ∧ In s (Settings.models provider)
                  ∧ ¬ In s (Settings.LEGACY_PROVIDER_MODELS provider)) ->
          model = Settings.defaultModel provider))
    ∧ (provider = Settings.google ->
       In (u "gemini-2.0-flash-001") (Settings.models provider)
       ∧ model <> u "gemini-2.0-flash-001").
Proof.
  intros existing.
  assert (Hdefault : In (Settings.defaultModel provider) (Settings.models provider)
                     ∧ ¬ In (Settings.defaultModel provider)
                         (Settings.LEGACY_PROVIDER_MODELS provider)).
  { destruct provider; split; simpl; intuition discriminate. }
  unfold Settings.normalizeAgentsForProvider, Settings.mapAgent. fold existing.
  cbn [Settings.agent_model Settings.buildAgentDefaults].
  destruct (Settings.Set_has (Settings.models provider) existing) eqn:Hoffered.
  - apply Set_has_spec in Hoffered as (s & Hs & Hin).
    assert (Htruthy : truthy existing = true).
    { rewrite Hs. destruct s; [|reflexivity].
      destruct provider; simpl in Hin; intuition discriminate. }
    rewrite Htruthy.
    destruct (Settings.Set_has (Settings.LEGACY_PROVIDER_MODELS provider) existing)
      eqn:Hlegacy.
    + apply Set_has_spec in Hlegacy as (s' & Hs' & Hin').
      assert (s' = s) by congruence. subst s'.
      rewrite !andb_false_r.
      exists (Settings.defaultModel provider).
      split; [reflexivity|]. split; [tauto|]. split; [tauto|].
      split; [reflexivity|]. split.
      * intros _. split; [|reflexivity].
        intros s'' Hs'' _ Hnot. exfalso. apply Hnot. congruence.
      * intros ->. split; [now left|]. simpl. discriminate.
    + assert (Hnot : ¬ In s (Settings.LEGACY_PROVIDER_MODELS provider)).
      { intros Hin'. enough (Settings.Set_has
                               (Settings.LEGACY_PROVIDER_MODELS provider) existing = true)
          by congruence.
        apply Set_has_spec. eauto. }
      destruct forceReset; simpl.
      * exists (Settings.defaultModel provider).
        split; [reflexivity|]. split; [tauto|]. split; [tauto|].
        split; [reflexivity|]. split; [discriminate|].
        intros ->. split; [now left|]. simpl. discriminate.
      * exists s. split; [exact Hs|]. split; [exact Hin|]. split; [exact Hnot|].
        split; [discriminate|]. split.
        -- intros _. split; [intros s' Hs' _ _; congruence|].
           intros Hnone. exfalso. apply Hnone. eauto.
        -- intros ->. split; [now left|]. intros ->. apply Hnot. now left.
  - rewrite !andb_false_r. simpl.
    exists (Settings.defaultModel provider).
    split; [reflexivity|]. split; [tauto|]. split; [tauto|].
    split; [reflexivity|]. split.
    + intros _. split; [|reflexivity].
      intros s Hs Hin _. exfalso.
      enough (Settings.Set_has (Settings.models provider) existing = true)
        by congruence.
      apply Set_has_spec. eauto.
    + intros ->. split; [now left|]. simpl. discriminate.
Qed.

Lemma mapAgent_model
    (agents : jsvalue) (provider : Settings.LLMProvider) (forceReset : bool)
    (agent : Settings.AgentType) :
  ∃ model,
    Settings.agent_model (Settings.mapAgent agents provider forceReset agent)
    = Some (JStr model)
    ∧ In model (Settings.models provider)
    ∧ ¬ In model (Settings.LEGACY_PROVIDER_MODELS provider)
    ∧ (forceReset = true -> model = Settings.defaultModel provider).
Proof.
  assert (Hdefault : In (Settings.defaultModel provider) (Settings.models provider)
                     ∧ ¬ In (Settings.defaultModel provider)
                         (Settings.LEGACY_PROVIDER_MODELS provider)).
  { destruct provider; split; simpl; intuition discriminate. }
  unfold Settings.mapAgent.
  set (existing := Optional.optProp _ "model").
  cbn [Settings.agent_model Settings.buildAgentDefaults].
  destruct (negb forceReset && truthy existing
            && Settings.Set_has (Settings.models provider) existing
            && negb (if truthy existing
                     then Settings.Set_has (Settings.LEGACY_PROVIDER_MODELS provider)
                            existing
                     else false)) eqn:Hreuse.
  - apply andb_prop in Hreuse as [Hreuse Hlegacy].
    apply andb_prop in Hreuse as [Hreuse Hoffered].
    apply andb_prop in Hreuse as [Hforce Htruthy].
    rewrite Htruthy in Hlegacy.
    apply Set_has_spec in Hoffered as (s & Hs & Hin).
    exists s. split; [exact Hs|]. split; [exact Hin|]. split.
    + intros Hin'. apply negb_true_iff in Hlegacy.
      enough (Settings.Set_has (Settings.LEGACY_PROVIDER_MODELS provider) existing
              = true) by congruence.
      apply Set_has_spec. eauto.
    + intros ->. discriminate.
  - exists (Settings.defaultModel provider). tauto.
Qed.

Lemma asObject_lookup (agents : Settings.AgentType -> Settings.AgentSettings)
    (agent : Settings.AgentType) :
  Optional.optProp (Settings.asObject agents) (Settings.agentKey agent)
  = Some (JObj (Settings.fields (agents agent))).
Proof. destruct agent; reflexivity. Qed.

Lemma mapAgent_shape (agents : jsvalue) (provider : Settings.LLMProvider)
    (forceReset : bool) (agent : Settings.AgentType) :
  ∃ model instructions,
    Settings.mapAgent agents provider forceReset agent
    = {| Settings.agent_model := Some (JStr model);
         Settings.agent_instructions := Some instructions |}
    ∧ truthy (Some instructions) = true
    ∧ In model (Settings.models provider)
    ∧ ¬ In model (Settings.LEGACY_PROVIDER_MODELS provider)
    ∧ (forceReset = true -> model = Settings.defaultModel provider).
Proof.
  destruct (mapAgent_model agents provider forceReset agent)
    as (model & Hmodel & Hin & Hnot & Hreset).
  unfold Settings.mapAgent in *. cbn [Settings.agent_model] in Hmodel.
  set (instructions := Optional.optProp _ "instructions").
  exists model.
  exists (match or_else instructions (Some (JObj [])) with
          | Some v => v
          | None => JNull
          end).
  unfold or_else. destruct (truthy instructions) eqn:E.
  - destruct instructions as [v|]; [|discriminate]. rewrite Hmodel. auto.
  - rewrite Hmodel. auto.
Qed.

(** X15: the settings [normalizeAgentsForProvider] returns are stable:
    normalised again for the same provider they do not change. When
    [setProvider] normalises them for another provider, with the reset
    forced, every agent gets the default model of that provider and
    keeps its instructions. *)
Theorem normalizeAgentsForProvider_stable
    (agents : jsvalue) (provider provider' : Settings.LLMProvider)
    (forceReset : bool) (agent : Settings.AgentType) :
  let settings := Settings.normalizeAgentsForProvider agents provider forceReset in
  Settings.normalizeAgentsForProvider (Settings.asObject settings) provider false agent
  = settings agent
  ∧ Settings.normalizeAgentsForProvider (Settings.asObject settings) provider' true agent
    = {| Settings.agent_model := Some (JStr (Settings.defaultModel provider'));
         Settings.agent_instructions := Settings.agent_instructions (settings agent) |}.
Proof.
  intros settings.
  destruct (mapAgent_shape agents provider forceReset agent)
    as (model & instructions & Hshape & Htruthy & Hin & Hnot & _).
  fold (Settings.normalizeAgentsForProvider agents provider forceReset) in Hshape.
  fold settings in Hshape.
  assert (Hfields : ∀ p f,
    Settings.normalizeAgentsForProvider (Settings.asObject settings) p f agent
    = {| Settings.agent_model :=
           if negb f && truthy (Some (JStr model))
              && Settings.Set_has (Settings.models p) (Some (JStr model))
              && negb (if truthy (Some (JStr model))
                       then Settings.Set_has (Settings.LEGACY_PROVIDER_MODELS p)
                              (Some (JStr model))
                       else false)
           then Some (JStr model)
           else Some (JStr (Settings.defaultModel p));
         Settings.agent_instructions := Some instructions |}).
  { intros p f. unfold Settings.normalizeAgentsForProvider, Settings.mapAgent.
    rewrite asObject_lookup, Hshape.
    change (Optional.optProp (Some (JObj (Settings.fields _))) "model")
      with (Some (JStr model)).
    change (Optional.optProp (Some (JObj (Settings.fields _))) "instructions")
      with (Some instructions).
    unfold or_else. now rewrite Htruthy. }
  split.
  - rewrite Hfields, Hshape.
    assert (Hoffered : Settings.Set_has (Settings.models provider) (Some (JStr model))
                       = true) by (apply Set_has_spec; eauto).
    assert (Hlegacy : Settings.Set_has (Settings.LEGACY_PROVIDER_MODELS provider)
                        (Some (JStr model)) = false).
    { destruct (Settings.Set_has (Settings.LEGACY_PROVIDER_MODELS provider)
                  (Some (JStr model))) eqn:E; [|reflexivity].
      apply Set_has_spec in E as (s & [= <-] & Hs). contradiction. }
    assert (Hnonempty : truthy (Some (JStr model)) = true).
    { destruct model; [|reflexivity].
      destruct provider; simpl in Hin; intuition discriminate. }
    now rewrite Hoffered, Hlegacy, Hnonempty.
  - rewrite Hfields, Hshape. reflexivity.
Qed.

(* ===================================================================== *)
(** ** Trimming, and the tags of the planner *)
(* ===================================================================== *)

Lemma trimStart_idem (s : jsstring) : trimStart (trimStart s) = trimStart s.
Proof.
  induction s as [|x s IH]; [reflexivity|]. simpl.
  destruct (isWhiteSpace x) eqn:E; [exact IH|]. simpl. now rewrite E.
Qed.

Lemma trimStart_length (s : jsstring) : length (trimStart s) <= length s.
Proof.
  induction s as [|x s IH]; [reflexivity|]. simpl.
  destruct (isWhiteSpace x); simpl; lia.
Qed.

(** A string that [trimStart] leaves alone does not start with white
    space. *)
Lemma trimStart_fixed (x : N) (s : jsstring) :
  trimStart (x :: s) = x :: s -> isWhiteSpace x = false.
Proof.
  simpl. destruct (isWhiteSpace x); [|reflexivity]. intros H.
  pose proof (trimStart_length s) as Hlen. rewrite H in Hlen. simpl in Hlen. lia.
Qed.

Lemma trimStart_snoc (a : jsstring) (x : N) :
  trimStart (a ++ [x])
  = match trimStart a with
    | [] => trimStart [x]
    | _ => trimStart a ++ [x]
    end.
Proof.
  induction a as [|y a IH]; [reflexivity|]. simpl.
  destruct (isWhiteSpace y); [exact IH | reflexivity].
Qed.

Lemma trimEnd_cons (x : N) (s : jsstring) :
  trimEnd (x :: s)
  = match trimEnd s with
    | [] => if isWhiteSpace x then [] else [x]
    | t => x :: t
    end.
Proof.
  unfold trimEnd. simpl. rewrite trimStart_snoc.
  destruct (trimStart (rev s)) as [|y t] eqn:E.
  - simpl. now destruct (isWhiteSpace x).
  - rewrite rev_app_distr. simpl.
    destruct (rev t ++ [y]) eqn:E'; [now destruct (rev t)|reflexivity].
Qed.

Lemma trimEnd_idem (s : jsstring) : trimEnd (trimEnd s) = trimEnd s.
Proof. unfold trimEnd. now rewrite rev_involutive, trimStart_idem. Qed.

Lemma trimStart_trimEnd (s : jsstring) :
  trimStart s = s -> trimStart (trimEnd s) = trimEnd s.
Proof.
  destruct s as [|x s]; [reflexivity|]. intros Hfixed.
  apply trimStart_fixed in Hfixed. rewrite trimEnd_cons.
  destruct (trimEnd s); rewrite ?Hfixed; simpl; now rewrite Hfixed.
Qed.

(** [trim] leaves nothing to trim, at either end. *)
Lemma trim_trimmed (s : jsstring) :
  trimStart (trim s) = trim s ∧ trimEnd (trim s) = trim s.
Proof.
  unfold trim. split.
  - apply trimStart_trimEnd, trimStart_idem.
  - apply trimEnd_idem.
Qed.

Lemma trim_idem (s : jsstring) : trim (trim s) = trim s.
Proof.
  destruct (trim_trimmed s) as [Hstart Hend].
  unfold trim at 1. now rewrite Hstart.
Qed.

Lemma trimStart_In (c : N) (s : jsstring) : In c (trimStart s) -> In c s.
Proof.
  induction s as [|x s IH]; [intros []|]. simpl.
  destruct (isWhiteSpace x); [right; now apply IH | intros H; exact H].
Qed.

Lemma trim_In (c : N) (s : jsstring) : In c (trim s) -> In c s.
Proof.
  unfold trim, trimEnd. intros H. apply in_rev, trimStart_In, in_rev in H.
  now apply trimStart_In.
Qed.

Lemma split_sep (sep : N) (a b : jsstring) :
  ¬ In sep a -> split sep (a ++ sep :: b) = a :: split sep b.
Proof.
  intros Hno. unfold split. rewrite split_go_app.
  rewrite (split_go_no_sep sep a [] Hno). simpl.
  now rewrite app_nil_r, !rev_involutive, N.eqb_refl.
Qed.

Lemma split_one (sep : N) (a : jsstring) : ¬ In sep a -> split sep a = [a].
Proof.
  intros Hno. unfold split. rewrite (split_go_no_sep sep a [] Hno).
  now rewrite app_nil_r, rev_involutive.
Qed.

Lemma tagsOf_clean (text tag : jsstring) :
  In tag (PlannerCalls.tagsOf text) -> cleanTag tag.
Proof.
  unfold PlannerCalls.tagsOf. intros H.
  apply filter_In in H as [H Hlen]. apply in_map_iff in H as (piece & <- & Hpiece).
  split; [|split].
  - destruct (trim piece); [discriminate | discriminate].
  - intros Hcomma. apply trim_In in Hcomma.
    now apply (split_go_lines 44%N text [] piece (fun H => H)) in Hpiece.
  - apply trim_idem.
Qed.

(** A clean tag, after a blank or not, is what [trim] gives back. *)
Lemma trim_padded (pad tag : jsstring) :
  (∀ x, In x pad -> x = 32%N) -> trim tag = tag -> trim (pad ++ tag) = tag.
Proof.
  intros Hpad Htag.
  assert (Hstart : trimStart (pad ++ tag) = trimStart tag).
  { induction pad as [|x pad IH]; [reflexivity|]. simpl.
    rewrite (Hpad x (or_introl eq_refl)). simpl. apply IH.
    intros y Hy. apply Hpad. now right. }
  unfold trim. rewrite Hstart. exact Htag.
Qed.

Lemma tags_of_joined (tags : list jsstring) :
  ∀ tag pad,
    (∀ x, In x pad -> x = 32%N) ->
    (∀ t, In t (tag :: tags) -> cleanTag t) ->
    List.map trim (split 44%N (pad ++ PlannerCalls.join (u ", ") (tag :: tags)))
    = tag :: tags.
Proof.
  induction tags as [|tag' tags IH]; intros tag pad Hpad Hclean.
  - destruct (Hclean tag (or_introl eq_refl)) as (_ & Hcomma & Htrim).
    cbn [PlannerCalls.join]. rewrite split_one.
    + simpl. now rewrite trim_padded.
    + rewrite in_app_iff. intros [H|H]; [|tauto].
      apply Hpad in H. discriminate.
  - destruct (Hclean tag (or_introl eq_refl)) as (_ & Hcomma & Htrim).
    change (PlannerCalls.join (u ", ") (tag :: tag' :: tags))
      with (tag ++ 44%N :: [32%N] ++ PlannerCalls.join (u ", ") (tag' :: tags)).
    rewrite app_assoc, split_sep.
    + cbn [List.map]. rewrite trim_padded by assumption. f_equal.
      apply IH.
      * intros x [<-|[]]. reflexivity.
      * intros t Ht. apply Hclean. now right.
    + rewrite in_app_iff. intros [H|H]; [|tauto].
      apply Hpad in H. discriminate.
Qed.

(** X16: the tags [generateMetadata] returns are clean: none is empty,
    none holds a comma, none starts or ends with white space. And clean
    tags survive the way the framework prompts spell them: joined with
    [', '] and read again as [generateMetadata] reads a response, they
    are the same tags, in the same order. *)
Theorem generateMetadata_tags
    (transcript : jsstring) (r : PlannerCalls.Resolved)
    (response : completion CompletionResult) (log : AgentLog) :
  (∀ tags log',
     PlannerCalls.generateMetadata transcript r response log = (Returned tags, log') ->
     (∀ tag, In tag tags -> cleanTag tag)
     ∧ PlannerCalls.tagsOf (PlannerCalls.join (u ", ") tags) = tags)
  ∧ (∀ tags, (∀ tag, In tag tags -> cleanTag tag) ->
       PlannerCalls.tagsOf (PlannerCalls.join (u ", ") tags) = tags).
Proof.
  assert (Hround : ∀ tags, (∀ tag, In tag tags -> cleanTag tag) ->
            PlannerCalls.tagsOf (PlannerCalls.join (u ", ") tags) = tags).
  { intros [|tag tags] Hclean; [reflexivity|].
    unfold PlannerCalls.tagsOf.
    pose proof (tags_of_joined tags tag []
                  (fun x (H : In x []) => match H with end) Hclean) as Hjoined.
    cbn [app] in Hjoined. rewrite Hjoined.
    apply forallb_filter_id, forallb_forall. intros t Ht.
    destruct (Hclean t Ht) as (Hne & _). now destruct t. }
  split; [|exact Hround].
  intros tags log' Hrun.
  assert (Htags : ∃ text, tags = PlannerCalls.tagsOf text).
  { unfold PlannerCalls.generateMetadata, PlannerCalls.completionOperation,
      bind, tryCatch, logRequest, logResponse, logError, await, ret, throw in Hrun.
    destruct response as [result|e]; simpl in Hrun; [|discriminate].
    injection Hrun as <- _. eauto. }
  destruct Htags as [text ->].
  assert (Hclean : ∀ tag, In tag (PlannerCalls.tagsOf text) -> cleanTag tag)
    by (intros tag; apply tagsOf_clean).
  split; [exact Hclean | now apply Hround].
Qed.

Lemma generateMetadata_tags_witness :
  ∃ tags log',
    PlannerCalls.generateMetadata (u "Hello")
      {| PlannerCalls.instruction := u "Tag it."; PlannerCalls.agentModel := u "m";
         PlannerCalls.started := 10%Z; PlannerCalls.ended := 25%Z |}
      (Returned {| content := u " sales, pricing ,, Q3 "; usage := None |}) []
    = (Returned tags, log')
    ∧ tags = [u "sales"; u "pricing"; u "Q3"]
    ∧ (∀ tag, In tag tags -> cleanTag tag)
    ∧ PlannerCalls.tagsOf (PlannerCalls.join (u ", ") tags) = tags.
Proof.
  eexists. eexists. split; [reflexivity|]. split; [reflexivity|].
  apply (proj1 (generateMetadata_tags (u "Hello")
                  {| PlannerCalls.instruction := u "Tag it.";
                     PlannerCalls.agentModel := u "m";
                     PlannerCalls.started := 10%Z; PlannerCalls.ended := 25%Z |}
                  (Returned {| content := u " sales, pricing ,, Q3 "; usage := None |})
                  []) _ _ eq_refl).
Defined.

(* ===================================================================== *)
(** ** Planner: the three calls of [generatePlannerOutput] *)
(* ===================================================================== *)

Lemma requests_app (log1 log2 : AgentLog) :
  requests (log1 ++ log2) = requests log1 ++ requests log2.
Proof. unfold requests. apply omap_app. Qed.

(** One call: the log gains a request entry and one terminal entry, a
    response entry if the completion is returned and an error entry, with
    the message of what was thrown, if not. *)
Lemma completionOperation_run {A} (call : Call)
    (response : completion CompletionResult) (finish : CompletionResult -> A)
    (log : AgentLog) :
  PlannerCalls.completionOperation call response finish log
  = match response with
    | Returned result =>
        (Returned (finish result),
         log ++ [RequestEntry (length log) (u "Planner Agent") (u "planner")
                   (systemPrompt call) (userPrompt call) (model call);
                 ResponseEntry (length log) (content result)
                   (endTime call - startTime call)%Z (tokensOf result)])
    | Thrown e => (Thrown e, failureLog "Planner Agent" "planner" call e log)
    end.
Proof.
  unfold PlannerCalls.completionOperation, failureLog, bind, tryCatch, logRequest,
    logResponse, logError, await, ret, throw.
  destruct response; simpl; now rewrite <- app_assoc.
Qed.

(** X17: [generatePlannerOutput] makes its three calls one after the
    other and stops at the first that fails. Every request it logs is
    closed by one response or error entry. If it returns, three requests
    were logged, no error, the callbacks were told, in order, exactly
    the three fields of the output, and the prompt of the third request
    carries the context the first call returned. If it throws, it throws
    what the failing call threw, whose message is the one error logged;
    the callbacks of the calls before it have been called, and no
    request was made after it. *)
Theorem generatePlannerOutput_stops_at_failure
    (transcript : jsstring) (r1 r2 r3 : PlannerCalls.Resolved)
    (response1 response2 response3 : completion CompletionResult)
    (log : AgentLog) :
  let '(outcome, log', updates) :=
    PlannerCalls.generatePlannerOutput transcript r1 r2 r3
      response1 response2 response3 log in
  ∃ new,
    log' = log ++ new
    ∧ length (requests new) = length (responses new) + length (errors new)
    ∧ match outcome with
      | Returned out =>
          updates = [PlannerCalls.ContextUpdate (contextUnderstanding out);
                     PlannerCalls.TagsUpdate (metadataTags out);
                     PlannerCalls.ObjectiveUpdate (analysisObjective out)]
          ∧ errors new = []
          ∧ (∃ p1 p2, requests new
                      = [p1; p2;
                         PlannerCalls.proposeObjective_prompt
                           (contextUnderstanding out) transcript])
          ∧ (∀ tag, In tag (metadataTags out) -> cleanTag tag)
      | Thrown e =>
          errors new = [errorMessage e]
          ∧ length (requests new) = S (length updates)
          ∧ nth_error [response1; response2; response3] (length updates)
            = Some (Thrown e)
      end.
Proof.
  unfold PlannerCalls.generatePlannerOutput, PlannerCalls.analyzeContext,
    PlannerCalls.generateMetadata, PlannerCalls.proposeObjective.
  rewrite completionOperation_run.
  destruct response1 as [result1|e1].
  - rewrite completionOperation_run. destruct response2 as [result2|e2].
    + rewrite completionOperation_run. destruct response3 as [result3|e3].
      * eexists. split; [rewrite <- !app_assoc; reflexivity|].
        split; [reflexivity|]. split; [reflexivity|]. split; [reflexivity|].
        split; [eexists; eexists; reflexivity|].
        intros tag. apply tagsOf_clean.
      * eexists. split; [unfold failureLog; rewrite <- !app_assoc; reflexivity|].
        repeat split.
    + eexists. split; [unfold failureLog; rewrite <- !app_assoc; reflexivity|].
      repeat split.
  - eexists. split; [reflexivity|]. repeat split.
Qed.

(* ===================================================================== *)
(** ** Writer: summary and keywords *)
(* ===================================================================== *)

(** X18: [generateSummary] and [generateKeywords] never throw. When the
    completion call fails they log the error and return the placeholder
    sentence and the empty list. When it succeeds they log the response
    and no error, even if the keywords cannot be parsed: then the list is
    empty and nothing in the log tells it from an answer without
    keywords. *)
Theorem writer_helpers_never_throw
    (JSON_parse : jsstring -> completion json) (call : Call)
    (response : completion CompletionResult) (log : AgentLog) :
  (∃ text log',
     WriterCalls.generateSummary call response log = (Returned text, log')
     ∧ match response with
       | Returned result =>
           text = trim (content result)
           ∧ responses log' = responses log ++ [content result]
           ∧ errors log' = errors log
       | Thrown e =>
           text = u "Summary generation failed."
           ∧ log' = failureLog "Writer Agent" "writer" call e log
       end)
  ∧ (∃ keywords log',
       WriterCalls.generateKeywords JSON_parse call response log
       = (Returned keywords, log')
       ∧ match response with
         | Returned result =>
             responses log' = responses log ++ [content result]
             ∧ errors log' = errors log
             ∧ match JSON_parse (trim (content result)) with
               | Returned (JArr items) => keywords = items
               | _ => keywords = []
               end
         | Thrown e =>
             keywords = []
             ∧ log' = failureLog "Writer Agent" "writer" call e log
         end).
Proof.
  unfold WriterCalls.generateSummary, WriterCalls.generateKeywords,
    WriterCalls.parseKeywords, Planner.pure, failureLog, bind, tryCatch,
    logRequest, logResponse, logError, await, ret, throw, catching, cbind.
  destruct response as [result|e]; simpl.
  - split.
    + eexists. eexists. split; [reflexivity|].
      rewrite <- app_assoc, responses_app, errors_app. simpl.
      rewrite app_nil_r. auto.
    + destruct (JSON_parse (trim (content result))) as [[| | | |items|]|e'];
        (eexists; eexists; split; [reflexivity|]);
        rewrite <- app_assoc, responses_app, errors_app; simpl;
        rewrite app_nil_r; auto.
  - split; eexists; eexists; (split; [reflexivity|]);
      rewrite <- app_assoc; auto.
Qed.

(* ===================================================================== *)
(** ** Gap analysis: the legacy parse *)
(* ===================================================================== *)

Lemma gapSegmentIdAt_inj (now : nat -> N) (i j : nat) :
  gapSegmentIdAt now i = gapSegmentIdAt now j -> i = j.
Proof.
  unfold gapSegmentIdAt. intros H. apply app_inv_head in H.
  change (u "-") with [45%N] in H. simpl in H.
  apply split_at_dash in H as [_ H]; try apply decimal_no_dash.
  apply decimal_inj in H. lia.
Qed.

Section LegacyParse.

Variable JSON_parse : jsstring -> completion json.
Variable now : nat -> N.

Lemma legacy_toSegment_stamp (s : json) (i : nat) (seg : FrameworkSegment) :
  LegacyGapAnalysis.toSegment now s i = Returned seg ->
  seg_id seg = gapSegmentIdAt now i ∧ seg_order seg = 999 + i.
Proof.
  unfold LegacyGapAnalysis.toSegment. intros H.
  destruct (getProp (Some s) "title"); cbn [cbind] in H; [|discriminate].
  destruct (getProp (Some s) "objective"); cbn [cbind] in H; [|discriminate].
  destruct (getProp (Some s) "guidance"); cbn [cbind] in H; [|discriminate].
  injection H as <-. split; reflexivity.
Qed.

(** X19: the legacy [parseGapAnalysis]. Without a fenced block, or with
    one that is not JSON, it returns the text as the summary, untouched,
    and no segment. The segments it returns have the orders [999],
    [1000], ... and pairwise distinct ids stamped from the clock and the
    index. But it guards the parse only: a block that parses to
    something that is not an array makes it throw, where
    [parseGapSuggestions] returns the empty list. *)
Theorem parseGapAnalysis_legacy (text : jsstring) (generatedAt : N) :
  ((String_match text false LegacyGapAnalysis.re_legacyFence = None
    ∨ (∃ jsonMatch e,
         String_match text false LegacyGapAnalysis.re_legacyFence = Some jsonMatch
         ∧ JSON_parse (default (u "undefined") (group 1 jsonMatch)) = Thrown e)) ->
   ∃ analysis,
     LegacyGapAnalysis.parseGapAnalysis JSON_parse now text generatedAt
     = Returned analysis
     ∧ summary analysis = text ∧ newSegments analysis = [])
  ∧ (∀ analysis,
       LegacyGapAnalysis.parseGapAnalysis JSON_parse now text generatedAt
       = Returned analysis ->
       (∀ i seg, newSegments analysis !! i = Some seg ->
          seg_order seg = 999 + i ∧ seg_id seg = gapSegmentIdAt now i)
       ∧ (∀ i j seg seg', newSegments analysis !! i = Some seg ->
            newSegments analysis !! j = Some seg' ->
            seg_id seg = seg_id seg' -> i = j))
  ∧ (∀ jsonMatch parsed,
       String_match text false LegacyGapAnalysis.re_legacyFence = Some jsonMatch ->
       JSON_parse (default (u "undefined") (group 1 jsonMatch)) = Returned parsed ->
       (∀ items, parsed <> JArr items) ->
       ∃ e, LegacyGapAnalysis.parseGapAnalysis JSON_parse now text generatedAt
            = Thrown e).
Proof.
  split; [|split].
  - intros Hnone.
    assert (Hextract : LegacyGapAnalysis.extract JSON_parse text = (JArr [], text)).
    { unfold LegacyGapAnalysis.extract.
      destruct Hnone as [-> | (jsonMatch & e & -> & ->)]; reflexivity. }
    unfold LegacyGapAnalysis.parseGapAnalysis. rewrite Hextract. simpl.
    eexists. repeat split.
  - intros analysis Hrun. unfold LegacyGapAnalysis.parseGapAnalysis in Hrun.
    destruct (LegacyGapAnalysis.extract JSON_parse text) as [parsed summaryText].
    destruct (Array_map _ _ _) as [segs|] eqn:Hmap; cbn [cbind] in Hrun;
      [|discriminate].
    injection Hrun as <-. simpl.
    assert (Hstamp : ∀ i seg, segs !! i = Some seg ->
              seg_order seg = 999 + i ∧ seg_id seg = gapSegmentIdAt now i).
    { intros i seg Hi. unfold Array_map in Hmap.
      destruct parsed as [| | | |items|]; try discriminate.
      destruct (mapIndexed_lookup _ _ _ _ Hmap _ _ Hi) as (x & _ & Hx).
      apply legacy_toSegment_stamp in Hx. tauto. }
    split; [exact Hstamp|].
    intros i j seg seg' Hi Hj Heq.
    apply Hstamp in Hi as [_ Hi], Hj as [_ Hj]. rewrite Hi, Hj in Heq.
    now apply gapSegmentIdAt_inj in Heq.
  - intros jsonMatch parsed Hmatch Hparse Hnot.
    unfold LegacyGapAnalysis.parseGapAnalysis, LegacyGapAnalysis.extract.
    rewrite Hmatch, Hparse.
    destruct parsed as [| | | |items|]; simpl; eauto.
    now contradiction (Hnot items).
Qed.

End LegacyParse.

Lemma parseGapAnalysis_legacy_witness :
  (∃ analysis,
     LegacyGapAnalysis.parseGapAnalysis JSON_parse_ref Samples.clock
       Samples.noFence 7%N = Returned analysis
     ∧ summary analysis = Samples.noFence ∧ newSegments analysis = [])
  ∧ (∃ e, LegacyGapAnalysis.parseGapAnalysis JSON_parse_ref Samples.clock
            LegacySamples.objectBlock 7%N = Thrown e)
  ∧ GapAnalysisAgent.parseGapSuggestions JSON_parse_ref Samples.clock
      LegacySamples.objectBlock = Returned [].
Proof.
  split; [|split].
  - apply (proj1 (parseGapAnalysis_legacy JSON_parse_ref Samples.clock
                    Samples.noFence 7%N)).
    left. vm_compute. reflexivity.
  - destruct (String_match LegacySamples.objectBlock false
                LegacyGapAnalysis.re_legacyFence) as [jsonMatch|] eqn:Hmatch;
      [|vm_compute in Hmatch; discriminate Hmatch].
    apply (proj2 (proj2 (parseGapAnalysis_legacy JSON_parse_ref Samples.clock
                           LegacySamples.objectBlock 7%N))
             jsonMatch (JObj [(u "title", JStr (u "Pricing"))]) Hmatch).
    + vm_compute in Hmatch. injection Hmatch as <-. vm_compute. reflexivity.
    + discriminate.
  - vm_compute. reflexivity.
Defined.

(* ===================================================================== *)
(** ** The facade: the model passed on to the provider *)
(* ===================================================================== *)

(** X20: under provider [google], [normalizeModel] strips one leading
    [google/] and no more; any other model, and every model under
    [litellm], is passed on as it is. On the models the settings can
    hand to an agent it changes nothing: they are models the provider
    offers, and none of those [google] offers has the prefix. *)
Theorem normalizeModel_strips_one_prefix (provider : Settings.LLMProvider) :
  (∀ rest, Facade.normalizeModel Settings.google (Some (u "google/" ++ rest))
           = Some rest)
  ∧ (∀ model, model <> [] ->
       provider = Settings.litellm ∨ stripPrefix (u "google/") model = None ->
       Facade.normalizeModel provider (Some model) = Some model)
  ∧ (∀ agents forceReset agent,
       ∃ model,
         Settings.agent_model
           (Settings.normalizeAgentsForProvider agents provider forceReset agent)
         = Some (JStr model)
         ∧ Facade.normalizeModel provider (Some model) = Some model).
Proof.
  split; [|split].
  - intros rest. reflexivity.
  - intros [|x model] Hne Hplain; [congruence|].
    unfold Facade.normalizeModel.
    destruct Hplain as [-> | ->]; [reflexivity|]. now rewrite andb_false_r.
  - intros agents forceReset agent.
    destruct (mapAgent_model agents provider forceReset agent)
      as (model & Hmodel & Hin & Hnot & _).
    exists model. split; [exact Hmodel|].
    destruct provider; simpl in Hin;
      repeat (destruct Hin as [<- | Hin]; [reflexivity|]); destruct Hin.
Qed.

(* ===================================================================== *)
(** ** Critic: what every evaluation satisfies *)
(* ===================================================================== *)

Lemma exec_from_anchored (icase : bool) (r : regex) (s : jsstring) :
  ∀ pos, 0 < pos -> exec_from icase (Seq Bol r) pos s = None.
Proof.
  induction s as [|x s IH]; intros pos Hpos.
  - simpl. destruct pos; [lia | reflexivity].
  - cbn [exec_from m]. destruct pos; [lia|]. simpl. apply IH. lia.
Qed.

(** A greedy [\s*] before a continuation that accepts what is left
    takes all the white space there is. *)
Lemma repeat_spaces (R : Type)
    (body : nat -> jsstring -> captures -> Cont R -> option R)
    (k : Cont R) (res : R) :
  (∀ pos caps k', body pos [] caps k' = None) ->
  (∀ pos x s caps k',
     body pos (x :: s) caps k' = if isWhiteSpace x then k' (S pos) s caps else None) ->
  ∀ s fuel pos caps,
    length s <= fuel ->
    k (pos + (length s - length (trimStart s))) (trimStart s) caps = Some res ->
    repeat R body true k fuel pos s caps = Some res.
Proof.
  intros Hnil Hcons.
  induction s as [|x s IH]; intros fuel pos caps Hfuel Hk.
  - simpl in Hk. rewrite Nat.add_0_r in Hk.
    destruct fuel; simpl; [exact Hk | now rewrite Hnil].
  - destruct fuel as [|fuel]; [simpl in Hfuel; lia|].
    cbn [repeat]. rewrite Hcons. cbn [trimStart] in Hk.
    destruct (isWhiteSpace x) eqn:Hx.
    + assert (Hlt : Nat.ltb (length s) (length (x :: s)) = true)
        by (apply Nat.ltb_lt; simpl; lia).
      rewrite Hlt. rewrite (IH fuel (S pos) caps); [reflexivity | simpl in Hfuel; lia|].
      pose proof (trimStart_length s) as Hlen.
      replace (S pos + (length s - length (trimStart s)))
        with (pos + (length (x :: s) - length (trimStart s)))
        by (simpl; lia).
      exact Hk.
    + simpl. rewrite Nat.sub_diag, Nat.add_0_r in Hk. exact Hk.
Qed.

Lemma m_space_cons (R : Type) (icase : bool) pos x s caps (k : Cont R) :
  m R icase Critic.space pos (x :: s) caps k
  = if isWhiteSpace x then k (S pos) s caps else None.
Proof. simpl. now rewrite orb_false_r. Qed.

Lemma repeat_space (R : Type) (icase : bool) (k : Cont R) (res : R) :
  ∀ s fuel pos caps,
    length s <= fuel ->
    k (pos + (length s - length (trimStart s))) (trimStart s) caps = Some res ->
    repeat R (m R icase Critic.space) true k fuel pos s caps = Some res.
Proof.
  apply repeat_spaces.
  - reflexivity.
  - intros pos x s caps k'. apply m_space_cons.
Qed.

Lemma skipn_spaces (s : jsstring) :
  skipn (length s - length (trimStart s)) s = trimStart s.
Proof.
  induction s as [|x s IH]; [reflexivity|].
  cbn [trimStart]. destruct (isWhiteSpace x).
  - pose proof (trimStart_length s).
    replace (length (x :: s) - length (trimStart s))
      with (S (length s - length (trimStart s))) by (simpl; lia).
    exact IH.
  - now rewrite Nat.sub_diag.
Qed.

(** [/^[-•*]\s+/] matches a text that starts with a bullet character
    and white space, up to where the white space ends. *)
Lemma bullet_exec (t : jsstring) :
  String_match t false Critic.re_bullet
  = match t with
    | b :: w :: rest =>
        if classMatches false [ClsUnit 45%N; ClsUnit 8226%N; ClsUnit 42%N] b
           && isWhiteSpace w
        then Some {| index := 0;
                     matched := firstn (2 + (length rest - length (trimStart rest))) t;
                     groups := [] |}
        else None
    | _ => None
    end.
Proof.
  unfold String_match, Critic.re_bullet, Plus.
  destruct t as [|b [|w rest]].
  - reflexivity.
  - cbn [exec_from m Nat.eqb].
    destruct (classMatches false _ b); reflexivity.
  - cbn [exec_from]. rewrite exec_from_anchored by lia.
    cbn [m Nat.eqb].
    destruct (classMatches false _ b); [|reflexivity].
    rewrite m_space_cons. cbn [andb].
    destruct (isWhiteSpace w); [|reflexivity].
    erewrite repeat_space; [|reflexivity|reflexivity].
    cbn [orElse]. now rewrite Nat.sub_0_r.
Qed.

(** A trimmed line is a bullet when it starts with [-], [•] or [*]
    and white space; what [replace] leaves of it is what follows the
    white space. *)
Lemma bullet_match (t : jsstring) (res : MatchResult) :
  String_match t false Critic.re_bullet = Some res ->
  ∃ b w rest,
    t = b :: w :: rest ∧ isWhiteSpace w = true
    ∧ String_replace t false Critic.re_bullet [] = trimStart rest.
Proof.
  unfold String_replace. rewrite bullet_exec.
  destruct t as [|b [|w rest]]; try discriminate.
  destruct (classMatches false _ b); [|discriminate].
  destruct (isWhiteSpace w) eqn:Hw; [|discriminate].
  intros _. exists b, w, rest. split; [reflexivity|]. split; [exact Hw|].
  cbn [andb index matched].
  pose proof (trimStart_length rest) as Hlen.
  rewrite length_firstn.
  replace (0 + Nat.min (2 + (length rest - length (trimStart rest)))
                 (length (b :: w :: rest)))
    with (S (S (length rest - length (trimStart rest)))) by (simpl; lia).
  cbn [firstn skipn app]. apply skipn_spaces.
Qed.

Lemma trimEnd_tail (x : N) (s : jsstring) :
  trimEnd (x :: s) = x :: s -> s <> [] -> trimEnd s = s.
Proof.
  rewrite trimEnd_cons. destruct (trimEnd s) as [|y t].
  - destruct (isWhiteSpace x); intros [= <-]; congruence.
  - now intros [= <-].
Qed.

Lemma trimEnd_after_space (w : N) (s : jsstring) :
  isWhiteSpace w = true -> trimEnd (w :: s) = w :: s -> s <> [] ∧ trimEnd s = s.
Proof.
  intros Hw. rewrite trimEnd_cons, Hw. destruct (trimEnd s) as [|y t]; [discriminate|].
  intros [= <-]. split; [discriminate | reflexivity].
Qed.

Lemma trimEnd_fixed_nonblank (s : jsstring) :
  trimEnd s = s -> s <> [] -> trimStart s <> [].
Proof.
  intros Hfixed Hne.
  assert (Hrev : trimStart (rev s) = rev s).
  { unfold trimEnd in Hfixed. apply (f_equal (@rev N)) in Hfixed.
    now rewrite rev_involutive in Hfixed. }
  destruct (rev s) as [|y r] eqn:E.
  - apply (f_equal (@rev N)) in E. rewrite rev_involutive in E. now subst.
  - apply trimStart_fixed in Hrev.
    assert (Hs : s = rev r ++ [y]).
    { apply (f_equal (@rev N)) in E. now rewrite rev_involutive in E. }
    rewrite Hs, trimStart_snoc.
    destruct (trimStart (rev r)); simpl; [now rewrite Hrev | discriminate].
Qed.

Lemma trimEnd_trimStart (s : jsstring) :
  trimEnd s = s -> trimEnd (trimStart s) = trimStart s.
Proof.
  intros Hfixed.
  assert (Hrev : trimStart (rev s) = rev s).
  { unfold trimEnd in Hfixed. apply (f_equal (@rev N)) in Hfixed.
    now rewrite rev_involutive in Hfixed. }
  pose proof (trimStart_trimEnd (rev s) Hrev) as H.
  unfold trimEnd in H at 1 2. rewrite rev_involutive in H.
  unfold trimEnd. now rewrite H, rev_involutive.
Qed.

(** The text of a bullet of a trimmed line is not empty and has no
    white space around it. *)
Lemma bullet_text_tidy (line : jsstring) (res : MatchResult) :
  String_match (trim line) false Critic.re_bullet = Some res ->
  tidy (String_replace (trim line) false Critic.re_bullet []).
Proof.
  intros Hmatch. destruct (trim_trimmed line) as [_ Hend].
  apply bullet_match in Hmatch as (b & w & rest & Hline & Hw & ->).
  rewrite Hline in Hend.
  apply trimEnd_tail in Hend; [|discriminate].
  apply (trimEnd_after_space w rest Hw) in Hend as [Hne Hend].
  split.
  - now apply trimEnd_fixed_nonblank.
  - unfold trim. rewrite trimStart_idem. now apply trimEnd_trimStart.
Qed.

Lemma collectIssues_tidy (lines : list jsstring) :
  ∀ issues, (∀ issue, In issue issues -> tidy issue) ->
            ∀ issue, In issue (Critic.collectIssues lines issues) -> tidy issue.
Proof.
  induction lines as [|line lines IH]; intros issues Hissues; [exact Hissues|].
  cbn [Critic.collectIssues].
  destruct (String_match (trim line) false Critic.re_bullet) as [res|] eqn:Hmatch.
  - apply IH. intros issue Hin. apply in_app_iff in Hin as [Hin|[<-|[]]].
    + now apply Hissues.
    + now apply (bullet_text_tidy line res).
  - now apply IH.
Qed.

(** X21: every evaluation [evaluateSegment] returns is well formed,
    whatever the model answered. An evaluation that passes source
    alignment lists no issue; the issues are never an empty list (they
    are absent instead), and each issue is a bullet's text, not empty
    and without white space around it; the improvement guidance is never
    empty, and it and the evaluation text are trimmed; the legacy
    suggestions are empty. *)
Theorem evaluateSegment_well_formed
    (segmentId : jsstring) (call : Call) (response : completion CompletionResult)
    (evaluatedAt : Z) (log log' : AgentLog) (ev : Critic.CriticEvaluation) :
  Critic.evaluateSegment segmentId call response evaluatedAt log = (Returned ev, log') ->
  (Critic.sourceAlignment ev = true -> Critic.sourceAlignmentIssues ev = None)
  ∧ Critic.sourceAlignmentIssues ev <> Some []
  ∧ (∀ issues issue, Critic.sourceAlignmentIssues ev = Some issues ->
       In issue issues -> tidy issue)
  ∧ tidy (Critic.improvementGuidance ev)
  ∧ trim (Critic.evaluation ev) = Critic.evaluation ev
  ∧ Critic.suggestions ev = []
  ∧ Critic.segmentId ev = segmentId.
Proof.
  intros Hrun.
  assert (Hev : ∃ text, ev = Critic.parseEvaluation segmentId text evaluatedAt).
  { unfold Critic.evaluateSegment, bind, tryCatch, logRequest, logResponse, logError,
      await, ret, throw in Hrun.
    destruct response as [result|e]; simpl in Hrun; [|discriminate].
    injection Hrun as <- _. eauto. }
  destruct Hev as [text ->]. clear Hrun.
  unfold Critic.parseEvaluation.
  cbn [Critic.sourceAlignment Critic.sourceAlignmentIssues Critic.improvementGuidance
       Critic.evaluation Critic.suggestions Critic.segmentId].
  set (aligned := match String_match text true Critic.re_sourceAlignment with
                  | Some res => _
                  | None => false
                  end).
  set (found := if aligned then [] else _).
  assert (Hfound : ∀ issue, In issue found -> tidy issue).
  { unfold found. destruct aligned; [intros issue []|].
    destruct (String_match text true Critic.re_issuesSection) as [res|];
      [|intros issue []].
    destruct (matched res) as [|x section] eqn:Hsection; [intros issue []|].
    apply collectIssues_tidy. intros issue []. }
  split; [|split; [|split; [|split; [|split; [|split]]]]].
  - intros Haligned. unfold found. now rewrite Haligned.
  - destruct found; discriminate.
  - intros issues issue Hsome Hin. apply Hfound.
    destruct found as [|i found']; [discriminate|]. injection Hsome as <-. exact Hin.
  - assert (Hdefault : tidy (u "No specific guidance provided"))
      by (split; [discriminate | reflexivity]).
    destruct (String_match text true Critic.re_guidance) as [res|]; [|exact Hdefault].
    destruct (group 1 res) as [g|]; [|exact Hdefault].
    destruct (trim g) as [|x t] eqn:Hg; [exact Hdefault|].
    split; [discriminate|]. rewrite <- Hg. apply trim_idem.
  - apply trim_idem.
  - reflexivity.
  - reflexivity.
Qed.

Lemma evaluateSegment_well_formed_witness :
  ∃ ev log',
    Critic.evaluateSegment (u "segment-3-0") Samples.aCall
      (Returned {| content := Samples.criticResponse; usage := None |}) 1850%Z []
    = (Returned ev, log')
    ∧ Critic.sourceAlignmentIssues ev = Some [u "unsupported claim A"]
    ∧ (∀ issues issue, Critic.sourceAlignmentIssues ev = Some issues ->
         In issue issues -> tidy issue)
    ∧ tidy (Critic.improvementGuidance ev).
Proof.
  eexists. eexists. split; [reflexivity|]. split; [vm_compute; reflexivity|].
  destruct (evaluateSegment_well_formed (u "segment-3-0") Samples.aCall
              (Returned {| content := Samples.criticResponse; usage := None |})
              1850%Z [] _ _ eq_refl) as (_ & _ & Hissues & Hguidance & _).
  split; [exact Hissues | exact Hguidance].
Defined.

(* ===================================================================== *)
(** ** Phase 3 page: all analyses or none *)
(* ===================================================================== *)

Lemma stream_to_the_end (agentName roleId : string) (logged : jsstring -> jsstring)
    (call : Call) (up : Upstream) (log : AgentLog) :
  fst (streamOperation agentName roleId logged call up None log)
  = {| delivered := chunks up;
       outcome := match failure up with
                  | Some e => Thrown e
                  | None => Returned Done
                  end |}.
Proof.
  unfold streamOperation. simpl. rewrite forAwait_to_the_end.
  unfold tryCatch, throw, bind, logError, logResponse.
  destruct (failure up); reflexivity.
Qed.

Lemma analyzed_run (call : Call) (up : Upstream) (completedAt : N)
    (segment : FrameworkSegment) :
  Phase3Page.analyzed call up completedAt segment
  = match failure up with
    | Some e => Thrown e
    | None => Returned {| sa_segmentId := seg_id segment;
                          sa_content := trim (concat (chunks up));
                          sa_status := complete;
                          sa_generatedAt := Some completedAt |}
    end.
Proof.
  unfold Phase3Page.analyzed, Writer.analyzeSegmentStream.
  rewrite stream_to_the_end. now destruct (failure up).
Qed.

Lemma Promise_all_fulfilled {A B} (f : nat -> A -> completion B) (g : nat -> A -> B)
    (l : list A) :
  ∀ n, (∀ i x, l !! i = Some x -> f (n + i) x = Returned (g (n + i) x)) ->
       Phase3Page.Promise_all (imap (fun i => f (n + i)) l)
       = Some (imap (fun i => g (n + i)) l).
Proof.
  induction l as [|x l IH]; intros n Hall; [reflexivity|].
  cbn [imap Phase3Page.Promise_all fold_right].
  rewrite (Hall 0 x eq_refl).
  specialize (IH (S n)).
  unfold Phase3Page.Promise_all in IH.
  erewrite (imap_ext _ (fun i => f (S n + i))), IH.
  - f_equal. f_equal. apply imap_ext. intros i y _. simpl. f_equal. lia.
  - intros i y Hi. replace (S n + i) with (n + S i) by lia. now apply Hall.
  - intros i y _. simpl. f_equal. lia.
Qed.

Lemma Promise_all_rejected {A B} (f : nat -> A -> completion B) (l : list A) :
  ∀ n i x e, l !! i = Some x -> f (n + i) x = Thrown e ->
             Phase3Page.Promise_all (imap (fun i => f (n + i)) l) = None.
Proof.
  induction l as [|y l IH]; intros n i x e Hi Hf; [discriminate|].
  cbn [imap Phase3Page.Promise_all fold_right].
  destruct i as [|i].
  - injection Hi as ->. now rewrite Hf.
  - simpl in Hi.
    assert (Hrest : Phase3Page.Promise_all (imap (fun j => f (S n + j)) l) = None).
    { apply (IH (S n) i x e Hi). now replace (S n + i) with (n + S i) by lia. }
    unfold Phase3Page.Promise_all in Hrest.
    erewrite (imap_ext _ (fun j => f (S n + j))), Hrest.
    + now destruct (f (n + 0) y).
    + intros j z _. simpl. f_equal. lia.
Qed.

Lemma withPlaceholders_keeps (pendingAt : nat -> N)
    (entries : list (nat * FrameworkSegment)) :
  ∀ known key a,
    Orchestrator.Map_get key
      (fold_left (fun acc entry =>
                    match Orchestrator.Map_get (seg_id (snd entry)) acc with
                    | Some _ => acc
                    | None =>
                        Orchestrator.Map_set (seg_id (snd entry))
                          {| sa_segmentId := seg_id (snd entry);
                             sa_content := [];
                             sa_status := pending;
                             sa_generatedAt := Some (pendingAt (fst entry)) |} acc
                    end) entries known) = Some a ->
    Orchestrator.Map_get key known = Some a ∨ sa_status a = pending.
Proof.
  induction entries as [|entry entries IH]; intros known key a Hget; [now left|].
  cbn [fold_left] in Hget. apply IH in Hget as [Hget | Hpending]; [|now right].
  destruct (Orchestrator.Map_get (seg_id (snd entry)) known) eqn:Hknown;
    [now left|].
  destruct (decide (seg_id (snd entry) = key)) as [<-|Hne].
  - rewrite Map_get_set_eq in Hget. injection Hget as <-. now right.
  - rewrite Map_get_set_ne in Hget by exact Hne. now left.
Qed.

(** The values of the map the page collects, handed to
    [setPhase3Data], give the map the results themselves give: in both,
    of results with the same segment id the last wins. *)
Lemma collected_entries (results : list SegmentAnalysis) :
  List.NoDup (List.map fst (Phase3Page.collected results))
  ∧ (∀ k v, In (k, v) (Phase3Page.collected results) -> sa_segmentId v = k)
  ∧ (∀ k, Orchestrator.Map_get k (Phase3Page.collected results)
          = ContextUpdates.analysesMap results !! k).
Proof.
  unfold Phase3Page.collected.
  induction results as [|r results (Hnodup & Hkeys & Hget)] using rev_ind.
  - split; [constructor|]. split; [intros k v []|]. intros k. simpl.
    symmetry. apply lookup_empty.
  - rewrite fold_left_app. cbn [fold_left].
    set (entries := fold_left _ results []) in *.
    assert (Hset : ∀ (l : list (jsstring * SegmentAnalysis)),
              List.NoDup (List.map fst l) ->
              (∀ k v, In (k, v) l -> sa_segmentId v = k) ->
              List.NoDup (List.map fst (Orchestrator.Map_set (sa_segmentId r) r l))
              ∧ (∀ k v, In (k, v) (Orchestrator.Map_set (sa_segmentId r) r l) ->
                        sa_segmentId v = k)).
    { clear. induction l as [|[k0 v0] l IH]; intros Hnd Hk.
      - simpl. split; [repeat constructor; intros []|].
        intros k v [[= <- <-]|[]]. reflexivity.
      - simpl in Hnd. apply List.NoDup_cons_iff in Hnd as [Hfresh Hnd].
        cbn [Orchestrator.Map_set].
        destruct (jsstring_eqb k0 (sa_segmentId r)) eqn:E.
        + apply jsstring_eqb_eq in E. split.
          * simpl. now constructor.
          * intros k v [[= <- <-]|Hin]; [exact (eq_sym E)|].
            apply Hk. now right.
        + apply jsstring_eqb_neq in E.
          destruct IH as [IHnd IHk]; [exact Hnd | intros; apply Hk; now right|].
          split.
          * simpl. constructor; [|exact IHnd].
            intros Hin. apply in_map_iff in Hin as ([k v] & Heq & Hin).
            simpl in Heq. subst k.
            assert (Hkey : Orchestrator.Map_get k0
                             (Orchestrator.Map_set (sa_segmentId r) r l)
                           = Orchestrator.Map_get k0 l)
              by (apply Map_get_set_ne; congruence).
            apply Hfresh.
            assert (Hsome : ∀ (es : list (jsstring * SegmentAnalysis)) key,
                      In key (List.map fst es)
                      <-> Orchestrator.Map_get key es <> None).
            { clear. induction es as [|[k' v'] es IHes]; intros key; simpl.
              - split; [intros [] | congruence].
              - destruct (jsstring_eqb k' key) eqn:E'.
                + apply jsstring_eqb_eq in E'. split; [discriminate | now left].
                + apply jsstring_eqb_neq in E'. rewrite <- IHes.
                  split; [intros [H|H]; [contradiction | exact H] | now right]. }
            apply Hsome. rewrite <- Hkey. apply Hsome.
            apply in_map_iff. exists (k0, v). split; [reflexivity | exact Hin].
          * intros k v [[= <- <-]|Hin]; [apply Hk; now left | now apply IHk]. }
    destruct (Hset entries Hnodup Hkeys) as [Hnd' Hk'].
    split; [exact Hnd'|]. split; [exact Hk'|].
    intros k. rewrite analysesMap_snoc.
    destruct (decide (sa_segmentId r = k)) as [<-|Hne].
    + now rewrite Map_get_set_eq, lookup_insert_eq.
    + rewrite Map_get_set_ne, lookup_insert_ne by exact Hne. apply Hget.
Qed.

Lemma analysesMap_of_entries (entries : list (jsstring * SegmentAnalysis)) :
  List.NoDup (List.map fst entries) ->
  (∀ k v, In (k, v) entries -> sa_segmentId v = k) ->
  ∀ k, ContextUpdates.analysesMap (List.map snd entries) !! k
       = Orchestrator.Map_get k entries.
Proof.
  induction entries as [|[k0 v0] entries IH] using rev_ind; intros Hnd Hkeys k.
  - apply lookup_empty.
  - rewrite map_app in Hnd. simpl in Hnd.
    apply NoDup_remove in Hnd as [Hnd Hfresh]. rewrite app_nil_r in Hnd, Hfresh.
    rewrite map_app. simpl. rewrite analysesMap_snoc.
    assert (Hid : sa_segmentId v0 = k0)
      by (apply Hkeys, in_app_iff; right; now left).
    rewrite Hid.
    assert (Hget : ∀ es : list (jsstring * SegmentAnalysis),
              Orchestrator.Map_get k (es ++ [(k0, v0)])
              = match Orchestrator.Map_get k es with
                | Some v => Some v
                | None => if jsstring_eqb k0 k then Some v0 else None
                end).
    { clear. induction es as [|[k' v'] es IHes]; simpl; [reflexivity|].
      destruct (jsstring_eqb k' k); [reflexivity | exact IHes]. }
    rewrite Hget.
    destruct (decide (k0 = k)) as [<-|Hne].
    + rewrite lookup_insert_eq, jsstring_eqb_refl.
      destruct (Orchestrator.Map_get k0 entries) eqn:E; [|reflexivity].
      exfalso. apply Hfresh. clear -E.
      induction entries as [|[k' v'] es IHes]; [discriminate|]. simpl in *.
      destruct (jsstring_eqb k' k0) eqn:E'.
      * apply jsstring_eqb_eq in E'. now left.
      * right. now apply IHes.
    + rewrite lookup_insert_ne by exact Hne.
      rewrite IH; [|exact Hnd|intros k' v' Hin; apply Hkeys, in_app_iff; now left].
      apply jsstring_eqb_neq in Hne. rewrite Hne.
      now destruct (Orchestrator.Map_get k entries).
Qed.

(** X22: [launchAnalysisTeam] keeps all the analyses or none. If the
    stream of one segment fails, the context is left as it was: the
    analyses of the segments whose streams completed are dropped, and the
    page holds what it held plus placeholders that are [pending]. If
    every stream completes, the context is what [setPhase3Data] makes of
    the completed analyses, one per segment in the order of the
    framework, each with the trimmed text of its stream. *)
Theorem launchAnalysisTeam_all_or_nothing
    (calls : nat -> Call) (ups : nat -> Upstream) (pendingAt completedAt : nat -> N)
    (st : Phase3Page.PageState) (fw : AnalysisFramework) :
  AnalysisContext.framework (Phase3Page.context st) = Some fw ->
  AnalysisContext.transcript (Phase3Page.context st) <> [] ->
  let (st', toast) :=
    Phase3Page.launchAnalysisTeam calls ups pendingAt completedAt st in
  ((∃ i segment e, segments fw !! i = Some segment ∧ failure (ups i) = Some e) ->
   Phase3Page.context st' = Phase3Page.context st
   ∧ toast = Phase3Page.ToastError "Some analyses failed. Check the log panel."
   ∧ ∀ key a, Orchestrator.Map_get key (Phase3Page.analyses st') = Some a ->
              Orchestrator.Map_get key (Phase3Page.analyses st) = Some a
              ∨ sa_status a = pending)
  ∧ ((∀ i segment, segments fw !! i = Some segment -> failure (ups i) = None) ->
     Phase3Page.context st'
     = ContextUpdates.setPhase3Data
         (imap (Phase3Page.completedAnalysis ups completedAt) (segments fw))
         (Phase3Page.context st)
     ∧ toast = Phase3Page.ToastSuccess "All segments analyzed!").
Proof.
  intros Hfw Htranscript. unfold Phase3Page.launchAnalysisTeam. rewrite Hfw.
  destruct (AnalysisContext.transcript (Phase3Page.context st)) as [|x text];
    [congruence|].
  destruct (Phase3Page.Promise_all _) as [results|] eqn:Hall.
  - split.
    + intros (i & segment & e & Hi & Hfail). exfalso.
      pose proof (Promise_all_rejected
                    (fun i segment =>
                       Phase3Page.analyzed (calls i) (ups i) (completedAt i) segment)
                    (segments fw) 0 i segment e Hi) as Hnone.
      simpl in Hnone. rewrite Hnone in Hall; [discriminate|].
      rewrite analyzed_run, Hfail. reflexivity.
    + intros Hok. split; [|reflexivity].
      pose proof (Promise_all_fulfilled
                    (fun i segment =>
                       Phase3Page.analyzed (calls i) (ups i) (completedAt i) segment)
                    (Phase3Page.completedAnalysis ups completedAt)
                    (segments fw) 0) as Hsome.
      simpl in Hsome. rewrite Hsome in Hall.
      * injection Hall as <-. cbn [Phase3Page.context].
        unfold ContextUpdates.setPhase3Data. f_equal.
        apply map_eq. intros k.
        destruct (collected_entries
                    (imap (Phase3Page.completedAnalysis ups completedAt) (segments fw)))
          as (Hnd & Hkeys & Hget).
        now rewrite analysesMap_of_entries, Hget.
      * intros i segment Hi. rewrite analyzed_run, (Hok i segment Hi). reflexivity.
  - split.
    + intros _. split; [reflexivity|]. split; [reflexivity|].
      cbn [Phase3Page.analyses]. unfold Phase3Page.withPlaceholders.
      apply withPlaceholders_keeps.
    + intros Hok. exfalso.
      pose proof (Promise_all_fulfilled
                    (fun i segment =>
                       Phase3Page.analyzed (calls i) (ups i) (completedAt i) segment)
                    (Phase3Page.completedAnalysis ups completedAt)
                    (segments fw) 0) as Hsome.
      simpl in Hsome. rewrite Hsome in Hall; [discriminate|].
      intros i segment Hi. rewrite analyzed_run, (Hok i segment Hi). reflexivity.
Qed.

Lemma launchAnalysisTeam_all_or_nothing_witness :
  let (st', toast) :=
    Phase3Page.launchAnalysisTeam (fun _ => PageSamples.plainCall)
      (fun _ => PageSamples.steady) (fun _ => 5%N) (fun _ => 9%N)
      PageSamples.beforeAnalysis in
  AnalysisContext.segmentAnalyses (Phase3Page.context st') !! u "segment-3-0"
  = Some {| sa_segmentId := u "segment-3-0";
            sa_content := u "A sales call.";
            sa_status := complete;
            sa_generatedAt := Some 9%N |}
  ∧ toast = Phase3Page.ToastSuccess "All segments analyzed!".
Proof.
  pose proof (launchAnalysisTeam_all_or_nothing (fun _ => PageSamples.plainCall)
                (fun _ => PageSamples.steady) (fun _ => 5%N) (fun _ => 9%N)
                PageSamples.beforeAnalysis _ eq_refl
                ltac:(discriminate)) as H.
  destruct (Phase3Page.launchAnalysisTeam _ _ _ _ _) as [st' toast].
  destruct H as [_ H]. destruct H as [-> ->]; [reflexivity|].
  split; [|reflexivity]. vm_compute. reflexivity.
Defined.

(* ===================================================================== *)
(** ** Phase 3.5 page: adding a gap to the main analysis *)
(* ===================================================================== *)

(** X23: [addToMain] adds a gap once. It does nothing for a gap that has
    no analysis on the page, and it removes the analysis it adds, so a
    second [addToMain] of the same gap changes nothing: the framework
    does not gain the duplicate segment a second [addGapToMainAnalysis]
    would append. The other gaps of the page are untouched, and the
    analysis is in the context under the id of the gap. A custom gap is
    accepted only with a title and an objective, and then none of its
    four fields is empty. *)
Theorem addToMain_once (gapId : jsstring) (st : Phase35Page.PageState) :
  Phase35Page.addToMain gapId (Phase35Page.addToMain gapId st)
  = Phase35Page.addToMain gapId st
  ∧ Phase35Page.gapAnalyses (Phase35Page.addToMain gapId st) !! gapId = None
  ∧ (∀ key, key <> gapId ->
       Phase35Page.gapAnalyses (Phase35Page.addToMain gapId st) !! key
       = Phase35Page.gapAnalyses st !! key)
  ∧ (∀ analysis, Phase35Page.gapAnalyses st !! gapId = Some analysis ->
       AnalysisContext.segmentAnalyses
         (Phase35Page.context (Phase35Page.addToMain gapId st)) !! gapId
       = Some analysis
       ∧ ∀ fw, AnalysisContext.framework (Phase35Page.context st) = Some fw ->
           ∃ fw', AnalysisContext.framework
                    (Phase35Page.context (Phase35Page.addToMain gapId st)) = Some fw'
                  ∧ length (segments fw') <= S (length (segments fw)))
  ∧ (∀ now customGap st',
       Phase35Page.handleAddCustomGap now customGap st = Some st' ->
       ∃ gap, Phase35Page.suggestions st' = Phase35Page.suggestions st ++ [gap]
              ∧ gap_id gap ∈ Phase35Page.selectedGaps st'
              ∧ truthy (gap_title gap) = true ∧ truthy (gap_objective gap) = true
              ∧ truthy (gap_guidance gap) = true ∧ truthy (gap_rationale gap) = true).
Proof.
  assert (Hgone : Phase35Page.gapAnalyses (Phase35Page.addToMain gapId st) !! gapId
                  = None).
  { unfold Phase35Page.addToMain.
    destruct (Phase35Page.gapAnalyses st !! gapId) eqn:E; [|exact E].
    apply lookup_delete_eq. }
  split; [|split; [exact Hgone|split; [|split]]].
  - unfold Phase35Page.addToMain at 1. now rewrite Hgone.
  - intros key Hne. unfold Phase35Page.addToMain.
    destruct (Phase35Page.gapAnalyses st !! gapId); [|reflexivity].
    now apply lookup_delete_ne.
  - intros analysis Hsome. unfold Phase35Page.addToMain. rewrite Hsome. simpl.
    split; [apply lookup_insert_eq|].
    intros fw ->.
    destruct (AnalysisContext.targetSuggestion gapId _ _); eexists;
      (split; [reflexivity|]); simpl; rewrite ?length_app; simpl; lia.
  - intros now customGap st'. unfold Phase35Page.handleAddCustomGap.
    destruct (Phase35Page.custom_title customGap) as [|x title] eqn:Htitle;
      [discriminate|].
    destruct (Phase35Page.custom_objective customGap) as [|y objective]
      eqn:Hobjective; [discriminate|].
    intros [= <-]. eexists. split; [reflexivity|]. simpl.
    split; [set_solver|]. split; [reflexivity|]. split; [reflexivity|].
    split; unfold Phase35Page.orText.
    + now destruct (Phase35Page.custom_guidance customGap).
    + now destruct (Phase35Page.custom_rationale customGap).
Qed.

(* ===================================================================== *)
(** ** From the Gemini SDK to the log *)
(* ===================================================================== *)

Lemma concat_nonempty (l : list jsstring) :
  concat (List.filter (fun s => match s with [] => false | _ :: _ => true end) l)
  = concat l.
Proof.
  induction l as [|[|x s] l IH]; simpl; [reflexivity | exact IH | now rewrite IH].
Qed.

(** X24: under provider [google] a streaming operation never yields an
    empty chunk, and still logs the whole text: when the SDK stream
    completes, the chunks delivered are the non-empty chunk texts of the
    SDK, in order, and the response entry holds what the operation logs
    of the concatenation of all of them. When no API key was given, the
    first [next()] throws the initialisation error: nothing is delivered
    and the log holds the request and that error. *)
Theorem gemini_stream_reaches_the_log
    (agentName roleId : string) (logged : jsstring -> jsstring)
    (call : Call) (sdk : Upstream) (log : AgentLog) :
  (failure sdk = None ->
   streamOperation agentName roleId logged call
     (Gemini.generateCompletionStream true sdk) None log
   = ({| delivered := List.filter (fun s => match s with
                                            | [] => false
                                            | _ :: _ => true
                                            end) (chunks sdk);
         outcome := Returned Done |},
      log ++ [RequestEntry (length log) (u agentName) (u roleId)
                (systemPrompt call) (userPrompt call) (model call);
              ResponseEntry (length log) (logged (concat (chunks sdk)))
                (endTime call - startTime call)%Z None]))
  ∧ (∀ chunk, In chunk (chunks (Gemini.generateCompletionStream true sdk)) ->
              chunk <> [])
  ∧ streamOperation agentName roleId logged call
      (Gemini.generateCompletionStream false sdk) None log
    = ({| delivered := []; outcome := Thrown Gemini.notInitialized |},
       failureLog agentName roleId call Gemini.notInitialized log).
Proof.
  split; [|split].
  - intros Hok. unfold streamOperation, Gemini.generateCompletionStream. simpl.
    rewrite forAwait_to_the_end, Hok. simpl.
    unfold tryCatch, logResponse. simpl.
    now rewrite concat_nonempty, <- app_assoc.
  - intros chunk Hin. simpl in Hin. apply filter_In in Hin as [_ Hne].
    now destruct chunk.
  - unfold streamOperation, failureLog. simpl.
    unfold tryCatch, throw, bind, logError. simpl. now rewrite <- app_assoc.
Qed.

Lemma gemini_stream_reaches_the_log_witness :
  responses
    (snd (Writer.analyzeSegmentStream PageSamples.plainCall
            (Gemini.generateCompletionStream true
               {| chunks := [u "A sales"; []; u " call. "]; failure := None |})
            None []))
  = [u "A sales call. "].
Proof.
  unfold Writer.analyzeSegmentStream.
  rewrite (proj1 (gemini_stream_reaches_the_log "Writer Agent" "writer"
                    (fun text => text) PageSamples.plainCall
                    {| chunks := [u "A sales"; []; u " call. "]; failure := None |} [])
             eq_refl).
  reflexivity.
Defined.

(* ===================================================================== *)
(** ** The properties at work on the examples *)
(* ===================================================================== *)

Lemma phase_steps_are_inverse_witness :
  Navigation.getPreviousPhase GAP_ANALYSIS = Some INSIGHT_EXTRACTION
  ∧ Navigation.rank GAP_ANALYSIS = S (Navigation.rank INSIGHT_EXTRACTION).
Proof.
  destruct (phase_steps_are_inverse INSIGHT_EXTRACTION GAP_ANALYSIS)
    as (Hinverse & Hrank & _).
  split; [apply Hinverse; reflexivity | apply Hrank; reflexivity].
Defined.

Lemma navigation_is_gated_witness :
  let out := Navigation.navigateToPhase Examples.pendingOnly GAP_ANALYSIS in
  (Navigation.toast out <> None
   ∧ Navigation.after out = Examples.pendingOnly ∧ Navigation.route out = None)
  ∨ (Navigation.toast out = None
     ∧ AnalysisContext.canProceedToPhase Examples.pendingOnly
         (AnalysisContext.currentPhase (Navigation.after out)) = true
     ∧ Navigation.route out
       = Some (Navigation.PHASE_ROUTES
                 (AnalysisContext.currentPhase (Navigation.after out)))
     ∧ Navigation.after out
       = ContextUpdates.setCurrentPhase
           (AnalysisContext.currentPhase (Navigation.after out)) Examples.pendingOnly).
Proof.
  exact (proj1 (navigation_is_gated (fun _ => true) Examples.pendingOnly GAP_ANALYSIS
                  (Navigation.navigateToPhase Examples.pendingOnly GAP_ANALYSIS))
           (or_intror eq_refl)).
Defined.

Lemma setters_open_gates_witness :
  AnalysisContext.canProceedToPhase
    (ContextUpdates.setPhase3Data [Examples.pricingAnalysis] Examples.pendingOnly)
    CONSOLIDATION = true
  ∧ AnalysisContext.canProceedToPhase
      (ContextUpdates.setPhase3Data [] Examples.pendingOnly) CONSOLIDATION <> true.
Proof.
  destruct (setters_open_gates Examples.pendingOnly) as (_ & _ & Hthree & _).
  split.
  - apply (Hthree [Examples.pricingAnalysis] CONSOLIDATION (or_intror eq_refl)).
    discriminate.
  - intros Hopen.
    now apply (Hthree [] CONSOLIDATION (or_intror eq_refl)) in Hopen.
Defined.

Lemma addGapToMainAnalysis_opens_gates_witness :
  AnalysisContext.canProceedToPhase
    (AnalysisContext.addGapToMainAnalysis (u "gap-17-0") Examples.pricingAnalysis None
       Examples.inGapAnalysis) INSIGHT_EXTRACTION = true.
Proof.
  apply (proj1 (addGapToMainAnalysis_opens_gates (u "gap-17-0")
                  Examples.pricingAnalysis None Examples.inGapAnalysis)).
  reflexivity.
Defined.

Lemma segment_edits_renumber_witness :
  length (Phase2Page.segmentList
            (Phase2Page.deleteSegment 5
               {| Phase2Page.segmentList := segments Examples.oneSegment;
                  Phase2Page.context := Examples.inGapAnalysis |}))
  = 1.
Proof.
  destruct (proj1 (segment_edits_renumber
                     {| Phase2Page.segmentList := segments Examples.oneSegment;
                        Phase2Page.context := Examples.inGapAnalysis |}) 5)
    as (_ & _ & Hout & _).
  apply Hout. simpl. lia.
Defined.

Lemma appended_orders_witness :
  Phase2Page.dense
    (Phase2Page.segmentList
       (Phase2Page.addSegment 1700000000000%N
          {| Phase2Page.segmentList := segments Examples.oneSegment;
             Phase2Page.context := Examples.inGapAnalysis |})).
Proof.
  apply (proj1 (appended_orders (segments Examples.oneSegment) Examples.inGapAnalysis)).
  reflexivity.
Defined.

Lemma normalizeAgentsForProvider_models_witness :
  ∃ model,
    Settings.agent_model
      (Settings.normalizeAgentsForProvider
         (Some (JObj [(u "planner", JObj [(u "model", JStr (u "gemini-2.0-flash-001"))])]))
         Settings.google false Settings.planner)
    = Some (JStr model)
    ∧ model <> u "gemini-2.0-flash-001".
Proof.
  destruct (normalizeAgentsForProvider_models
              (Some (JObj [(u "planner",
                            JObj [(u "model", JStr (u "gemini-2.0-flash-001"))])]))
              Settings.google false Settings.planner)
    as (model & Hmodel & _ & _ & _ & _ & Hlegacy).
  exists model. split; [exact Hmodel|]. now apply Hlegacy.
Defined.

Lemma normalizeModel_strips_one_prefix_witness :
  Facade.normalizeModel Settings.litellm (Some (u "google/gemini-2.5-flash"))
  = Some (u "google/gemini-2.5-flash")
  ∧ Facade.normalizeModel Settings.google (Some (u "google/gemini-2.5-flash"))
    = Some (u "gemini-2.5-flash").
Proof.
  split.
  - apply (proj1 (proj2 (normalizeModel_strips_one_prefix Settings.litellm)));
      [discriminate | now left].
  - apply (proj1 (normalizeModel_strips_one_prefix Settings.google)
             (u "gemini-2.5-flash")).
Defined.

Lemma addToMain_once_witness :
  let page :=
    {| Phase35Page.suggestions := [Examples.pricing];
       Phase35Page.selectedGaps := {[ u "gap-17-0" ]};
       Phase35Page.gapAnalyses := {[ u "gap-17-0" := Examples.pricingAnalysis ]};
       Phase35Page.evaluations := ∅;
       Phase35Page.context := Examples.inGapAnalysis |} in
  AnalysisContext.segmentAnalyses
    (Phase35Page.context (Phase35Page.addToMain (u "gap-17-0") page)) !! u "gap-17-0"
  = Some Examples.pricingAnalysis
  ∧ Phase35Page.addToMain (u "gap-17-0") (Phase35Page.addToMain (u "gap-17-0") page)
    = Phase35Page.addToMain (u "gap-17-0") page.
Proof.
  intros page.
  destruct (addToMain_once (u "gap-17-0") page) as (Honce & _ & _ & Hadded & _).
  split; [|exact Honce].
  apply (Hadded Examples.pricingAnalysis). apply lookup_singleton_eq.
Defined.
